(** * oapi-codegen: the schema-to-type compiler, the allOf merger, the union
      generator and the prune pass, as Rocq functions.

    Sources embedded here (package [codegen] unless stated otherwise):
    - [pkg/codegen/schema.go]: [Schema], [Property], [TypeDefinition],
      [PropertiesEqual], [AddProperty], [GoTypeDef], [GenerateGoSchema],
      [oapiSchemaToGoType], [generateUnion], [GenStructFromSchema].
    - [pkg/codegen/merge_schemas.go]: [MergeSchemas], [mergeSchemas],
      [valueWithPropagatedRef], [mergeOpenapiSchemas].
    - [pkg/codegen/prune.go]: the [walk...] family, [findComponentRefs],
      [removeOrphanedComponents], [pruneUnusedComponents].
    - [pkg/codegen/extension.go]: [decodeYamlNode] and the [ext...] parsers.
    - [pkg/openapi/adapter.go]: the document model ([openapi.Schema],
      [openapi.SchemaRef], [openapi.T], ...).

    Conventions.
    - A Go [error] is its message.  A function returning [(T, error)] returns
      [res T]; a call that can also dereference nil runs in [M]: it [Returns]
      a result or it [Panics].
    - Go recursion that is not structural on the document (the merged schema of
      an allOf is compiled again) is bounded by a depth; [Exhausted] means that
      the bound was reached, and the theorems give depths at which it is not.
    - A Go map whose iteration order can be observed is an association list
      read in iteration order; the theorems quantify over every such list.
    - A pointer to a document node is the node; [nil] is [None]. *)

From Stdlib Require Import String Ascii List Arith Lia Bool.
From stdpp Require Import base option list gmap strings pretty.

Set Warnings "-register-all".
Set Default Proof Using "Type".

Local Open Scope string_scope.
Local Open Scope list_scope.

(* ===================================================================== *)
(** ** Results of Go calls *)
(* ===================================================================== *)

(** The pair [(T, error)] a Go function returns. *)
Inductive res (A : Type) : Type :=
| Ok (a : A)
| Err (e : string).
Arguments Ok {A} a.
Arguments Err {A} e.

(** The run of a call. *)
Inductive M (A : Type) : Type :=
| Returns (r : res A)
| Panics          (* nil pointer dereference *)
| Exhausted.      (* the bound on the recursion depth was reached *)
Arguments Returns {A} r.
Arguments Panics {A}.
Arguments Exhausted {A}.

Definition ret {A} (a : A) : M A := Returns (Ok a).
Definition fail {A} (e : string) : M A := Returns (Err e).
Definition panic {A} : M A := Panics.

Definition bind {A B} (m : M A) (k : A -> M B) : M B :=
  match m with
  | Returns (Ok a) => k a
  | Returns (Err e) => Returns (Err e)
  | Panics => Panics
  | Exhausted => Exhausted
  end.

(** [fmt.Errorf("<prefix>: %w", err)] on the error of [m]. *)
Definition wrapErr {A} (prefix : string) (m : M A) : M A :=
  match m with
  | Returns (Err e) => Returns (Err (prefix +:+ ": " +:+ e))
  | _ => m
  end.

Definition lift {A} (r : res A) : M A := Returns r.

Declare Scope go_scope.
Delimit Scope go_scope with go.
Notation "'let*' x ':=' m 'in' k" := (bind m (fun x => k))
  (at level 10, x name, m at level 100, k at level 200,
   format "'[v' 'let*'  x  ':='  m  'in' '/' k ']'") : go_scope.
Local Open Scope go_scope.

(* ===================================================================== *)
(** ** Go's [strings] and [fmt] *)
(* ===================================================================== *)

Module strings.

(** [strings.Join]. *)
Definition Join (elems : list string) (sep : string) : string :=
  String.concat sep elems.

(** [strings.HasPrefix]. *)
Definition HasPrefix (s p : string) : bool := String.prefix p s.

(** [strings.Contains]. *)
Fixpoint Contains (s substr : string) : bool :=
  HasPrefix s substr ||
  match s with
  | EmptyString => false
  | String _ s' => Contains s' substr
  end.

(** [s] without its first [n] bytes. *)
Fixpoint drop (n : nat) (s : string) : string :=
  match n, s with
  | S n', String _ s' => drop n' s'
  | _, _ => s
  end.

(** [strings.TrimPrefix]. *)
Definition TrimPrefix (s p : string) : string :=
  if HasPrefix s p then drop (String.length p) s else s.

(** Number of occurrences of the byte [c]. *)
Fixpoint count (s : string) (c : ascii) : nat :=
  match s with
  | EmptyString => 0
  | String a s' => (if Ascii.eqb a c then 1 else 0) + count s' c
  end.

End strings.

(** The byte [0x22]. *)
Definition dquote : string := String (ascii_of_nat 34) EmptyString.

(** [%q] of a string without special characters. *)
Definition fmt_q (s : string) : string := dquote +:+ s +:+ dquote.

(** [%v] of a [[]string]. *)
Definition fmt_v_strings (l : list string) : string :=
  "[" +:+ strings.Join l " " +:+ "]".

(** [fmt.Sprint(i)] / [%d] of a non-negative [int]. *)
Definition fmt_d (i : nat) : string := pretty i.

(** The first byte of [s] is [c]. *)
Definition firstByteIs (s : string) (c : ascii) : bool :=
  match s with
  | String a _ => Ascii.eqb a c
  | EmptyString => false
  end.

(** [a == b] on strings. *)
Definition streq (a b : string) : bool := bool_decide (a = b).

(** Membership of a string in a slice ([stringInSlice] of prune.go). *)
Definition stringInSlice (a : string) (l : list string) : bool :=
  existsb (fun b => streq b a) l.

(* ===================================================================== *)
(** ** Extension values ([map[string]interface{}]) *)
(* ===================================================================== *)

Module yaml.
(** [yaml.Node]: tag, scalar value and children. *)
Inductive Node : Type :=
  mkNode { Tag : string; Value : string; Content : list Node }.
End yaml.

(** The dynamic values an extension bag holds. *)
Inductive GoValue : Type :=
| VString (s : string)
| VBool (b : bool)
| VSlice (l : list GoValue)                (* []interface{} *)
| VMap (m : list (string * GoValue))       (* map[string]interface{} *)
| VYaml (n : yaml.Node)                    (* *yaml.Node *)
| VOther (T : string).                     (* any other dynamic type, by name *)

(** [%T]. *)
Definition fmt_T (v : GoValue) : string :=
  match v with
  | VString _ => "string"
  | VBool _ => "bool"
  | VSlice _ => "[]interface {}"
  | VMap _ => "map[string]interface {}"
  | VYaml _ => "*yaml.Node"
  | VOther T => T
  end.

(* ===================================================================== *)
(** ** The document model (package [openapi], adapter.go) *)
(* ===================================================================== *)

Module openapi.

(** [Discriminator]: [MappingToMap] is [nil] for an absent mapping; the
    association list is the map in the order a [range] visits it. *)
Record Discriminator : Type := mkDiscriminator {
  PropertyName : string;
  Mapping : option (list (string * string));
}.

Definition MappingToMap (d : Discriminator) : list (string * string) :=
  match Mapping d with
  | None => []
  | Some m => m
  end.

(** [SchemaRef] and [Schema].  The fields of the embedded [*base.Schema]
    that the compiler reads ([Type], [Format], [Description], [Enum],
    [Properties], [Required], [AllOf], [ReadOnly], [WriteOnly], [Deprecated])
    are fields of [Schema]; a schema proxy is the [SchemaRef] it converts to.
    [Enum] holds each literal as [%v] prints it. *)
Inductive SchemaRef : Type := mkSchemaRef {
  Ref : string;
  Value : option Schema;
  Ref_Items : option SchemaRef;
  Ref_AdditionalProperties : option SchemaRef; (* AdditionalProperties.Schema *)
  Ref_OneOf : list SchemaRef;
  Ref_AnyOf : list SchemaRef;
  Ref_AllOf : list SchemaRef;
  Ref_Not : option SchemaRef;
}
with Schema : Type := mkSchema {
  Type_ : list string;
  Format : string;
  Description : string;
  Enum : list string;
  Properties : option (list (string * SchemaRef));
  Required : list string;
  AllOf : option (list SchemaRef);
  ReadOnly : option bool;
  WriteOnly : option bool;
  Deprecated : option bool;
  Nullable : bool;
  Extensions : gmap string GoValue;
  AdditionalProperties_Has : bool;
  AdditionalProperties_Schema : option SchemaRef;
  Discriminator_ : option Discriminator;
  Items : option SchemaRef;
  AnyOf : option (list SchemaRef);
  OneOf : option (list SchemaRef);
}.

(** [NewSchemaRef]. *)
Definition NewSchemaRef (ref : string) (schema : option Schema) : SchemaRef :=
  mkSchemaRef ref schema None None [] [] [] None.

(** The zero [Schema]. *)
Definition Schema_zero : Schema :=
  mkSchema [] "" "" [] None [] None None None None false ∅ false None None
           None None None.

Definition TypeIs (s : Schema) (typeStr : string) : bool :=
  existsb (fun t => streq t typeStr) (Type_ s).

Definition TypeSlice (s : Schema) : list string := Type_ s.

(** [PropertiesToMap]: [nil] when the schema has no property map. *)
Definition PropertiesToMap (s : Schema) : option (list (string * SchemaRef)) :=
  Properties s.

(** [len(m)] and [m[k]] on a possibly nil property map. *)
Definition props_len (m : option (list (string * SchemaRef))) : nat :=
  match m with None => 0 | Some l => length l end.

Fixpoint assoc {A} (k : string) (l : list (string * A)) : option A :=
  match l with
  | [] => None
  | (k', v) :: l' => if streq k' k then Some v else assoc k l'
  end.

Definition props_get (m : option (list (string * SchemaRef))) (k : string)
  : option SchemaRef :=
  match m with None => None | Some l => assoc k l end.

Definition IsReadOnly (s : Schema) : bool := default false (ReadOnly s).
Definition IsWriteOnly (s : Schema) : bool := default false (WriteOnly s).
Definition IsDeprecated (s : Schema) : bool := default false (Deprecated s).

(** Field updates ([schema.Nullable = ...], [result.Properties = ...],
    [result.Required = ...]). *)
Definition set_Nullable (v : bool) (s : Schema) : Schema :=
  let 'mkSchema a b c d e f g h i j _ l m n o p q r := s in
  mkSchema a b c d e f g h i j v l m n o p q r.
Definition set_Properties (v : option (list (string * SchemaRef))) (s : Schema)
  : Schema :=
  let 'mkSchema a b c d _ f g h i j k l m n o p q r := s in
  mkSchema a b c d v f g h i j k l m n o p q r.
Definition set_Required (v : list string) (s : Schema) : Schema :=
  let 'mkSchema a b c d e _ g h i j k l m n o p q r := s in
  mkSchema a b c d e v g h i j k l m n o p q r.
Definition set_Type (v : list string) (s : Schema) : Schema :=
  let 'mkSchema _ b c d e f g h i j k l m n o p q r := s in
  mkSchema v b c d e f g h i j k l m n o p q r.

(** *** The rest of the document, as far as the prune pass walks it

    A map whose entries are walked is the list of its entries in the order
    a [range] visits them.  The named component maps are finite maps. *)

Record ExampleRef : Type := mkExampleRef {
  Example_Ref : string;
  Example_HasValue : bool;          (* [Value != nil] *)
}.

Record LinkRef : Type := mkLinkRef {
  Link_Ref : string;
  Link_HasValue : bool;
}.

Record SecuritySchemeRef : Type := mkSecuritySchemeRef {
  SecurityScheme_Ref : string;
  SecurityScheme_HasValue : bool;
}.

Record MediaType : Type := mkMediaType {
  MediaType_Schema : option SchemaRef;
  MediaType_Examples : list (string * ExampleRef);
}.

(** [Content]: a media type may be nil. *)
Definition Content : Type := list (string * option MediaType).

Record Header : Type := mkHeader { Header_Schema : option SchemaRef }.

Record HeaderRef : Type := mkHeaderRef {
  Header_Ref : string;
  Header_Value : option Header;
}.

(** [Parameter] (the name is reserved in Rocq). *)
Record Parameter_ : Type := mkParameter {
  Parameter_Schema : option SchemaRef;
  Parameter_Examples : list (string * ExampleRef);
  Parameter_Content : Content;
}.

Record ParameterRef : Type := mkParameterRef {
  Parameter_Ref : string;
  Parameter_Value : option Parameter_;
}.

Record RequestBody : Type := mkRequestBody { RequestBody_Content : Content }.

Record RequestBodyRef : Type := mkRequestBodyRef {
  RequestBody_Ref : string;
  RequestBody_Value : option RequestBody;
}.

Record Response : Type := mkResponse {
  Response_Headers : list (string * HeaderRef);
  Response_Content : Content;
  Response_Links : list (string * LinkRef);
}.

Record ResponseRef : Type := mkResponseRef {
  Response_Ref : string;
  Response_Value : option Response;
}.

(** [Operation], [CallbackRef] and [PathItem].  [Operation_Parameters] are
    the parameters that [ParametersToRefSlice] wraps; [Operation_Responses]
    is [Responses.Map()] ([None] for nil [Responses]); [Callback_Value] is
    [Value.Map()]; [PathItem_Operations] is [Operations()]. *)
Inductive Operation : Type := mkOperation {
  Operation_Parameters : list Parameter_;
  Operation_RequestBody : option RequestBodyRef;
  Operation_Responses : option (list (string * ResponseRef));
  Operation_Callbacks : list (string * CallbackRef);
}
with CallbackRef : Type := mkCallbackRef {
  Callback_Ref : string;
  Callback_Value : option (list (string * PathItem));
}
with PathItem : Type := mkPathItem {
  PathItem_Parameters : list ParameterRef;
  PathItem_Operations : list (string * Operation);
}.

(** [ParametersToRefSlice]. *)
Definition ParametersToRefSlice (params : list Parameter_) : list ParameterRef :=
  map (fun param => mkParameterRef "" (Some param)) params.

Record Components : Type := mkComponents {
  Schemas : gmap string SchemaRef;
  Parameters : gmap string ParameterRef;
  Responses : gmap string ResponseRef;
  RequestBodies : gmap string RequestBodyRef;
  Headers : gmap string HeaderRef;
  SecuritySchemes : gmap string SecuritySchemeRef;
  Examples : gmap string ExampleRef;
  Callbacks : gmap string CallbackRef;
  Links : gmap string LinkRef;
}.

(** [T], the document: [Paths.Map()] and the components. *)
Record T : Type := mkT {
  Paths : option (list (string * PathItem));
  Components_ : option Components;
}.

End openapi.

(* ===================================================================== *)
(** ** Configuration ([globalState.options]) *)
(* ===================================================================== *)

(** Modelled from the spec: the [Configuration] type (its declaration is not
    among the sources), with one field per option that the embedded code
    reads. *)
Record CompatibilityOptions : Type := mkCompatibilityOptions {
  OldMergeSchemas : bool;
  OldEnumConflicts : bool;
  OldAliasing : bool;
  DisableFlattenAdditionalProperties : bool;
  DisableRequiredReadOnlyAsPointer : bool;
  AllowUnexportedStructFieldNames : bool;
}.

Record OutputOptions : Type := mkOutputOptions {
  NullableType : bool;
  PreferSkipOptionalPointer : bool;
  PreferSkipOptionalPointerWithOmitzero : bool;
  PreferSkipOptionalPointerOnContainerTypes : bool;
  EnableYamlTags : bool;
  DisableTypeAliasesForType : list string;
}.

Record Configuration : Type := mkConfiguration {
  Compatibility : CompatibilityOptions;
  OutputOptions_ : OutputOptions;
}.

(* ===================================================================== *)
(** ** The compiler's output model (schema.go) *)
(* ===================================================================== *)

(** [Discriminator]: discriminator value to Go type, and the JSON property. *)
Record Discriminator : Type := mkDiscriminator {
  D_Mapping : gmap string string;
  D_Property : string;
}.

(** [Schema], [Property] and [TypeDefinition].  [UnionElement] is a string. *)
Inductive Schema : Type := mkSchema {
  GoType : string;
  RefType : string;
  ArrayType : option Schema;
  EnumValues : gmap string string;
  Properties : list Property;
  HasAdditionalProperties : bool;
  AdditionalPropertiesType : option Schema;
  AdditionalTypes : list TypeDefinition;
  EmbeddedTypes : list string;
  SkipOptionalPointer : bool;
  Description : string;
  UnionElements : list string;
  Discriminator_ : option Discriminator;
  DefineViaAlias : bool;
  OAPISchema : option openapi.Schema;
}
with Property : Type := mkProperty {
  P_Description : string;
  JsonFieldName : string;
  P_Schema : Schema;
  Required : bool;
  Nullable : bool;
  ReadOnly : bool;
  WriteOnly : bool;
  NeedsFormTag : bool;
  P_Extensions : gmap string GoValue;
  Deprecated : bool;
}
with TypeDefinition : Type := mkTypeDefinition {
  TypeName : string;
  JsonName : string;
  TD_Schema : Schema;
}.

(** [Schema{}]. *)
Definition Schema_zero : Schema :=
  mkSchema "" "" None ∅ [] false None [] [] false "" [] None false None.

(** Field assignments [s.F = v]. *)
Definition set_GoType (v : string) (s : Schema) : Schema :=
  let 'mkSchema _ x1 x2 x3 x4 x5 x6 x7 x8 x9 x10 x11 x12 x13 x14 := s in
  mkSchema v x1 x2 x3 x4 x5 x6 x7 x8 x9 x10 x11 x12 x13 x14.
Definition set_RefType (v : string) (s : Schema) : Schema :=
  let 'mkSchema x0 _ x2 x3 x4 x5 x6 x7 x8 x9 x10 x11 x12 x13 x14 := s in
  mkSchema x0 v x2 x3 x4 x5 x6 x7 x8 x9 x10 x11 x12 x13 x14.
Definition set_ArrayType (v : option Schema) (s : Schema) : Schema :=
  let 'mkSchema x0 x1 _ x3 x4 x5 x6 x7 x8 x9 x10 x11 x12 x13 x14 := s in
  mkSchema x0 x1 v x3 x4 x5 x6 x7 x8 x9 x10 x11 x12 x13 x14.
Definition set_EnumValues (v : gmap string string) (s : Schema) : Schema :=
  let 'mkSchema x0 x1 x2 _ x4 x5 x6 x7 x8 x9 x10 x11 x12 x13 x14 := s in
  mkSchema x0 x1 x2 v x4 x5 x6 x7 x8 x9 x10 x11 x12 x13 x14.
Definition set_Properties (v : list Property) (s : Schema) : Schema :=
  let 'mkSchema x0 x1 x2 x3 _ x5 x6 x7 x8 x9 x10 x11 x12 x13 x14 := s in
  mkSchema x0 x1 x2 x3 v x5 x6 x7 x8 x9 x10 x11 x12 x13 x14.
Definition set_HasAdditionalProperties (v : bool) (s : Schema) : Schema :=
  let 'mkSchema x0 x1 x2 x3 x4 _ x6 x7 x8 x9 x10 x11 x12 x13 x14 := s in
  mkSchema x0 x1 x2 x3 x4 v x6 x7 x8 x9 x10 x11 x12 x13 x14.
Definition set_AdditionalPropertiesType (v : option Schema) (s : Schema) : Schema :=
  let 'mkSchema x0 x1 x2 x3 x4 x5 _ x7 x8 x9 x10 x11 x12 x13 x14 := s in
  mkSchema x0 x1 x2 x3 x4 x5 v x7 x8 x9 x10 x11 x12 x13 x14.
Definition set_AdditionalTypes (v : list TypeDefinition) (s : Schema) : Schema :=
  let 'mkSchema x0 x1 x2 x3 x4 x5 x6 _ x8 x9 x10 x11 x12 x13 x14 := s in
  mkSchema x0 x1 x2 x3 x4 x5 x6 v x8 x9 x10 x11 x12 x13 x14.
Definition set_EmbeddedTypes (v : list string) (s : Schema) : Schema :=
  let 'mkSchema x0 x1 x2 x3 x4 x5 x6 x7 _ x9 x10 x11 x12 x13 x14 := s in
  mkSchema x0 x1 x2 x3 x4 x5 x6 x7 v x9 x10 x11 x12 x13 x14.
Definition set_SkipOptionalPointer (v : bool) (s : Schema) : Schema :=
  let 'mkSchema x0 x1 x2 x3 x4 x5 x6 x7 x8 _ x10 x11 x12 x13 x14 := s in
  mkSchema x0 x1 x2 x3 x4 x5 x6 x7 x8 v x10 x11 x12 x13 x14.
Definition set_UnionElements (v : list string) (s : Schema) : Schema :=
  let 'mkSchema x0 x1 x2 x3 x4 x5 x6 x7 x8 x9 x10 _ x12 x13 x14 := s in
  mkSchema x0 x1 x2 x3 x4 x5 x6 x7 x8 x9 x10 v x12 x13 x14.
Definition set_Discriminator_ (v : option Discriminator) (s : Schema) : Schema :=
  let 'mkSchema x0 x1 x2 x3 x4 x5 x6 x7 x8 x9 x10 x11 _ x13 x14 := s in
  mkSchema x0 x1 x2 x3 x4 x5 x6 x7 x8 x9 x10 x11 v x13 x14.
Definition set_DefineViaAlias (v : bool) (s : Schema) : Schema :=
  let 'mkSchema x0 x1 x2 x3 x4 x5 x6 x7 x8 x9 x10 x11 x12 _ x14 := s in
  mkSchema x0 x1 x2 x3 x4 x5 x6 x7 x8 x9 x10 x11 x12 v x14.
Definition set_OAPISchema (v : option openapi.Schema) (s : Schema) : Schema :=
  let 'mkSchema x0 x1 x2 x3 x4 x5 x6 x7 x8 x9 x10 x11 x12 x13 _ := s in
  mkSchema x0 x1 x2 x3 x4 x5 x6 x7 x8 x9 x10 x11 x12 x13 v.

Definition IsRef (s : Schema) : bool := negb (streq (RefType s) "").

Definition TypeDecl (s : Schema) : string :=
  if IsRef s then RefType s else GoType s.

Definition GetAdditionalTypeDefs (s : Schema) : list TypeDefinition :=
  AdditionalTypes s.

Definition PropertiesEqual (a b : Property) : bool :=
  streq (JsonFieldName a) (JsonFieldName b) &&
  streq (TypeDecl (P_Schema a)) (TypeDecl (P_Schema b)) &&
  eqb (Required a) (Required b).

(** [AddProperty]: the receiver after the call, or the collision error. *)
Definition AddProperty (s : Schema) (p : Property) : res Schema :=
  match
    find (fun e => streq (JsonFieldName e) (JsonFieldName p) &&
                   negb (PropertiesEqual e p)) (Properties s)
  with
  | Some e =>
      Err ("property '" +:+ JsonFieldName e +:+
           "' already exists with a different type")
  | None => Ok (set_Properties (Properties s ++ [p]) s)
  end.

Definition HasOptionalPointer (p : Property) : bool :=
  eqb (Required p) false && eqb (SkipOptionalPointer (P_Schema p)) false.

(* ===================================================================== *)
(** ** The environment of the compiler *)
(* ===================================================================== *)

(** The global options and the helpers of package [codegen] whose source
    files are not among the sources (they live in utils.go, codegen.go and
    merge_schemas_v1.go), plus the decoder of the YAML library.  Every
    definition and theorem below is parametric in them. *)
Record Env : Type := mkEnv {
  options : Configuration;
  RefPathToGoType : string -> res string;
  IsGoTypeReference : string -> bool;
  RefPathToObjName : string -> string;
  SchemaNameToTypeName : string -> string;
  PathToTypeName : list string -> string;
  SchemaHasAdditionalProperties : openapi.Schema -> bool;
  SortedSchemaKeys : option (list (string * openapi.SchemaRef)) -> list string;
  StringInArray : string -> list string -> bool;
  sliceContains : list string -> string -> bool;
  SanitizeEnumNames : list string -> list string -> list (string * string);
  StringWithTypeNameToGoComment : string -> string -> string;
  DeprecationComment : string -> string;
  SortedMapKeys : gmap string string -> list string;
  mergeSchemasV1 : list openapi.SchemaRef -> list string -> res Schema;
  yamlDecodeString : yaml.Node -> res string;
  yamlDecodeBool : yaml.Node -> res bool;
  yamlDecodeStrings : yaml.Node -> res (list string);
  yamlDecodeStringMap : yaml.Node -> res (gmap string string);
}.

(* ===================================================================== *)
(** ** Extensions (extension.go) *)
(* ===================================================================== *)

Definition extPropGoType := "x-go-type".
Definition extPropGoTypeSkipOptionalPointer := "x-go-type-skip-optional-pointer".
Definition extGoName := "x-go-name".
Definition extGoTypeName := "x-go-type-name".
Definition extPropGoJsonIgnore := "x-go-json-ignore".
Definition extPropOmitEmpty := "x-omitempty".
Definition extPropOmitZero := "x-omitzero".
Definition extPropExtraTags := "x-oapi-codegen-extra-tags".
Definition extEnumVarNames := "x-enum-varnames".
Definition extEnumNames := "x-enumNames".
Definition extDeprecationReason := "x-deprecated-reason".
Definition extOapiCodegenOnlyHonourGoName := "x-oapi-codegen-only-honour-go-name".

Section Extensions.
Context (E : Env).

Definition unsupported {A} (node : GoValue) (target : string) : res A :=
  Err ("unsupported type conversion from " +:+ fmt_T node +:+ " to " +:+ target).

(** [decodeYamlNode] at target [*string]. *)
Definition decodeYamlNode_string (node : GoValue) : res string :=
  match node with
  | VYaml n => yamlDecodeString E n
  | VString s => Ok s
  | _ => unsupported node "*string"
  end.

(** [decodeYamlNode] at target [*bool]. *)
Definition decodeYamlNode_bool (node : GoValue) : res bool :=
  match node with
  | VYaml n => yamlDecodeBool E n
  | VBool b => Ok b
  | _ => unsupported node "*bool"
  end.

Fixpoint sliceToStrings (l : list GoValue) : res (list string) :=
  match l with
  | [] => Ok []
  | VString s :: l' =>
      match sliceToStrings l' with
      | Ok r => Ok (s :: r)
      | other => other
      end
  | v :: _ => Err ("failed to convert slice element to string: " +:+ fmt_T v)
  end.

(** [decodeYamlNode] at target [*[]string]. *)
Definition decodeYamlNode_strings (node : GoValue) : res (list string) :=
  match node with
  | VYaml n => yamlDecodeStrings E n
  | VSlice l => sliceToStrings l
  | _ => unsupported node "*[]string"
  end.

Fixpoint mapToStrings (m : list (string * GoValue)) : res (gmap string string) :=
  match m with
  | [] => Ok ∅
  | (k, VString s) :: m' =>
      match mapToStrings m' with
      | Ok r => Ok (<[k := s]> r)
      | other => other
      end
  | (_, v) :: _ => Err ("failed to convert map value to string: " +:+ fmt_T v)
  end.

(** [decodeYamlNode] at target [*map[string]string]. *)
Definition decodeYamlNode_map (node : GoValue) : res (gmap string string) :=
  match node with
  | VYaml n => yamlDecodeStringMap E n
  | VMap m => mapToStrings m
  | _ => unsupported node "*map[string]string"
  end.

Definition extString := decodeYamlNode_string.
Definition extTypeName := extString.
Definition extParsePropGoTypeSkipOptionalPointer := decodeYamlNode_bool.
Definition extParseGoFieldName := extString.
Definition extParseOmitEmpty := decodeYamlNode_bool.
Definition extParseOmitZero := decodeYamlNode_bool.
Definition extExtraTags := decodeYamlNode_map.
Definition extParseGoJsonIgnore := decodeYamlNode_bool.
Definition extParseEnumVarNames := decodeYamlNode_strings.
Definition extParseDeprecationReason := extString.
Definition extParseOapiCodegenOnlyHonourGoName := decodeYamlNode_bool.

End Extensions.

(* ===================================================================== *)
(** ** Rendering of properties and structs (schema.go) *)
(* ===================================================================== *)

(** The line feed. *)
Definition nl : string := String (ascii_of_nat 10) EmptyString.

Definition stringOrEmpty (b : bool) (s : string) : string :=
  if b then s else "".

Section Rendering.
Context (E : Env).

Let compat := Compatibility (options E).
Let output := OutputOptions_ (options E).

Definition GoFieldName (p : Property) : string :=
  let goFieldName :=
    match P_Extensions p !! extGoName with
    | Some extension =>
        match extParseGoFieldName E extension with
        | Ok extGoFieldName => extGoFieldName
        | _ => JsonFieldName p
        end
    | None => JsonFieldName p
    end in
  let honour :=
    if AllowUnexportedStructFieldNames compat then
      match P_Extensions p !! extOapiCodegenOnlyHonourGoName with
      | Some extension =>
          match extParseOapiCodegenOnlyHonourGoName E extension with
          | Ok b => b
          | _ => false
          end
      | None => false
      end
    else false in
  if honour then goFieldName else SchemaNameToTypeName E goFieldName.

Definition GoTypeDef (p : Property) : string :=
  let typeDef := TypeDecl (P_Schema p) in
  if NullableType output && Nullable p then
    "nullable.Nullable[" +:+ typeDef +:+ "]"
  else if negb (SkipOptionalPointer (P_Schema p)) &&
          (negb (Required p) || Nullable p ||
           (ReadOnly p &&
            (negb (Required p) ||
             negb (DisableRequiredReadOnlyAsPointer compat))) ||
           WriteOnly p)
  then "*" +:+ typeDef
  else typeDef.

(** An extension that parses as a [bool], if present and well formed. *)
Definition extBool (exts : gmap string GoValue) (key : string) : option bool :=
  match exts !! key with
  | Some extension =>
      match decodeYamlNode_bool E extension with
      | Ok b => Some b
      | _ => None
      end
  | None => None
  end.

(** The text of field number [i] of [GenFieldsFromProperties]. *)
Definition GenField (i : nat) (p : Property) : string :=
  let goFieldName := GoFieldName p in
  let field := "" in
  let field :=
    if negb (streq (P_Description p) "") then
      (if negb (Nat.eqb i 0) then field +:+ nl else field) +:+
      StringWithTypeNameToGoComment E (P_Description p) (GoFieldName p) +:+ nl
    else field in
  let field :=
    if Deprecated p then
      let deprecationReason :=
        match P_Extensions p !! extDeprecationReason with
        | Some extension =>
            match extParseDeprecationReason E extension with
            | Ok r => r
            | _ => ""
            end
        | None => ""
        end in
      field +:+ DeprecationComment E deprecationReason +:+ nl
    else field in
  (* x-go-type-skip-optional-pointer overrides the flag of the local copy *)
  let p :=
    match extBool (P_Extensions p) extPropGoTypeSkipOptionalPointer with
    | Some skipOptionalPointer =>
        mkProperty (P_Description p) (JsonFieldName p)
          (set_SkipOptionalPointer skipOptionalPointer (P_Schema p))
          (Required p) (Nullable p) (ReadOnly p) (WriteOnly p)
          (NeedsFormTag p) (P_Extensions p) (Deprecated p)
    | None => p
    end in
  let field := field +:+ "    " +:+ goFieldName +:+ " " +:+ GoTypeDef p in
  let shouldOmitEmpty :=
    (negb (Required p) || ReadOnly p || WriteOnly p) &&
    (negb (Required p) || negb (ReadOnly p) ||
     negb (DisableRequiredReadOnlyAsPointer compat)) in
  let omitEmpty := negb (Nullable p) && shouldOmitEmpty in
  let omitEmpty :=
    if Nullable p && NullableType output then shouldOmitEmpty else omitEmpty in
  let omitZero :=
    shouldOmitEmpty && SkipOptionalPointer (P_Schema p) &&
    PreferSkipOptionalPointerWithOmitzero output in
  let omitEmpty :=
    default omitEmpty (extBool (P_Extensions p) extPropOmitEmpty) in
  let omitZero :=
    default omitZero (extBool (P_Extensions p) extPropOmitZero) in
  let fieldTags : gmap string string :=
    {[ "json" := JsonFieldName p +:+ stringOrEmpty omitEmpty ",omitempty"
                   +:+ stringOrEmpty omitZero ",omitzero" ]} in
  let fieldTags :=
    if EnableYamlTags output then
      <["yaml" := JsonFieldName p +:+ stringOrEmpty omitEmpty ",omitempty"]>
        fieldTags
    else fieldTags in
  let fieldTags :=
    if NeedsFormTag p then
      <["form" := JsonFieldName p +:+ stringOrEmpty omitEmpty ",omitempty"]>
        fieldTags
    else fieldTags in
  let fieldTags :=
    match extBool (P_Extensions p) extPropGoJsonIgnore with
    | Some true => <["json" := "-"]> fieldTags
    | _ => fieldTags
    end in
  let fieldTags :=
    match P_Extensions p !! extPropExtraTags with
    | Some extension =>
        match extExtraTags E extension with
        | Ok tags =>
            fold_left (fun acc k => <[k := default "" (tags !! k)]> acc)
                      (SortedMapKeys E tags) fieldTags
        | _ => fieldTags
        end
    | None => fieldTags
    end in
  let keys := SortedMapKeys E fieldTags in
  let tags :=
    map (fun k => k +:+ ":" +:+ fmt_q (default "" (fieldTags !! k))) keys in
  field +:+ "`" +:+ strings.Join tags " " +:+ "`".

Fixpoint GenFieldsFrom (i : nat) (props : list Property) : list string :=
  match props with
  | [] => []
  | p :: props' => GenField i p :: GenFieldsFrom (S i) props'
  end.

Definition GenFieldsFromProperties (props : list Property) : list string :=
  GenFieldsFrom 0 props.

(** [additionalPropertiesType]; the pointer is nil on a schema that was
    given no element type. *)
Definition additionalPropertiesType (schema : Schema) : M string :=
  match AdditionalPropertiesType schema with
  | None => panic
  | Some apt =>
      ret (if negb (streq (RefType apt) "") then RefType apt else GoType apt)
  end.

Definition GenStructFromSchema (schema : Schema) : M string :=
  let objectParts := ["struct {"] in
  let objectParts :=
    objectParts ++ map (fun embeddedType => "    " +:+ embeddedType)
                       (EmbeddedTypes schema) in
  let objectParts :=
    objectParts ++ GenFieldsFromProperties (Properties schema) in
  let close (objectParts : list string) :=
    let objectParts :=
      if negb (Nat.eqb (length (UnionElements schema)) 0)
      then objectParts ++ ["union json.RawMessage"] else objectParts in
    ret (strings.Join (objectParts ++ ["}"]) nl) in
  if HasAdditionalProperties schema then
    let* t := additionalPropertiesType schema in
    close (objectParts ++
           ["AdditionalProperties map[string]" +:+ t +:+ " `json:" +:+
            fmt_q "-" +:+ "`"])
  else close objectParts.

(** [setSkipOptionalPointerForContainerType]. *)
Definition setSkipOptionalPointerForContainerType (outSchema : Schema) : Schema :=
  if negb (PreferSkipOptionalPointerOnContainerTypes output) then outSchema
  else set_SkipOptionalPointer true outSchema.

End Rendering.

(* ===================================================================== *)
(** ** Merging of openapi schemas (merge_schemas.go) *)
(* ===================================================================== *)

Module omap.
(** The ordered map of properties: [Set] replaces the value of an existing
    key in place and appends a new key. *)
Fixpoint Set_ {A} (k : string) (v : A) (m : list (string * A)) : list (string * A) :=
  match m with
  | [] => [(k, v)]
  | (k', v') :: m' =>
      if streq k' k then (k', v) :: m' else (k', v') :: Set_ k v m'
  end.

(** The first pair with key [k], as the scanning loops find it. *)
Fixpoint Find {A} (k : string) (m : list (string * A)) : option A :=
  match m with
  | [] => None
  | (k', v') :: m' => if streq k' k then Some v' else Find k m'
  end.

Definition Keys {A} (m : list (string * A)) : list string := map fst m.
End omap.

Section Merge.

(** [len(v.Schema().Enum)] of a property value, 0 when it has no schema. *)
Definition enumCount (v : openapi.SchemaRef) : nat :=
  match openapi.Value v with
  | Some s => length (openapi.Enum s)
  | None => 0
  end.

(** [Type != nil && len(Type) > 0 && Type[0] == t]. *)
Definition firstTypeIs (s : openapi.Schema) (t : string) : bool :=
  match openapi.Type_ s with
  | t0 :: _ => streq t0 t
  | [] => false
  end.

(** The conflict policy of [mergeOpenapiSchemas] for a property that both
    schemas declare: whether the later value replaces the earlier one. *)
Definition shouldReplaceExisting (existingVal newVal : openapi.SchemaRef) : bool :=
  let existingEnumCount := enumCount existingVal in
  let newEnumCount := enumCount newVal in
  let byEnum := negb (Nat.eqb newEnumCount 0) && Nat.eqb existingEnumCount 0 in
  let byArray :=
    match openapi.Value existingVal, openapi.Value newVal with
    | Some existingSchema, Some newSchema =>
        let existingIsObject := firstTypeIs existingSchema "object" in
        let newIsArray :=
          firstTypeIs newSchema "array" &&
          bool_decide (openapi.Items newSchema <> None) in
        existingIsObject && newIsArray
    | _, _ => false
    end in
  byEnum || byArray.

(** One turn of the loop over the properties of [s2]. *)
Definition mergeProperty (result : list (string * openapi.SchemaRef))
    (pair : string * openapi.SchemaRef) : list (string * openapi.SchemaRef) :=
  let '(propertyName, newVal) := pair in
  match omap.Find propertyName result with
  | Some existingVal =>
      if shouldReplaceExisting existingVal newVal
      then omap.Set_ propertyName newVal result
      else result
  | None => omap.Set_ propertyName newVal result
  end.

Definition mergeProperties (p1 p2 : list (string * openapi.SchemaRef))
  : list (string * openapi.SchemaRef) :=
  fold_left mergeProperty p2 p1.

(** The distinct strings of [l], first occurrences first. *)
Fixpoint dedup (seen l : list string) : list string :=
  match l with
  | [] => []
  | x :: l' =>
      if stringInSlice x seen then dedup seen l' else x :: dedup (x :: seen) l'
  end.

(** [mergeOpenapiSchemas].  It has no failing path: the error is always nil.
    The keys of [requiredMap] are listed in first-occurrence order here, Go
    lists them in an unspecified order. *)
Definition mergeOpenapiSchemas (s1 s2 : openapi.Schema) (allOf : bool)
  : res openapi.Schema :=
  let result := s1 in
  let s1Props := openapi.PropertiesToMap s1 in
  let s2Props := openapi.PropertiesToMap s2 in
  let result :=
    match s1Props, s2Props with
    | _, None => result
    | None, Some _ => openapi.set_Properties (openapi.Properties s2) result
    | Some p1, Some p2 =>
        openapi.set_Properties (Some (mergeProperties p1 p2)) result
    end in
  let result :=
    match openapi.Required s1, openapi.Required s2 with
    | [], [] => result
    | r1, r2 => openapi.set_Required (dedup [] (r1 ++ r2)) result
    end in
  Ok result.

(** [valueWithPropagatedRef].  [PropertiesToMap] hands out fresh [SchemaRef]
    cells, so the assignments to [value.Ref] in the loop over a remote
    schema's properties do not reach the copy that is returned. *)
Definition valueWithPropagatedRef (ref : openapi.SchemaRef)
  : M (option openapi.Schema) :=
  if Nat.eqb (String.length (openapi.Ref ref)) 0 ||
     firstByteIs (openapi.Ref ref) "#"
  then ret (openapi.Value ref)
  else
    let parts := S (strings.count (openapi.Ref ref) "#") in
    if (parts <? 1)%nat || (2 <? parts)%nat
    then fail ("unsupported reference: " +:+ openapi.Ref ref)
    else
      match openapi.Value ref with
      | None => panic
      | Some schema => ret (Some schema)
      end.

(** [mergeAllOf]. *)
Fixpoint mergeAllOf_from (schema : openapi.Schema)
    (allOf : list openapi.SchemaRef) : M openapi.Schema :=
  match allOf with
  | [] => ret schema
  | schemaRef :: rest =>
      match openapi.Value schemaRef with
      | None => panic
      | Some v =>
          let* schema' :=
            wrapErr "error merging schemas for AllOf"
                    (lift (mergeOpenapiSchemas schema v true)) in
          mergeAllOf_from schema' rest
      end
  end.

Definition mergeAllOf (allOf : list openapi.SchemaRef) : M openapi.Schema :=
  mergeAllOf_from openapi.Schema_zero allOf.

End Merge.

(* ===================================================================== *)
(** ** The schema-to-type compiler (schema.go, merge_schemas.go) *)
(* ===================================================================== *)

Section Compiler.
Context (E : Env).

Let compat := Compatibility (options E).
Let output := OutputOptions_ (options E).

(** The type of [GenerateGoSchema]; the functions below receive the compiler
    they call back as [gen]. *)
Definition Gen : Type := option openapi.SchemaRef -> list string -> M Schema.

(** [fmt.Errorf("invalid value for %q: %w", key, err)]. *)
Definition invalidValue (key err : string) : string :=
  "invalid value for " +:+ fmt_q key +:+ ": " +:+ err.

(** *** [oapiSchemaToGoType] *)

(** What the handling of a type array decides. *)
Inductive TypeArrayStep : Type :=
| Return_ (outSchema : Schema)                       (* [return nil] *)
| FallThrough (t : list string) (schema : openapi.Schema).

Definition hasString (nonNullTypes : list string) : bool :=
  existsb (fun t => streq t "string") nonNullTypes.
Definition hasNumber (nonNullTypes : list string) : bool :=
  existsb (fun t => streq t "number" || streq t "integer") nonNullTypes.

(** The block guarded by [len(typeSlice) >= 1]. *)
Definition typeArrayStep (schema : openapi.Schema) (outSchema : Schema)
  : TypeArrayStep :=
  let t := openapi.Type_ schema in
  let typeSlice := openapi.TypeSlice schema in
  if (1 <=? length typeSlice)%nat then
    let hasNull := existsb (fun t => streq t "null") typeSlice in
    let nonNullTypes := List.filter (fun t => negb (streq t "null")) typeSlice in
    if hasNull && Nat.eqb (length nonNullTypes) 0 then
      Return_ (set_DefineViaAlias true (set_GoType "interface{}" outSchema))
    else if hasNull && Nat.eqb (length nonNullTypes) 1 then
      FallThrough (firstn 1 nonNullTypes) (openapi.set_Nullable true schema)
    else if negb hasNull && Nat.eqb (length nonNullTypes) 1 then
      FallThrough (firstn 1 nonNullTypes) schema
    else if Nat.eqb (length nonNullTypes) 2 &&
            hasString nonNullTypes && hasNumber nonNullTypes then
      Return_ (set_DefineViaAlias true (set_GoType "float32" outSchema))
    else
      Return_ (set_DefineViaAlias true (set_GoType "interface{}" outSchema))
  else FallThrough t schema.

Definition integerFormats : list string :=
  ["int64"; "int32"; "int16"; "int8"; "int";
   "uint64"; "uint32"; "uint16"; "uint8"; "uint"].

Definition stringFormatType (outSchema : Schema) (f : string) : Schema :=
  if streq f "byte" then
    setSkipOptionalPointerForContainerType E (set_GoType "[]byte" outSchema)
  else if streq f "email" then set_GoType "openapi_types.Email" outSchema
  else if streq f "date" then set_GoType "openapi_types.Date" outSchema
  else if streq f "date-time" then set_GoType "time.Time" outSchema
  else if streq f "json" then
    set_SkipOptionalPointer true (set_GoType "json.RawMessage" outSchema)
  else if streq f "uuid" then set_GoType "openapi_types.UUID" outSchema
  else if streq f "binary" then set_GoType "openapi_types.File" outSchema
  else set_GoType "string" outSchema.

(** A compiled element that needs a name of its own gets the one made of
    [namePath]: the type definition holds the element as compiled, the
    element then carries the definition and refers to the name.  Used for
    array items and for properties. *)
Definition nameAuxiliary (namePath : list string) (s : Schema) : Schema :=
  if (HasAdditionalProperties s || negb (Nat.eqb (length (UnionElements s)) 0))
     && streq (RefType s) ""
  then
    let typeName := PathToTypeName E namePath in
    let typeDef := mkTypeDefinition typeName (strings.Join namePath ".") s in
    set_RefType typeName (set_AdditionalTypes (AdditionalTypes s ++ [typeDef]) s)
  else s.

(** The chain of [schema.TypeIs(...)] tests. *)
Definition primitiveStep (gen : Gen) (schema : openapi.Schema)
    (t : list string) (path : list string) (outSchema : Schema) : M Schema :=
  let f := openapi.Format schema in
  if openapi.TypeIs schema "array" then
    let* arrayType :=
      wrapErr "error generating type for array"
              (gen (openapi.Items schema) (path ++ ["Item"])) in
    let arrayType := nameAuxiliary (path ++ ["Item"]) arrayType in
    let outSchema := set_ArrayType (Some arrayType) outSchema in
    let outSchema := set_GoType ("[]" +:+ TypeDecl arrayType) outSchema in
    let outSchema := set_AdditionalTypes (AdditionalTypes arrayType) outSchema in
    let outSchema := set_Properties (Properties arrayType) outSchema in
    let outSchema := set_DefineViaAlias true outSchema in
    let outSchema :=
      if sliceContains E (DisableTypeAliasesForType output) "array"
      then set_DefineViaAlias false outSchema else outSchema in
    ret (setSkipOptionalPointerForContainerType E outSchema)
  else if openapi.TypeIs schema "integer" then
    let outSchema :=
      if stringInSlice f integerFormats
      then set_GoType f outSchema else set_GoType "int" outSchema in
    ret (set_DefineViaAlias true outSchema)
  else if openapi.TypeIs schema "number" then
    if streq f "double" then
      ret (set_DefineViaAlias true (set_GoType "float64" outSchema))
    else if streq f "float" || streq f "" then
      ret (set_DefineViaAlias true (set_GoType "float32" outSchema))
    else fail ("invalid number format: " +:+ f)
  else if openapi.TypeIs schema "boolean" then
    if negb (streq f "") then fail ("invalid format (" +:+ f +:+ ") for boolean")
    else ret (set_DefineViaAlias true (set_GoType "bool" outSchema))
  else if openapi.TypeIs schema "string" then
    ret (set_DefineViaAlias true (stringFormatType outSchema f))
  else fail ("unhandled Schema type: " +:+ fmt_v_strings t).

(** [oapiSchemaToGoType]: the schema node after the call (the call may set
    its [Nullable]) and, unless the budget ran out, the error or the
    descriptor [outSchema] has become. *)
Definition oapiSchemaToGoType (gen : Gen) (schema : openapi.Schema)
    (path : list string) (outSchema : Schema) : openapi.Schema * M Schema :=
  match typeArrayStep schema outSchema with
  | Return_ outSchema' => (schema, ret outSchema')
  | FallThrough t schema' => (schema', primitiveStep gen schema' t path outSchema)
  end.

(** *** [generateUnion] *)

(** The suffix that tells apart two inline variants of one synthesized name. *)
Definition variantSuffix (elementSchema : Schema) (i : nat) : string :=
  if bool_decide (ArrayType elementSchema <> None) then "Array"
  else if negb (Nat.eqb (size (EnumValues elementSchema)) 0) then "Enum"
  else if streq (GoType elementSchema) "string" then "String"
  else if streq (GoType elementSchema) "int" ||
          streq (GoType elementSchema) "int32" ||
          streq (GoType elementSchema) "int64" then "Int"
  else if streq (GoType elementSchema) "bool" then "Bool"
  else "Variant" +:+ fmt_d i.

(** The explicit mapping loop: the first key, in iteration order, whose
    target is [ref]. *)
Fixpoint explicitKey (mapping : list (string * string)) (ref : string)
  : option string :=
  match mapping with
  | [] => None
  | (k, v) :: mapping' => if streq v ref then Some k else explicitKey mapping' ref
  end.

(** [outSchema.Discriminator.Mapping[k] = goType]. *)
Definition setMapping (k goType : string) (outSchema : Schema) : M Schema :=
  match Discriminator_ outSchema with
  | None => panic
  | Some d =>
      ret (set_Discriminator_
            (Some (mkDiscriminator (<[k := goType]> (D_Mapping d)) (D_Property d)))
            outSchema)
  end.

Definition errAmbiguousMapping : string :=
  "ambiguous discriminator.mapping: please replace inlined object with $ref".
Definition errNotAllMapped : string :=
  "discriminator: not all schemas were mapped".

(** The step of the loop that names an inline variant and registers its
    type definition; a reference variant changes nothing here (the map
    [refToGoTypeMap] it is entered in is never read).  It gives the element
    schema, the used type names and the descriptor after the step. *)
Definition nameVariant (elementPath : list string) (i : nat)
    (element : openapi.SchemaRef) (elementSchema : Schema)
    (usedTypeNames : gset string) (outSchema : Schema)
  : Schema * gset string * Schema :=
  if streq (openapi.Ref element) "" then
    let elementName :=
      SchemaNameToTypeName E (PathToTypeName E elementPath) in
    let elementName :=
      if bool_decide (elementName ∈ usedTypeNames)
      then elementName +:+ variantSuffix elementSchema i
      else elementName in
    let usedTypeNames := {[ elementName ]} ∪ usedTypeNames in
    let outSchema :=
      if streq (TypeDecl elementSchema) elementName then outSchema
      else
        set_AdditionalTypes
          (AdditionalTypes outSchema ++
           [mkTypeDefinition elementName "" elementSchema])
          outSchema in
    let elementSchema' := set_GoType elementName elementSchema in
    let outSchema :=
      set_AdditionalTypes
        (AdditionalTypes outSchema ++ AdditionalTypes elementSchema')
        outSchema in
    (elementSchema', usedTypeNames, outSchema)
  else (elementSchema, usedTypeNames, outSchema).

(** The body of the loop over [elements], from index [i] on, with the
    descriptor and the set of used type names as they then are. *)
Fixpoint generateUnion_loop (gen : Gen)
    (discriminator : option openapi.Discriminator) (path : list string)
    (i : nat) (elements : list openapi.SchemaRef)
    (usedTypeNames : gset string) (outSchema : Schema) : M Schema :=
  match elements with
  | [] => ret outSchema
  | element :: rest =>
      let elementPath := path ++ [fmt_d i] in
      let* elementSchema := gen (Some element) elementPath in
      let '(elementSchema, usedTypeNames, outSchema) :=
        nameVariant elementPath i element elementSchema usedTypeNames
                    outSchema in
      let* outSchema :=
        match discriminator with
        | Some d =>
            if negb (Nat.eqb (length (openapi.MappingToMap d)) 0) &&
               streq (openapi.Ref element) ""
            then fail errAmbiguousMapping
            else
              match explicitKey (openapi.MappingToMap d) (openapi.Ref element) with
              | Some k => setMapping k (GoType elementSchema) outSchema
              | None =>
                  setMapping (RefPathToObjName E (openapi.Ref element))
                             (GoType elementSchema) outSchema
              end
        | None => ret outSchema
        end in
      let elementType := GoType elementSchema in
      let outSchema :=
        if stringInSlice elementType (UnionElements outSchema) then outSchema
        else set_UnionElements (UnionElements outSchema ++ [elementType]) outSchema in
      generateUnion_loop gen discriminator path (S i) rest usedTypeNames outSchema
  end.

(** [generateUnion]: the descriptor [outSchema] has become, or the error. *)
Definition generateUnion (gen : Gen) (outSchema : Schema)
    (elements : list openapi.SchemaRef)
    (discriminator : option openapi.Discriminator) (path : list string)
  : M Schema :=
  let outSchema :=
    match discriminator with
    | Some d =>
        set_Discriminator_
          (Some (mkDiscriminator ∅ (openapi.PropertyName d))) outSchema
    | None => outSchema
    end in
  let* outSchema :=
    generateUnion_loop gen discriminator path 0 elements ∅ outSchema in
  match Discriminator_ outSchema with
  | Some d =>
      if negb (Nat.eqb (size (D_Mapping d)) (length elements))
      then fail errNotAllMapped
      else ret outSchema
  | None => ret outSchema
  end.

(** *** [mergeSchemas], [MergeSchemas] *)

(** The loop [for i := 1; i < n; i++] of [mergeSchemas]. *)
Fixpoint mergeSchemas_loop (schema : option openapi.Schema)
    (rest : list openapi.SchemaRef) : M (option openapi.Schema) :=
  match rest with
  | [] => ret schema
  | ref :: rest' =>
      let* oneOfSchema := valueWithPropagatedRef ref in
      match schema, oneOfSchema with
      | Some s1, Some s2 =>
          let* mergedSchema :=
            wrapErr "error merging schemas for AllOf"
                    (lift (mergeOpenapiSchemas s1 s2 true)) in
          mergeSchemas_loop (Some mergedSchema) rest'
      | _, _ => panic
      end
  end.

Definition mergeSchemas (gen : Gen) (allOf : list openapi.SchemaRef)
    (path : list string) : M Schema :=
  match allOf with
  | [] => fail "no schemas to merge in allOf"
  | [only] => gen (Some only) path
  | first :: rest =>
      let* schema := valueWithPropagatedRef first in
      let* schema := mergeSchemas_loop schema rest in
      gen (Some (openapi.NewSchemaRef "" schema)) path
  end.

Definition MergeSchemas (gen : Gen) (allOf : list openapi.SchemaRef)
    (path : list string) : M Schema :=
  if OldMergeSchemas compat then lift (mergeSchemasV1 E allOf path)
  else mergeSchemas gen allOf path.

(** *** [GenerateGoSchema] *)

(** The scan of the allOf list: [hasOnlyRefsAndSimpleInline] and the number
    of references counted before the scan stops. *)
Fixpoint scanAllOf (allOfRefs : list openapi.SchemaRef) (refCount : nat)
  : bool * nat :=
  match allOfRefs with
  | [] => (true, refCount)
  | schemaRef :: rest =>
      if negb (streq (openapi.Ref schemaRef) "") then scanAllOf rest (S refCount)
      else
        match openapi.Value schemaRef with
        | Some v =>
            if (0 <? length (default [] (openapi.AllOf v)))%nat ||
               (0 <? length (default [] (openapi.OneOf v)))%nat ||
               (0 <? length (default [] (openapi.AnyOf v)))%nat
            then (false, refCount)
            else scanAllOf rest refCount
        | None => scanAllOf rest refCount
        end
  end.

(** The loop that builds the struct of embedded types. *)
Fixpoint embedAllOf (gen : Gen) (path : list string)
    (allOfRefs : list openapi.SchemaRef) (resultSchema : Schema) : M Schema :=
  match allOfRefs with
  | [] => ret resultSchema
  | schemaRef :: rest =>
      if negb (streq (openapi.Ref schemaRef) "") then
        let* refTypeName :=
          wrapErr "error converting ref path to go type"
                  (lift (RefPathToGoType E (openapi.Ref schemaRef))) in
        let resultSchema :=
          set_EmbeddedTypes (EmbeddedTypes resultSchema ++ [refTypeName])
                            resultSchema in
        let* referencedSchema :=
          wrapErr "error generating referenced schema in allOf"
                  (gen (Some schemaRef) path) in
        embedAllOf gen path rest
          (set_AdditionalTypes
             (AdditionalTypes resultSchema ++ AdditionalTypes referencedSchema)
             resultSchema)
      else
        let* inlineSchema :=
          wrapErr "error generating inline schema in allOf"
                  (gen (Some schemaRef) path) in
        let resultSchema :=
          set_Properties (Properties resultSchema ++ Properties inlineSchema)
                         resultSchema in
        embedAllOf gen path rest
          (set_AdditionalTypes
             (AdditionalTypes resultSchema ++ AdditionalTypes inlineSchema)
             resultSchema)
  end.

(** The loop over the sorted property names of an object. *)
Fixpoint compileProperties (gen : Gen) (schema : openapi.Schema)
    (path : list string) (names : list string) (outSchema : Schema) : M Schema :=
  match names with
  | [] => ret outSchema
  | pName :: rest =>
      let p := openapi.props_get (openapi.PropertiesToMap schema) pName in
      let propertyPath := path ++ [pName] in
      let* pSchema :=
        wrapErr ("error generating Go schema for property '" +:+ pName +:+ "'")
                (gen p propertyPath) in
      let required := StringInArray E pName (openapi.Required schema) in
      let pSchema := nameAuxiliary propertyPath pSchema in
      match p with
      | None => panic
      | Some p =>
          match openapi.Value p with
          | None => panic
          | Some v =>
              let prop :=
                mkProperty (openapi.Description v) pName pSchema required
                  (openapi.Nullable v) (openapi.IsReadOnly v)
                  (openapi.IsWriteOnly v) false (openapi.Extensions v)
                  (openapi.IsDeprecated v) in
              let outSchema :=
                set_Properties (Properties outSchema ++ [prop]) outSchema in
              let outSchema :=
                set_AdditionalTypes
                  (AdditionalTypes outSchema ++ AdditionalTypes pSchema)
                  outSchema in
              compileProperties gen schema path rest outSchema
          end
      end
  end.

(** [fmt.Sprintf("%v", enumValue)] is how [Enum] stores a literal; the
    table of names to literals of the enum branch. *)
Definition enumTable (schema : openapi.Schema) (path : list string)
  : gmap string string :=
  let enumValues := openapi.Enum schema in
  let enumNames :=
    let try key :=
      match openapi.Extensions schema !! key with
      | Some extension =>
          match extParseEnumVarNames E extension with
          | Ok names => Some names
          | _ => None
          end
      | None => None
      end in
    match try extEnumVarNames with
    | Some names => names
    | None => default enumValues (try extEnumNames)
    end in
  let sanitizedValues := SanitizeEnumNames E enumNames enumValues in
  fold_left
    (fun acc kv =>
       let '(k, v) := kv in
       let enumName := if streq v "" then "Empty" else k in
       if OldEnumConflicts compat then
         <[SchemaNameToTypeName E (PathToTypeName E (path ++ [enumName])) := v]> acc
       else <[SchemaNameToTypeName E k := v]> acc)
    sanitizedValues ∅.

(** The allOf branch. *)
Definition compileAllOf (gen : Gen) (schema : openapi.Schema)
    (allOfRefs : list openapi.SchemaRef) (path : list string) : M Schema :=
  let '(hasOnlyRefsAndSimpleInline, refCount) := scanAllOf allOfRefs 0 in
  let isTopLevelSchema := (length path <=? 1)%nat in
  if hasOnlyRefsAndSimpleInline && (0 <? refCount)%nat && isTopLevelSchema then
    let resultSchema :=
      set_OAPISchema (Some schema)
        (mkSchema "struct" "" None ∅ [] false None [] [] false
                  (openapi.Description schema) [] None false None) in
    let* resultSchema := embedAllOf gen path allOfRefs resultSchema in
    if (0 <? length (EmbeddedTypes resultSchema))%nat ||
       (0 <? length (Properties resultSchema))%nat
    then
      let* goType := GenStructFromSchema E resultSchema in
      ret (set_GoType goType resultSchema)
    else ret resultSchema
  else
    let* mergedSchema :=
      wrapErr "error merging schemas" (MergeSchemas gen allOfRefs path) in
    ret (set_OAPISchema (Some schema) mergedSchema).

(** The [x-go-type-name] step that ends the object branch. *)
Definition applyGoTypeName (schema : openapi.Schema) (outSchema : Schema)
  : M Schema :=
  match openapi.Extensions schema !! extGoTypeName with
  | Some extension =>
      match extTypeName E extension with
      | Ok typeName =>
          let newTypeDef := mkTypeDefinition typeName "" outSchema in
          ret (mkSchema typeName "" None ∅ [] false None
                        (AdditionalTypes outSchema ++ [newTypeDef]) [] false
                        (Description (TD_Schema newTypeDef)) [] None true None)
      | Err e => fail (invalidValue extGoTypeName e)
      end
  | None => ret outSchema
  end.

(** The branch of objects and of schemas without a type. *)
Definition compileObject (gen : Gen) (schema : openapi.Schema)
    (path : list string) (outSchema : Schema) : M Schema :=
  if Nat.eqb (openapi.props_len (openapi.PropertiesToMap schema)) 0 &&
     negb (SchemaHasAdditionalProperties E schema) &&
     bool_decide (openapi.AnyOf schema = None) &&
     bool_decide (openapi.OneOf schema = None)
  then
    let outSchema :=
      if openapi.TypeIs schema "object" then
        set_GoType "map[string]interface{}"
          (setSkipOptionalPointerForContainerType E outSchema)
      else
        set_GoType "interface{}" (set_SkipOptionalPointer true outSchema) in
    applyGoTypeName schema (set_DefineViaAlias true outSchema)
  else
    let outSchema := set_DefineViaAlias false outSchema in
    let outSchema :=
      set_HasAdditionalProperties (SchemaHasAdditionalProperties E schema)
                                  outSchema in
    let outSchema :=
      set_AdditionalPropertiesType
        (Some (set_GoType "interface{}" Schema_zero)) outSchema in
    let* outSchema :=
      match openapi.AdditionalProperties_Schema schema with
      | Some apSchema =>
          let* additionalSchema :=
            wrapErr "error generating type for additional properties"
                    (gen (Some apSchema) path) in
          let additionalSchema :=
            if HasAdditionalProperties additionalSchema ||
               negb (Nat.eqb (length (UnionElements additionalSchema)) 0)
            then
              let typeName := PathToTypeName E (path ++ ["AdditionalProperties"]) in
              let typeDef :=
                mkTypeDefinition typeName
                  (strings.Join (path ++ ["AdditionalProperties"]) ".")
                  additionalSchema in
              set_AdditionalTypes (AdditionalTypes additionalSchema ++ [typeDef])
                                  (set_RefType typeName additionalSchema)
            else additionalSchema in
          ret (set_AdditionalTypes
                 (AdditionalTypes outSchema ++ AdditionalTypes additionalSchema)
                 (set_AdditionalPropertiesType (Some additionalSchema) outSchema))
      | None => ret outSchema
      end in
    if negb (DisableFlattenAdditionalProperties compat) &&
       Nat.eqb (openapi.props_len (openapi.PropertiesToMap schema)) 0 &&
       bool_decide (openapi.AnyOf schema = None) &&
       bool_decide (openapi.OneOf schema = None)
    then
      let outSchema := set_HasAdditionalProperties false outSchema in
      let* elemType := additionalPropertiesType outSchema in
      ret (setSkipOptionalPointerForContainerType E
             (set_GoType ("map[string]" +:+ elemType) outSchema))
    else
      let* outSchema :=
        compileProperties gen schema path
          (SortedSchemaKeys E (openapi.PropertiesToMap schema)) outSchema in
      let* outSchema :=
        match openapi.AnyOf schema with
        | Some anyOf =>
            wrapErr "error generating type for anyOf"
              (generateUnion gen outSchema anyOf (openapi.Discriminator_ schema) path)
        | None => ret outSchema
        end in
      let* outSchema :=
        match openapi.OneOf schema with
        | Some oneOf =>
            wrapErr "error generating type for oneOf"
              (generateUnion gen outSchema oneOf (openapi.Discriminator_ schema) path)
        | None => ret outSchema
        end in
      let* goType := GenStructFromSchema E outSchema in
      applyGoTypeName schema (set_GoType goType outSchema).

(** The enum branch. *)
Definition compileEnum (gen : Gen) (schema : openapi.Schema)
    (path : list string) (outSchema : Schema) : M Schema :=
  let '(schema, r) := oapiSchemaToGoType gen schema path outSchema in
  let* outSchema := wrapErr "error resolving primitive type" r in
  let outSchema := set_OAPISchema (Some schema) outSchema in
  let outSchema := set_DefineViaAlias false outSchema in
  let outSchema := set_EnumValues (enumTable schema path) outSchema in
  if (1 <? length path)%nat then
    let* typeName :=
      match openapi.Extensions schema !! extGoTypeName with
      | Some extension =>
          match extString E extension with
          | Ok typeName => ret typeName
          | Err e => fail (invalidValue extGoTypeName e)
          end
      | None => ret (SchemaNameToTypeName E (PathToTypeName E path))
      end in
    let typeDef := mkTypeDefinition typeName (strings.Join path ".") outSchema in
    ret (set_RefType typeName
           (set_AdditionalTypes (AdditionalTypes outSchema ++ [typeDef]) outSchema))
  else ret outSchema.

(** The value of [skipOptionalPointer]: the global default, or what the
    [x-go-type-skip-optional-pointer] extension says. *)
Definition skipOptionalPointerOf (schema : openapi.Schema) : res bool :=
  match openapi.Extensions schema !! extPropGoTypeSkipOptionalPointer with
  | Some extension =>
      match extParsePropGoTypeSkipOptionalPointer E extension with
      | Ok b => Ok b
      | Err e => Err (invalidValue extPropGoTypeSkipOptionalPointer e)
      end
  | None => Ok (PreferSkipOptionalPointer output)
  end.

(** One activation of [GenerateGoSchema], calling [gen] where the source
    calls itself. *)
Definition GenerateGoSchema_body (gen : Gen) (sref : option openapi.SchemaRef)
    (path : list string) : M Schema :=
  match sref with
  | None => ret (set_GoType "interface{}" Schema_zero)
  | Some sref =>
      match openapi.Value sref with
      | None =>
          if negb (streq (openapi.Ref sref) "") then
            match RefPathToGoType E (openapi.Ref sref) with
            | Ok refType => ret (set_RefType refType (set_GoType refType Schema_zero))
            | Err _ =>
                ret (set_RefType "interface{}" (set_GoType "interface{}" Schema_zero))
            end
          else ret (set_RefType "interface{}" (set_GoType "interface{}" Schema_zero))
      | Some schema =>
          let* skipOptionalPointer := lift (skipOptionalPointerOf schema) in
          if IsGoTypeReference E (openapi.Ref sref) then
            match RefPathToGoType E (openapi.Ref sref) with
            | Err e =>
                fail ("error turning reference (" +:+ openapi.Ref sref +:+
                      ") into a Go type: " +:+ e)
            | Ok refType =>
                let isComponentRef :=
                  strings.Contains (openapi.Ref sref) "#/components/schemas/" in
                let isDefiningComponentSchema :=
                  isComponentRef && (0 <? length path)%nat &&
                  let refName :=
                    strings.TrimPrefix (openapi.Ref sref) "#/components/schemas/" in
                  match path with
                  | [p0] => streq p0 refName
                  | _ => false
                  end in
                ret (mkSchema refType refType None ∅ [] false None [] []
                              skipOptionalPointer (openapi.Description schema)
                              [] None (negb isDefiningComponentSchema)
                              (Some schema))
            end
          else
            let outSchema :=
              mkSchema "" "" None ∅ [] false None [] [] skipOptionalPointer
                       (openapi.Description schema) [] None false (Some schema) in
            match openapi.AllOf schema with
            | Some allOfRefs => compileAllOf gen schema allOfRefs path
            | None =>
                match openapi.Extensions schema !! extPropGoType with
                | Some extension =>
                    match extTypeName E extension with
                    | Ok typeName =>
                        ret (set_DefineViaAlias true (set_GoType typeName outSchema))
                    | Err e => fail (invalidValue extPropGoType e)
                    end
                | None =>
                    let t := openapi.TypeSlice schema in
                    if Nat.eqb (length t) 0 || openapi.TypeIs schema "object" then
                      compileObject gen schema path outSchema
                    else if (0 <? length (openapi.Enum schema))%nat then
                      compileEnum gen schema path outSchema
                    else
                      let '(schema', r) :=
                        oapiSchemaToGoType gen schema path outSchema in
                      let* outSchema := wrapErr "error resolving primitive type" r in
                      ret (set_OAPISchema (Some schema') outSchema)
                end
            end
      end
  end.

(** [GenerateGoSchema], with a bound on the depth of nested activations. *)
Fixpoint GenerateGoSchema (depth : nat) (sref : option openapi.SchemaRef)
    (path : list string) : M Schema :=
  match depth with
  | 0 => Exhausted
  | S depth' => GenerateGoSchema_body (GenerateGoSchema depth') sref path
  end.

End Compiler.

(* ===================================================================== *)
(** ** A sample environment *)
(* ===================================================================== *)

(** Stand-ins for the helpers of [Env], used by the examples: references
    to [#/components/schemas/X] name the Go type [X], every non-empty
    reference is a Go type reference, names are kept as they are, and all
    options are off. *)
Module Sample.

Definition componentPrefix : string := "#/components/schemas/".

Definition allOff : Configuration :=
  mkConfiguration
    (mkCompatibilityOptions false false false false false false)
    (mkOutputOptions false false false false false []).

Definition refToGoType (ref : string) : res string :=
  if strings.HasPrefix ref componentPrefix
  then Ok (strings.TrimPrefix ref componentPrefix)
  else Err ("unsupported reference: " +:+ ref).

Definition hasAdditionalProperties (s : openapi.Schema) : bool :=
  openapi.AdditionalProperties_Has s ||
  bool_decide (openapi.AdditionalProperties_Schema s <> None).

Definition yamlScalar (n : yaml.Node) : res string :=
  if streq (yaml.Tag n) "!!str" then Ok (yaml.Value n)
  else Err "yaml: cannot unmarshal into string".

Definition yamlBool (n : yaml.Node) : res bool :=
  if streq (yaml.Tag n) "!!bool" then Ok (streq (yaml.Value n) "true")
  else Err "yaml: cannot unmarshal into bool".

Definition env : Env := {|
  options := allOff;
  RefPathToGoType := refToGoType;
  IsGoTypeReference := fun ref => negb (streq ref "");
  RefPathToObjName := fun ref => strings.TrimPrefix ref componentPrefix;
  SchemaNameToTypeName := fun name => name;
  PathToTypeName := fun path => strings.Join path "_";
  SchemaHasAdditionalProperties := hasAdditionalProperties;
  SortedSchemaKeys := fun m => omap.Keys (default [] m);
  StringInArray := stringInSlice;
  sliceContains := fun l s => stringInSlice s l;
  SanitizeEnumNames := fun names values => combine names values;
  StringWithTypeNameToGoComment := fun text name => "// " +:+ name +:+ " " +:+ text;
  DeprecationComment := fun reason => "// Deprecated: " +:+ reason;
  SortedMapKeys := fun m => (map_to_list m).*1;
  mergeSchemasV1 := fun _ _ => Err "old merge is not part of the sample";
  yamlDecodeString := yamlScalar;
  yamlDecodeBool := yamlBool;
  yamlDecodeStrings := fun _ => Err "yaml: cannot unmarshal into []string";
  yamlDecodeStringMap := fun _ => Err "yaml: cannot unmarshal into map";
|}.

(** An inline schema of the given type, and a reference to a component. *)
Definition typed (t : string) : openapi.Schema :=
  openapi.mkSchema [t] "" "" [] None [] None None None None false ∅ false None
                   None None None None.

Definition inline (s : openapi.Schema) : openapi.SchemaRef :=
  openapi.NewSchemaRef "" (Some s).

Definition component (name : string) (s : openapi.Schema) : openapi.SchemaRef :=
  openapi.NewSchemaRef (componentPrefix +:+ name) (Some s).

End Sample.

(* ===================================================================== *)
(** ** Basic facts *)
(* ===================================================================== *)

Lemma streq_refl (a : string) : streq a a = true.
Proof. unfold streq. by apply bool_decide_eq_true_2. Qed.

Lemma streq_true (a b : string) : streq a b = true <-> a = b.
Proof. unfold streq. apply bool_decide_eq_true. Qed.

Lemma streq_false (a b : string) : streq a b = false <-> a <> b.
Proof. unfold streq. apply bool_decide_eq_false. Qed.

Lemma HasPrefix_app (p x : string) : strings.HasPrefix (p +:+ x) p = true.
Proof.
  unfold strings.HasPrefix. induction p as [|c p IH]; simpl.
  - by destruct x.
  - destruct (ascii_dec c c); [exact IH | congruence].
Qed.

Lemma drop_app (p x : string) : strings.drop (String.length p) (p +:+ x) = x.
Proof. induction p as [|c p IH]; simpl; [by destruct x | exact IH]. Qed.

Lemma TrimPrefix_app (p x : string) : strings.TrimPrefix (p +:+ x) p = x.
Proof. unfold strings.TrimPrefix. by rewrite HasPrefix_app, drop_app. Qed.

Lemma Contains_HasPrefix (s p : string) :
  strings.HasPrefix s p = true -> strings.Contains s p = true.
Proof. intros H. destruct s; cbn [strings.Contains]; by rewrite H. Qed.

Lemma Contains_app (p x : string) : strings.Contains (p +:+ x) p = true.
Proof. apply Contains_HasPrefix, HasPrefix_app. Qed.

Section Unfolding.
Context (E : Env).

Lemma GenerateGoSchema_S depth sref path :
  GenerateGoSchema E (S depth) sref path =
  GenerateGoSchema_body E (GenerateGoSchema E depth) sref path.
Proof. reflexivity. Qed.

End Unfolding.

(* ===================================================================== *)
(** ** Degraded descriptors: absent and unresolved references *)
(* ===================================================================== *)

Section Degraded.
Context (E : Env).

(** The descriptor of the universal type that carries no reference name. *)
Definition anyDescriptor : Schema := set_GoType "interface{}" Schema_zero.

(** The descriptor whose type and reference name are both [t]. *)
Definition namedDescriptor (t : string) : Schema :=
  set_RefType t (set_GoType t Schema_zero).

(** C9, as amended.  Compiling an absent reference, or a reference whose
    value is missing, never fails and needs no nested activation.  The
    descriptor of the absent reference is [interface{}] without reference
    name, and its alias flag is not set.  A valueless reference whose
    reference string converts to a Go type name gets that name as type and
    reference name; otherwise it gets [interface{}] as type and reference
    name.  The alias flag is not set in either case. *)
Theorem C9_absent_and_unresolved_degrade
    (depth : nat) (path : list string) (ref : string)
    (items ap : option openapi.SchemaRef) (oneOf anyOf allOf : list openapi.SchemaRef)
    (not_ : option openapi.SchemaRef) :
  let unresolved := openapi.mkSchemaRef ref None items ap oneOf anyOf allOf not_ in
  GenerateGoSchema E (S depth) None path = Returns (Ok anyDescriptor)
  /\ GoType anyDescriptor = "interface{}"
  /\ RefType anyDescriptor = ""
  /\ DefineViaAlias anyDescriptor = false
  /\ GenerateGoSchema E (S depth) (Some unresolved) path =
       Returns (Ok (match RefPathToGoType E ref with
                    | Ok refType =>
                        if streq ref "" then namedDescriptor "interface{}"
                        else namedDescriptor refType
                    | Err _ => namedDescriptor "interface{}"
                    end))
  /\ (forall t, DefineViaAlias (namedDescriptor t) = false
                /\ GoType (namedDescriptor t) = t
                /\ RefType (namedDescriptor t) = t).
Proof.
  cbn zeta. repeat split.
  rewrite GenerateGoSchema_S. unfold GenerateGoSchema_body. cbn.
  destruct (streq ref ""); cbn; [by destruct (RefPathToGoType E ref)|].
  by destruct (RefPathToGoType E ref).
Qed.

End Degraded.

(** C9, as the claim states it, fails for the absent reference: its
    descriptor is not marked alias; and an unresolved reference to a
    component gets the component's name, not [interface{}]. *)
Lemma C9_absent_ref_is_not_marked_alias :
  (exists d, GenerateGoSchema Sample.env 1 None ["pet"] = Returns (Ok d)
             /\ GoType d = "interface{}" /\ DefineViaAlias d = false)
  /\ (exists d, GenerateGoSchema Sample.env 1
                  (Some (openapi.NewSchemaRef "#/components/schemas/Pet" None))
                  ["owner"; "pet"] = Returns (Ok d)
                /\ GoType d = "Pet" /\ DefineViaAlias d = false).
Proof. split; eexists; (split; [vm_compute; reflexivity | split; reflexivity]). Qed.

(* ===================================================================== *)
(** ** References: alias unless at the defining occurrence *)
(* ===================================================================== *)

Section References.
Context (E : Env).

(** What the reference branch returns. *)
Definition referenceDescriptor (refType : string) (skip : bool)
    (schema : openapi.Schema) (alias : bool) : Schema :=
  mkSchema refType refType None ∅ [] false None [] [] skip
           (openapi.Description schema) [] None alias (Some schema).

(** C6.  A resolved reference to the component [X] compiles, at the path
    [[X]] (the defining occurrence), to a descriptor that is not an alias,
    and at every other path to an alias whose type and reference name are
    the referenced type's spelling. *)
Theorem C6_reference_aliases_except_when_defining
    (depth : nat) (X : string) (sref : openapi.SchemaRef)
    (schema : openapi.Schema) (refType : string) (skip : bool) :
  openapi.Ref sref = "#/components/schemas/" +:+ X ->
  openapi.Value sref = Some schema ->
  IsGoTypeReference E (openapi.Ref sref) = true ->
  RefPathToGoType E (openapi.Ref sref) = Ok refType ->
  skipOptionalPointerOf E schema = Ok skip ->
  GenerateGoSchema E (S depth) (Some sref) [X] =
    Returns (Ok (referenceDescriptor refType skip schema false))
  /\ DefineViaAlias (referenceDescriptor refType skip schema false) = false
  /\ forall path, path <> [X] ->
       GenerateGoSchema E (S depth) (Some sref) path =
         Returns (Ok (referenceDescriptor refType skip schema true))
       /\ DefineViaAlias (referenceDescriptor refType skip schema true) = true
       /\ TypeDecl (referenceDescriptor refType skip schema true) = refType.
Proof.
  intros Href Hval Hgo Hty Hskip.
  assert (Hbody : forall path,
    GenerateGoSchema E (S depth) (Some sref) path =
    Returns (Ok (referenceDescriptor refType skip schema
                   (negb (bool_decide (path = [X])))))).
  { intros path. rewrite GenerateGoSchema_S. unfold GenerateGoSchema_body.
    rewrite Hval, Hskip. cbn [lift bind]. rewrite Hgo, Hty.
    rewrite Href, Contains_app, TrimPrefix_app.
    unfold ret, referenceDescriptor. do 3 f_equal.
    destruct path as [|p0 [|p1 path]]; cbn.
    - by rewrite bool_decide_eq_false_2.
    - unfold streq. destruct (decide (p0 = X)) as [->|Hne].
      + by rewrite !bool_decide_eq_true_2.
      + rewrite !bool_decide_eq_false_2; [done | congruence | done].
    - by rewrite bool_decide_eq_false_2. }
  split; [|split; [done|]].
  - rewrite Hbody. by rewrite bool_decide_eq_true_2.
  - intros path Hne. rewrite Hbody. rewrite bool_decide_eq_false_2 by done.
    repeat split. unfold TypeDecl, IsRef. cbn.
    by destruct (streq refType "") eqn:Heq; [apply streq_true in Heq|].
Qed.

End References.

(** C6 at the sample environment: the component [Pet] of type [string]. *)
Lemma C6_reference_aliases_witness :
  GenerateGoSchema Sample.env 1
    (Some (Sample.component "Pet" (Sample.typed "string"))) ["Pet"] =
    Returns (Ok (referenceDescriptor "Pet" false (Sample.typed "string") false))
  /\ DefineViaAlias (referenceDescriptor "Pet" false (Sample.typed "string") false)
     = false
  /\ forall path, path <> ["Pet"] ->
       GenerateGoSchema Sample.env 1
         (Some (Sample.component "Pet" (Sample.typed "string"))) path =
         Returns (Ok (referenceDescriptor "Pet" false (Sample.typed "string") true))
       /\ DefineViaAlias
            (referenceDescriptor "Pet" false (Sample.typed "string") true) = true
       /\ TypeDecl (referenceDescriptor "Pet" false (Sample.typed "string") true)
          = "Pet".
Proof.
  apply (C6_reference_aliases_except_when_defining Sample.env 0 "Pet"
           (Sample.component "Pet" (Sample.typed "string"))
           (Sample.typed "string") "Pet" false); reflexivity.
Defined.

(* ===================================================================== *)
(** ** The schema without any type information *)
(* ===================================================================== *)

Section Untyped.
Context (E : Env).

(** What the branch of the completely untyped schema returns. *)
Definition untypedDescriptor (schema : openapi.Schema) : Schema :=
  mkSchema "interface{}" "" None ∅ [] false None [] [] true
           (openapi.Description schema) [] None true (Some schema).


End Untyped.


(** A schema without type, properties, additional properties and
    oneOf/anyOf that carries the name extension. *)
Definition untypedNamed : openapi.Schema :=
  openapi.mkSchema [] "" "" [] None [] None None None None false
    {[ extGoTypeName := VString "Anything" ]} false None None None None None.


(* ===================================================================== *)
(** ** Enumerations *)
(* ===================================================================== *)

Section Enums.
Context (E : Env).

(** The descriptor [GenerateGoSchema] starts from. *)
Definition initialDescriptor (skip : bool) (schema : openapi.Schema) : Schema :=
  mkSchema "" "" None ∅ [] false None [] [] skip
           (openapi.Description schema) [] None false (Some schema).

Lemma compileEnum_named gen schema path outSchema d :
  compileEnum E gen schema path outSchema = Returns (Ok d) ->
  DefineViaAlias d = false
  /\ exists o, (oapiSchemaToGoType E gen schema path outSchema).2 = Returns (Ok o)
               /\ GoType d = GoType o.
Proof.
  unfold compileEnum.
  destruct (oapiSchemaToGoType E gen schema path outSchema) as [schema' r].
  destruct r as [[o|e]| |]; cbn [wrapErr bind]; try discriminate.
  destruct (1 <? length path)%nat.
  - destruct (openapi.Extensions schema' !! extGoTypeName) as [ext|].
    + destruct (extString E ext); cbn [bind ret fail]; [|discriminate].
      intros [= <-]. destruct o; cbn. eauto.
    + cbn [bind ret]. intros [= <-]. destruct o; cbn. eauto.
  - intros [= <-]. destruct o; cbn. eauto.
Qed.

Lemma primitiveStep_not_array_returns gen schema t path outSchema :
  openapi.TypeIs schema "array" = false ->
  exists r, primitiveStep E gen schema t path outSchema = Returns r.
Proof.
  intros Harr. unfold primitiveStep. rewrite Harr.
  repeat (match goal with |- context [if ?b then _ else _] => destruct b end);
    eexists; reflexivity.
Qed.

Lemma TypeIs_set_Nullable b schema t :
  openapi.TypeIs (openapi.set_Nullable b schema) t = openapi.TypeIs schema t.
Proof. by destruct schema. Qed.

Lemma oapiSchemaToGoType_not_array_returns gen schema path outSchema :
  openapi.TypeIs schema "array" = false ->
  exists r, (oapiSchemaToGoType E gen schema path outSchema).2 = Returns r.
Proof.
  intros Harr. unfold oapiSchemaToGoType.
  destruct (typeArrayStep schema outSchema) as [o|t schema'] eqn:Hstep.
  - eexists; reflexivity.
  - apply primitiveStep_not_array_returns.
    unfold typeArrayStep in Hstep.
    repeat (match type of Hstep with
            | context [if ?b then _ else _] => destruct b
            end); inversion Hstep; subst;
      by rewrite ?TypeIs_set_Nullable.
Qed.

(** C5, as amended.  A resolved schema with a non-empty enum that is not a
    reference, has no allOf and no [x-go-type] extension, and declares a
    type that is not [object], compiles, whenever it compiles, to a
    descriptor that is not an alias and whose Go type is the one the
    primitive compilation chose; and unless it is an array, compilation
    returns without a nested activation. *)
Theorem C5_enum_compiles_to_named_type
    (depth : nat) (sref : openapi.SchemaRef) (schema : openapi.Schema)
    (path : list string) :
  openapi.Value sref = Some schema ->
  IsGoTypeReference E (openapi.Ref sref) = false ->
  openapi.AllOf schema = None ->
  openapi.Extensions schema !! extPropGoType = None ->
  openapi.TypeSlice schema <> [] ->
  openapi.TypeIs schema "object" = false ->
  openapi.Enum schema <> [] ->
  (forall d, GenerateGoSchema E (S depth) (Some sref) path = Returns (Ok d) ->
     DefineViaAlias d = false
     /\ exists skip o,
          (oapiSchemaToGoType E (GenerateGoSchema E depth) schema path
             (initialDescriptor skip schema)).2 = Returns (Ok o)
          /\ GoType d = GoType o)
  /\ (openapi.TypeIs schema "array" = false ->
      exists r, GenerateGoSchema E (S depth) (Some sref) path = Returns r).
Proof.
  intros Hval Hgo HallOf Hty Ht Hobj Henum.
  assert (Hbody :
    GenerateGoSchema E (S depth) (Some sref) path =
    let* skip := lift (skipOptionalPointerOf E schema) in
    compileEnum E (GenerateGoSchema E depth) schema path
                (initialDescriptor skip schema)).
  { rewrite GenerateGoSchema_S. unfold GenerateGoSchema_body. rewrite Hval.
    destruct (skipOptionalPointerOf E schema) as [skip|e]; cbn [lift bind];
      [|done].
    rewrite Hgo, HallOf, Hty, Hobj.
    unfold openapi.TypeSlice in *.
    destruct (openapi.Type_ schema); [done|].
    destruct (openapi.Enum schema); [done|]. reflexivity. }
  rewrite Hbody. split.
  - intros d. destruct (skipOptionalPointerOf E schema) as [skip|e];
      cbn [lift bind]; [|discriminate].
    intros Hd. apply compileEnum_named in Hd as [Halias (o & Ho & Hgt)].
    split; [done|]. by exists skip, o.
  - intros Harr. destruct (skipOptionalPointerOf E schema) as [skip|e];
      cbn [lift bind]; [|by eexists].
    unfold compileEnum.
    destruct (oapiSchemaToGoType_not_array_returns
                (GenerateGoSchema E depth) schema path
                (initialDescriptor skip schema) Harr) as [r Hr].
    destruct (oapiSchemaToGoType _ _ _ _ _) as [schema' r'].
    cbn in Hr. subst r'. destruct r as [o|e]; cbn [wrapErr bind]; [|by eexists].
    destruct (1 <? length path)%nat; [|by eexists].
    destruct (openapi.Extensions schema' !! extGoTypeName) as [ext|];
      [destruct (extString E ext)|]; by eexists.
Qed.

End Enums.

(** C5 at the sample environment: a string enum nested in [Pet]. *)
Definition statusEnum : openapi.Schema :=
  openapi.mkSchema ["string"] "" "" ["available"; "sold"] None [] None None
    None None false ∅ false None None None None None.

Lemma C5_enum_witness :
  (forall d,
     GenerateGoSchema Sample.env 1 (Some (Sample.inline statusEnum))
       ["Pet"; "status"] = Returns (Ok d) ->
     DefineViaAlias d = false
     /\ exists skip o,
          (oapiSchemaToGoType Sample.env (GenerateGoSchema Sample.env 0)
             statusEnum ["Pet"; "status"]
             (initialDescriptor skip statusEnum)).2 = Returns (Ok o)
          /\ GoType d = GoType o)
  /\ (openapi.TypeIs statusEnum "array" = false ->
      exists r, GenerateGoSchema Sample.env 1 (Some (Sample.inline statusEnum))
                  ["Pet"; "status"] = Returns r).
Proof.
  apply (C5_enum_compiles_to_named_type Sample.env 0
           (Sample.inline statusEnum) statusEnum ["Pet"; "status"]);
    (reflexivity || discriminate).
Defined.

(** An enum without a declared type. *)
Definition untypedEnum : openapi.Schema :=
  openapi.mkSchema [] "" "" ["available"; "sold"] None [] None None
    None None false ∅ false None None None None None.

(** C5, as the claim states it, fails on [untypedEnum]: it compiles to the
    alias [interface{}] and gets no table of enum values; the string enum
    next to it compiles to a named [string]. *)
Lemma C5_untyped_enum_is_alias :
  (exists d, GenerateGoSchema Sample.env 1 (Some (Sample.inline untypedEnum))
               ["Pet"; "status"] = Returns (Ok d)
             /\ GoType d = "interface{}" /\ DefineViaAlias d = true
             /\ EnumValues d = ∅)
  /\ (exists d, GenerateGoSchema Sample.env 1 (Some (Sample.inline statusEnum))
                  ["Pet"; "status"] = Returns (Ok d)
                /\ GoType d = "string" /\ DefineViaAlias d = false
                /\ size (EnumValues d) = 2).
Proof. split; eexists; (split; [vm_compute; reflexivity | repeat split]). Qed.

(* ===================================================================== *)
(** ** allOf with a single element *)
(* ===================================================================== *)

Section SingletonAllOf.
Context (E : Env).

Lemma scanAllOf_singleton e :
  scanAllOf [e] 0 =
  if negb (streq (openapi.Ref e) "") then (true, 1)
  else match openapi.Value e with
       | Some v =>
           if (0 <? length (default [] (openapi.AllOf v)))%nat ||
              (0 <? length (default [] (openapi.OneOf v)))%nat ||
              (0 <? length (default [] (openapi.AnyOf v)))%nat
           then (false, 0) else (true, 0)
       | None => (true, 0)
       end.
Proof.
  cbn. destruct (negb (streq (openapi.Ref e) "")); [done|].
  destruct (openapi.Value e); [|done]. by destruct (_ || _).
Qed.

(** When the embedded-struct case does not apply to a one-element list. *)
Lemma singleton_not_embedded (e : openapi.SchemaRef) (path : list string) :
  openapi.Ref e = "" \/ 1 < length path ->
  (let '(hasOnly, refCount) := scanAllOf [e] 0 in
   hasOnly && (0 <? refCount)%nat && (length path <=? 1)%nat) = false.
Proof.
  intros H. rewrite scanAllOf_singleton. destruct H as [H|H].
  - rewrite H, streq_refl. cbn [negb].
    destruct (openapi.Value e); [destruct (_ || _)|]; done.
  - assert ((length path <=? 1)%nat = false) as -> by by apply Nat.leb_gt.
    destruct (negb _); [done|].
    destruct (openapi.Value e); [destruct (_ || _)|]; done.
Qed.

(** C3, as amended.  Merging a one-element list is compiling that element.
    Compiling a resolved, non-reference schema whose allOf list is [[e]],
    with the old merge option off, gives what compiling [e] at the same path
    gives, one activation deeper, with the descriptor's back-pointer set to
    the enclosing schema and an error prefixed, unless [e] is a reference
    and the path has at most one segment: then the result is a struct that
    embeds the referenced type and is neither an alias nor a reference. *)
Theorem C3_singleton_allOf_compiles_its_element
    (depth : nat) (sref : openapi.SchemaRef) (schema : openapi.Schema)
    (e : openapi.SchemaRef) (path : list string) (skip : bool) :
  openapi.Value sref = Some schema ->
  IsGoTypeReference E (openapi.Ref sref) = false ->
  skipOptionalPointerOf E schema = Ok skip ->
  openapi.AllOf schema = Some [e] ->
  OldMergeSchemas (Compatibility (options E)) = false ->
  (forall gen : Gen, mergeSchemas gen [e] path = gen (Some e) path)
  /\ (openapi.Ref e = "" \/ 1 < length path ->
      GenerateGoSchema E (S depth) (Some sref) path =
        match GenerateGoSchema E depth (Some e) path with
        | Returns (Ok d) => Returns (Ok (set_OAPISchema (Some schema) d))
        | Returns (Err msg) => Returns (Err ("error merging schemas: " +:+ msg))
        | other => other
        end)
  /\ (openapi.Ref e <> "" -> length path <= 1 ->
      forall d, GenerateGoSchema E (S depth) (Some sref) path = Returns (Ok d) ->
        exists refTypeName,
          RefPathToGoType E (openapi.Ref e) = Ok refTypeName
          /\ EmbeddedTypes d = [refTypeName]
          /\ DefineViaAlias d = false
          /\ RefType d = "").
Proof.
  intros Hval Hgo Hskip HallOf Hold.
  assert (Hbody :
    GenerateGoSchema E (S depth) (Some sref) path =
    compileAllOf E (GenerateGoSchema E depth) schema [e] path).
  { rewrite GenerateGoSchema_S. unfold GenerateGoSchema_body.
    by rewrite Hval, Hskip; cbn [lift bind]; rewrite Hgo, HallOf. }
  split; [done|]. split.
  - intros Hcase. rewrite Hbody. unfold compileAllOf.
    pose proof (singleton_not_embedded e path Hcase) as Hno.
    destruct (scanAllOf [e] 0) as [hasOnly refCount]. rewrite Hno.
    unfold MergeSchemas. rewrite Hold. cbn [mergeSchemas].
    by destruct (GenerateGoSchema E depth (Some e) path) as [[d|msg]| |].
  - intros Href Hlen d. rewrite Hbody. unfold compileAllOf.
    rewrite scanAllOf_singleton.
    assert (streq (openapi.Ref e) "" = false) as Hne by by apply streq_false.
    rewrite Hne. cbn [negb andb Nat.ltb Nat.leb].
    assert ((length path <=? 1)%nat = true) as -> by by apply Nat.leb_le.
    cbn [embedAllOf]. rewrite Hne. cbn [negb].
    destruct (RefPathToGoType E (openapi.Ref e)) as [t|msg];
      cbn [lift wrapErr bind]; [|discriminate].
    destruct (GenerateGoSchema E depth (Some e) path) as [[r|msg]| |];
      cbn [wrapErr bind ret]; try discriminate.
    cbn [length EmbeddedTypes set_EmbeddedTypes set_AdditionalTypes set_OAPISchema
         app Nat.ltb Nat.leb orb].
    match goal with
    | |- context [GenStructFromSchema E ?x] =>
        destruct (GenStructFromSchema E x) as [[g|msg]| |]
    end; cbn [bind ret]; try discriminate.
    intros [= <-]. exists t. by cbn.
Qed.

End SingletonAllOf.

(** A schema whose allOf list holds one inline string schema. *)
Definition allOfInlineString : openapi.Schema :=
  openapi.mkSchema [] "" "" [] None [] (Some [Sample.inline (Sample.typed "string")])
    None None None false ∅ false None None None None None.

(** C3, as amended, at the sample environment. *)
Lemma C3_singleton_allOf_witness :
  let e := Sample.inline (Sample.typed "string") in
  let sref := Sample.inline allOfInlineString in
  (forall gen : Gen, mergeSchemas gen [e] ["Name"] = gen (Some e) ["Name"])
  /\ (openapi.Ref e = "" \/ 1 < length ["Name"] ->
      GenerateGoSchema Sample.env 2 (Some sref) ["Name"] =
        match GenerateGoSchema Sample.env 1 (Some e) ["Name"] with
        | Returns (Ok d) => Returns (Ok (set_OAPISchema (Some allOfInlineString) d))
        | Returns (Err msg) => Returns (Err ("error merging schemas: " +:+ msg))
        | other => other
        end)
  /\ (openapi.Ref e <> "" -> length ["Name"] <= 1 ->
      forall d, GenerateGoSchema Sample.env 2 (Some sref) ["Name"] = Returns (Ok d) ->
        exists refTypeName,
          RefPathToGoType Sample.env (openapi.Ref e) = Ok refTypeName
          /\ EmbeddedTypes d = [refTypeName]
          /\ DefineViaAlias d = false
          /\ RefType d = "").
Proof.
  apply (C3_singleton_allOf_compiles_its_element Sample.env 1
           (Sample.inline allOfInlineString) allOfInlineString
           (Sample.inline (Sample.typed "string")) ["Name"] false); reflexivity.
Defined.

(** A top-level schema whose allOf list holds one reference. *)
Definition allOfBase : openapi.Schema :=
  openapi.mkSchema [] "" "" []
    None [] (Some [Sample.component "Base" (Sample.typed "string")])
    None None None false ∅ false None None None None None.

(** C3, as the claim states it, fails on [allOfBase] at a top-level path:
    the schema compiles to a struct that embeds [Base], its only element
    compiles to the alias [Base]. *)
Lemma C3_singleton_reference_is_embedded :
  (exists d, GenerateGoSchema Sample.env 2 (Some (Sample.inline allOfBase))
               ["Derived"] = Returns (Ok d)
             /\ EmbeddedTypes d = ["Base"] /\ RefType d = ""
             /\ DefineViaAlias d = false
             /\ GoType d = "struct {" +:+ nl +:+ "    Base" +:+ nl +:+ "}")
  /\ (exists d, GenerateGoSchema Sample.env 2
                  (Some (Sample.component "Base" (Sample.typed "string")))
                  ["Derived"] = Returns (Ok d)
                /\ EmbeddedTypes d = [] /\ RefType d = "Base"
                /\ DefineViaAlias d = true
                /\ GoType d = "Base").
Proof. split; eexists; (split; [vm_compute; reflexivity | repeat split]). Qed.

(* ===================================================================== *)
(** ** Type arrays with a [null] member *)
(* ===================================================================== *)

Section NullUnion.
Context (E : Env).

(** [primitiveStep] reads the format, the item schema and the answers of
    [TypeIs] only. *)
Lemma primitiveStep_ext gen s1 s2 t path outSchema :
  openapi.Format s1 = openapi.Format s2 ->
  openapi.Items s1 = openapi.Items s2 ->
  (forall x, x <> "null" -> openapi.TypeIs s1 x = openapi.TypeIs s2 x) ->
  primitiveStep E gen s1 t path outSchema = primitiveStep E gen s2 t path outSchema.
Proof.
  intros Hf Hi Ht. unfold primitiveStep.
  rewrite Hf, Hi, !Ht by discriminate. reflexivity.
Qed.

Lemma TypeIs_with_null (schema : openapi.Schema) (T x : string) :
  x <> "null" ->
  openapi.TypeIs (openapi.set_Type [T; "null"] schema) x =
  openapi.TypeIs (openapi.set_Nullable true (openapi.set_Type [T] schema)) x
  /\ openapi.TypeIs (openapi.set_Type ["null"; T] schema) x =
     openapi.TypeIs (openapi.set_Nullable true (openapi.set_Type [T] schema)) x.
Proof.
  intros Hx. destruct schema. unfold openapi.TypeIs. cbn.
  assert (streq "null" x = false) as -> by (apply streq_false; congruence).
  by rewrite !orb_false_r.
Qed.

(** C4.  For a type [T] other than [null], [oapiSchemaToGoType] gives the
    type array [[T, null]], in either order, the very result (descriptor
    or error) it gives the type [T] with [Nullable] set, and it leaves the
    schema node with [Nullable] set. *)
Theorem C4_null_union_compiles_as_nullable
    (gen : Gen) (schema : openapi.Schema) (T : string) (path : list string)
    (outSchema : Schema) :
  T <> "null" ->
  let union := openapi.set_Type [T; "null"] schema in
  let union' := openapi.set_Type ["null"; T] schema in
  let nullable := openapi.set_Nullable true (openapi.set_Type [T] schema) in
  (oapiSchemaToGoType E gen union path outSchema).2 =
    (oapiSchemaToGoType E gen nullable path outSchema).2
  /\ (oapiSchemaToGoType E gen union' path outSchema).2 =
    (oapiSchemaToGoType E gen nullable path outSchema).2
  /\ (oapiSchemaToGoType E gen union path outSchema).1 =
    openapi.set_Nullable true union
  /\ (oapiSchemaToGoType E gen union' path outSchema).1 =
    openapi.set_Nullable true union'
  /\ (oapiSchemaToGoType E gen nullable path outSchema).1 = nullable
  /\ openapi.Nullable (openapi.set_Nullable true union) = true
  /\ openapi.Nullable (openapi.set_Nullable true union') = true
  /\ openapi.Nullable nullable = true.
Proof.
  intros HT. cbn zeta.
  assert (Hn : streq T "null" = false) by by apply streq_false.
  assert (Hstep1 :
    typeArrayStep (openapi.set_Type [T; "null"] schema) outSchema =
    FallThrough [T] (openapi.set_Nullable true (openapi.set_Type [T; "null"] schema))).
  { destruct schema. unfold typeArrayStep. cbn. rewrite ?Hn. cbn. by rewrite ?Hn. }
  assert (Hstep2 :
    typeArrayStep (openapi.set_Type ["null"; T] schema) outSchema =
    FallThrough [T] (openapi.set_Nullable true (openapi.set_Type ["null"; T] schema))).
  { destruct schema. unfold typeArrayStep. cbn. rewrite ?Hn. cbn. by rewrite ?Hn. }
  assert (Hstep3 :
    typeArrayStep (openapi.set_Nullable true (openapi.set_Type [T] schema)) outSchema =
    FallThrough [T] (openapi.set_Nullable true (openapi.set_Type [T] schema))).
  { destruct schema. unfold typeArrayStep. cbn. rewrite ?Hn. cbn. by rewrite ?Hn. }
  unfold oapiSchemaToGoType. rewrite Hstep1, Hstep2, Hstep3. cbn [fst snd].
  split; [|split].
  - apply primitiveStep_ext; try by destruct schema.
    intros x Hx. rewrite TypeIs_set_Nullable.
    by destruct (TypeIs_with_null schema T x Hx) as [-> _].
  - apply primitiveStep_ext; try by destruct schema.
    intros x Hx. rewrite TypeIs_set_Nullable.
    by destruct (TypeIs_with_null schema T x Hx) as [_ ->].
  - repeat split; by destruct schema.
Qed.

End NullUnion.

(** C4 at the sample environment, for [T = string]. *)
Lemma C4_null_union_witness :
  let gen := GenerateGoSchema Sample.env 0 in
  let schema := openapi.Schema_zero in
  let outSchema := Schema_zero in
  let union := openapi.set_Type ["string"; "null"] schema in
  let union' := openapi.set_Type ["null"; "string"] schema in
  let nullable := openapi.set_Nullable true (openapi.set_Type ["string"] schema) in
  (oapiSchemaToGoType Sample.env gen union ["name"] outSchema).2 =
    (oapiSchemaToGoType Sample.env gen nullable ["name"] outSchema).2
  /\ (oapiSchemaToGoType Sample.env gen union' ["name"] outSchema).2 =
    (oapiSchemaToGoType Sample.env gen nullable ["name"] outSchema).2
  /\ (oapiSchemaToGoType Sample.env gen union ["name"] outSchema).1 =
    openapi.set_Nullable true union
  /\ (oapiSchemaToGoType Sample.env gen union' ["name"] outSchema).1 =
    openapi.set_Nullable true union'
  /\ (oapiSchemaToGoType Sample.env gen nullable ["name"] outSchema).1 = nullable
  /\ openapi.Nullable (openapi.set_Nullable true union) = true
  /\ openapi.Nullable (openapi.set_Nullable true union') = true
  /\ openapi.Nullable nullable = true.
Proof.
  apply (C4_null_union_compiles_as_nullable Sample.env
           (GenerateGoSchema Sample.env 0) openapi.Schema_zero "string"
           ["name"] Schema_zero).
  discriminate.
Defined.

(* ===================================================================== *)
(** ** Unions with a discriminator *)
(* ===================================================================== *)

Section Unions.
Context (E : Env).

Lemma Discriminator_set_AdditionalTypes v s :
  Discriminator_ (set_AdditionalTypes v s) = Discriminator_ s.
Proof. by destruct s. Qed.

Lemma Discriminator_set_UnionElements v s :
  Discriminator_ (set_UnionElements v s) = Discriminator_ s.
Proof. by destruct s. Qed.

Lemma Discriminator_set_Discriminator v s :
  Discriminator_ (set_Discriminator_ v s) = v.
Proof. by destruct s. Qed.

(** The declared property of the descriptor's discriminator. *)
Definition discriminatorProperty (s : Schema) : option string :=
  D_Property <$> Discriminator_ s.

Lemma setMapping_spec k goType outSchema prop :
  discriminatorProperty outSchema = Some prop ->
  exists out, setMapping k goType outSchema = Returns (Ok out)
              /\ discriminatorProperty out = Some prop.
Proof.
  unfold discriminatorProperty, setMapping.
  destruct (Discriminator_ outSchema) as [d|]; [|done].
  intros [= <-]. eexists. split; [done|].
  by rewrite Discriminator_set_Discriminator.
Qed.

(** What one turn of the loop does to the descriptor before the
    discriminator is looked at keeps the discriminator. *)
Lemma nameVariant_keeps_discriminator elementPath i element elementSchema
    usedTypeNames outSchema :
  discriminatorProperty
    (nameVariant E elementPath i element elementSchema usedTypeNames outSchema).2
  = discriminatorProperty outSchema.
Proof.
  unfold discriminatorProperty, nameVariant.
  destruct (streq (openapi.Ref element) ""); [|done]. cbn zeta. cbn [snd].
  rewrite Discriminator_set_AdditionalTypes.
  destruct (streq _ _); [done|]. by rewrite Discriminator_set_AdditionalTypes.
Qed.

(** A descriptor that enters the loop with a discriminator leaves it with
    one, for the same property. *)
Lemma generateUnion_loop_keeps_discriminator gen d path elements :
  forall i usedTypeNames outSchema out prop,
    discriminatorProperty outSchema = Some prop ->
    generateUnion_loop E gen (Some d) path i elements usedTypeNames outSchema
      = Returns (Ok out) ->
    discriminatorProperty out = Some prop.
Proof.
  induction elements as [|element rest IH];
    intros i used outSchema out prop Hd; cbn [generateUnion_loop].
  - by intros [= <-].
  - destruct (gen (Some element) (path ++ [fmt_d i])) as [[elementSchema|e]| |];
      cbn [bind]; try discriminate.
    pose proof (nameVariant_keeps_discriminator (path ++ [fmt_d i]) i element
                  elementSchema used outSchema) as Hstep.
    destruct (nameVariant E _ _ _ _ _ _) as [[elementSchema' used'] outSchema'].
    cbn [snd] in Hstep. rewrite Hd in Hstep.
    destruct (negb _ && streq (openapi.Ref element) ""); [discriminate|].
    destruct (explicitKey _ _) as [k|].
    + destruct (setMapping_spec k (GoType elementSchema') outSchema' prop Hstep)
        as (out1 & -> & Hout1). cbn [bind]. apply IH.
      unfold discriminatorProperty in *.
      destruct (stringInSlice _ _); [done|].
      by rewrite Discriminator_set_UnionElements.
    + destruct (setMapping_spec (RefPathToObjName E (openapi.Ref element))
                  (GoType elementSchema') outSchema' prop Hstep)
        as (out1 & -> & Hout1). cbn [bind]. apply IH.
      unfold discriminatorProperty in *.
      destruct (stringInSlice _ _); [done|].
      by rewrite Discriminator_set_UnionElements.
Qed.

(** An explicit mapping is present and some variant is inline. *)
Definition ambiguous (d : openapi.Discriminator)
    (elements : list openapi.SchemaRef) : bool :=
  negb (Nat.eqb (length (openapi.MappingToMap d)) 0) &&
  existsb (fun element => streq (openapi.Ref element) "") elements.

(** When every variant compiles, the loop fails exactly in the ambiguous
    case, with the ambiguity error. *)
Lemma generateUnion_loop_total gen d path elements :
  (forall element p, element ∈ elements ->
     exists s, gen (Some element) p = Returns (Ok s)) ->
  forall i usedTypeNames outSchema prop,
    discriminatorProperty outSchema = Some prop ->
    if ambiguous d elements then
      generateUnion_loop E gen (Some d) path i elements usedTypeNames outSchema
        = Returns (Err errAmbiguousMapping)
    else
      exists out,
        generateUnion_loop E gen (Some d) path i elements usedTypeNames outSchema
          = Returns (Ok out).
Proof.
  unfold ambiguous.
  induction elements as [|element rest IH];
    intros Hgen i used outSchema prop Hd; cbn [generateUnion_loop existsb].
  - rewrite andb_false_r. by eexists.
  - destruct (Hgen element (path ++ [fmt_d i])) as [elementSchema ->];
      [by left|]. cbn [bind].
    pose proof (nameVariant_keeps_discriminator (path ++ [fmt_d i]) i element
                  elementSchema used outSchema) as Hstep.
    destruct (nameVariant E _ _ _ _ _ _) as [[elementSchema' used'] outSchema'].
    cbn [snd] in Hstep. rewrite Hd in Hstep.
    destruct (negb (Nat.eqb (length (openapi.MappingToMap d)) 0)) eqn:Hmap;
      destruct (streq (openapi.Ref element) "") eqn:Href;
      cbn [andb orb fail bind]; try done.
    all: assert (Hrest : forall element p, element ∈ rest ->
           exists s, gen (Some element) p = Returns (Ok s))
           by (intros ???; apply Hgen; by right).
    all: match goal with
         | |- context [match explicitKey ?m ?r with _ => _ end] =>
             destruct (explicitKey m r) as [k|]
         end.
    all: match goal with
         | |- context [setMapping ?k ?g ?o] =>
             destruct (setMapping_spec k g o prop Hstep) as (out1 & -> & Hout1)
         end; cbn [bind].
    all: match goal with
         | |- context [generateUnion_loop _ _ _ _ _ _ ?u ?o] =>
             assert (Ho : discriminatorProperty o = Some prop)
               by (unfold discriminatorProperty in *;
                   destruct (stringInSlice _ _); [done|];
                   by rewrite Discriminator_set_UnionElements);
             specialize (IH Hrest (S i) u o prop Ho)
         end.
    all: by rewrite ?Hmap in IH; cbn [andb] in IH.
Qed.

(** C7.  For a union with a declared discriminator over the variants
    [elements]: whenever generation succeeds, the descriptor's discriminator
    mapping has exactly as many entries as there are variants; and when
    every variant compiles, generation fails with the ambiguity error if an
    explicit mapping is present and some variant is inline, and otherwise
    it either succeeds or fails with the error that not all schemas were
    mapped. *)
Theorem C7_discriminator_mapping_is_complete
    (gen : Gen) (outSchema : Schema) (elements : list openapi.SchemaRef)
    (d : openapi.Discriminator) (path : list string) :
  (forall out,
     generateUnion E gen outSchema elements (Some d) path = Returns (Ok out) ->
     exists disc, Discriminator_ out = Some disc
                  /\ size (D_Mapping disc) = length elements
                  /\ D_Property disc = openapi.PropertyName d)
  /\ ((forall element p, element ∈ elements ->
         exists s, gen (Some element) p = Returns (Ok s)) ->
      if ambiguous d elements then
        generateUnion E gen outSchema elements (Some d) path
          = Returns (Err errAmbiguousMapping)
      else
        (exists out,
           generateUnion E gen outSchema elements (Some d) path = Returns (Ok out))
        \/ generateUnion E gen outSchema elements (Some d) path
             = Returns (Err errNotAllMapped)).
Proof.
  set (start := set_Discriminator_
                  (Some (mkDiscriminator ∅ (openapi.PropertyName d))) outSchema).
  assert (Hstart : discriminatorProperty start = Some (openapi.PropertyName d)).
  { unfold discriminatorProperty, start.
    by rewrite Discriminator_set_Discriminator. }
  split.
  - intros out. unfold generateUnion. fold start.
    destruct (generateUnion_loop E gen (Some d) path 0 elements ∅ start)
      as [[out'|e]| |] eqn:Hloop; cbn [bind]; try discriminate.
    pose proof (generateUnion_loop_keeps_discriminator _ _ _ _ _ _ _ _ _
                  Hstart Hloop) as Hd.
    unfold discriminatorProperty in Hd.
    destruct (Discriminator_ out') as [disc|] eqn:Hdisc; [|done].
    destruct (Nat.eqb (size (D_Mapping disc)) (length elements)) eqn:Hsize;
      cbn [negb]; [|discriminate].
    intros [= <-]. exists disc. apply Nat.eqb_eq in Hsize.
    repeat split; [done..|]. by injection Hd.
  - intros Hgen. unfold generateUnion. fold start.
    pose proof (generateUnion_loop_total gen d path elements Hgen 0 ∅ start _
                  Hstart) as Hloop.
    destruct (ambiguous d elements).
    + by rewrite Hloop.
    + destruct Hloop as [out' Hloop]. rewrite Hloop. cbn [bind].
      destruct (Discriminator_ out') as [disc|]; [|left; by eexists].
      destruct (negb _); [by right | left; by eexists].
Qed.

End Unions.

(** A union of the components [Cat] and [Dog], discriminated by [kind]. *)
Definition petVariants : list openapi.SchemaRef :=
  [Sample.component "Cat" (Sample.typed "string");
   Sample.component "Dog" (Sample.typed "string")].

Definition petKind : openapi.Discriminator :=
  openapi.mkDiscriminator "kind" None.

Definition petKindMapped : openapi.Discriminator :=
  openapi.mkDiscriminator "kind" (Some [("cat", "#/components/schemas/Cat")]).

Lemma petVariants_compile element p :
  element ∈ petVariants ->
  exists s, GenerateGoSchema Sample.env 1 (Some element) p = Returns (Ok s).
Proof.
  unfold petVariants. rewrite !elem_of_cons, elem_of_nil.
  intros [->|[->|[]]]; eexists; reflexivity.
Qed.

(** C7 on [petVariants]: generation succeeds and maps both variants. *)
Lemma C7_discriminator_mapping_witness :
  (forall out,
     generateUnion Sample.env (GenerateGoSchema Sample.env 1) Schema_zero
       petVariants (Some petKind) ["Pet"] = Returns (Ok out) ->
     exists disc, Discriminator_ out = Some disc
                  /\ size (D_Mapping disc) = 2
                  /\ D_Property disc = "kind")
  /\ ((exists out,
         generateUnion Sample.env (GenerateGoSchema Sample.env 1) Schema_zero
           petVariants (Some petKind) ["Pet"] = Returns (Ok out))
      \/ generateUnion Sample.env (GenerateGoSchema Sample.env 1) Schema_zero
           petVariants (Some petKind) ["Pet"] = Returns (Err errNotAllMapped)).
Proof.
  destruct (C7_discriminator_mapping_is_complete Sample.env
              (GenerateGoSchema Sample.env 1) Schema_zero petVariants petKind
              ["Pet"]) as [Hsize Htotal].
  split; [exact Hsize|].
  exact (Htotal (fun element p => petVariants_compile element p)).
Defined.

(** The three outcomes occur: both variants mapped; an inline variant next
    to an explicit mapping; one component given twice. *)
Example generateUnion_maps_both_variants :
  exists out disc,
    generateUnion Sample.env (GenerateGoSchema Sample.env 1) Schema_zero
      petVariants (Some petKind) ["Pet"] = Returns (Ok out)
    /\ Discriminator_ out = Some disc
    /\ D_Mapping disc = {[ "Cat" := "Cat"; "Dog" := "Dog" ]}
    /\ UnionElements out = ["Cat"; "Dog"].
Proof. do 2 eexists. split; [vm_compute; reflexivity | repeat split]. Qed.

Example generateUnion_inline_with_mapping_is_ambiguous :
  generateUnion Sample.env (GenerateGoSchema Sample.env 2) Schema_zero
    (petVariants ++ [Sample.inline (Sample.typed "string")])
    (Some petKindMapped) ["Pet"] = Returns (Err errAmbiguousMapping).
Proof. vm_compute; reflexivity. Qed.

Example generateUnion_repeated_variant_is_not_mapped :
  generateUnion Sample.env (GenerateGoSchema Sample.env 1) Schema_zero
    [Sample.component "Cat" (Sample.typed "string");
     Sample.component "Cat" (Sample.typed "string")]
    (Some petKind) ["Pet"] = Returns (Err errNotAllMapped).
Proof. vm_compute; reflexivity. Qed.

(* ===================================================================== *)
(** ** Property collisions in allOf merges *)
(* ===================================================================== *)

Section OrderedMap.
Context {A : Type}.
Implicit Types (m : list (string * A)) (k : string) (v : A).

Lemma Find_Set_eq k v m : omap.Find k (omap.Set_ k v m) = Some v.
Proof.
  induction m as [|[k' v'] m IH]; cbn.
  - by rewrite streq_refl.
  - destruct (streq k' k) eqn:Hk; cbn; by rewrite Hk.
Qed.

Lemma Find_Set_ne k k' v m :
  k' <> k -> omap.Find k' (omap.Set_ k v m) = omap.Find k' m.
Proof.
  intros Hne. induction m as [|[k0 v0] m IH]; cbn.
  - assert (streq k k' = false) as -> by (apply streq_false; congruence). done.
  - destruct (streq k0 k) eqn:Hk; cbn; [|by rewrite IH].
    apply streq_true in Hk as ->.
    assert (streq k k' = false) as -> by (apply streq_false; congruence). done.
Qed.

Lemma Find_None_Keys k m : omap.Find k m = None <-> k ∉ omap.Keys m.
Proof.
  unfold omap.Keys. induction m as [|[k' v'] m IH]; cbn.
  - split; [intros _; apply not_elem_of_nil | done].
  - rewrite not_elem_of_cons. destruct (streq k' k) eqn:Hk.
    + apply streq_true in Hk. split; [done | intros [? _]; congruence].
    + apply streq_false in Hk. rewrite IH. split; [|tauto].
      intros ?; split; [congruence | done].
Qed.

Lemma Keys_Set k v m :
  omap.Keys (omap.Set_ k v m) =
  if bool_decide (k ∈ omap.Keys m) then omap.Keys m else omap.Keys m ++ [k].
Proof.
  unfold omap.Keys. induction m as [|[k' v'] m IH]; cbn.
  - rewrite bool_decide_eq_false_2; [done | apply not_elem_of_nil].
  - destruct (streq k' k) eqn:Hk.
    + apply streq_true in Hk as ->. cbn.
      rewrite bool_decide_eq_true_2; [done | by left].
    + apply streq_false in Hk. cbn. rewrite IH.
      destruct (decide (k ∈ map fst m)) as [Hin|Hin].
      * rewrite !bool_decide_eq_true_2; [done | by right | done].
      * rewrite !bool_decide_eq_false_2; [done | | done].
        rewrite not_elem_of_cons. split; [congruence | done].
Qed.

Lemma NoDup_Keys_Set k v m :
  NoDup (omap.Keys m) -> NoDup (omap.Keys (omap.Set_ k v m)).
Proof.
  intros Hm. rewrite Keys_Set. case_bool_decide as Hin; [done|].
  apply NoDup_app. split; [done|]. split; [|apply NoDup_singleton].
  intros x Hx. rewrite list_elem_of_singleton. by intros ->.
Qed.

End OrderedMap.

Section MergeProperties.
Implicit Types (m p q : list (string * openapi.SchemaRef)).

(** The value the merge gives a property name, from the values the two
    schemas give it. *)
Definition mergedValue (v1 v2 : option openapi.SchemaRef)
  : option openapi.SchemaRef :=
  match v1, v2 with
  | Some existingVal, Some newVal =>
      Some (if shouldReplaceExisting existingVal newVal then newVal
            else existingVal)
  | Some existingVal, None => Some existingVal
  | None, other => other
  end.

Lemma Find_mergeProperty m k v name :
  omap.Find name (mergeProperty m (k, v)) =
  if streq k name then mergedValue (omap.Find k m) (Some v)
  else omap.Find name m.
Proof.
  unfold mergeProperty.
  destruct (streq k name) eqn:Hk.
  - apply streq_true in Hk as <-.
    destruct (omap.Find k m) as [existingVal|] eqn:Hf; cbn.
    + destruct (shouldReplaceExisting existingVal v); [apply Find_Set_eq | done].
    + apply Find_Set_eq.
  - apply streq_false in Hk.
    destruct (omap.Find k m) as [existingVal|]; cbn;
      [destruct (shouldReplaceExisting existingVal v)|];
      rewrite ?Find_Set_ne; done.
Qed.

Lemma NoDup_mergeProperty m kv :
  NoDup (omap.Keys m) -> NoDup (omap.Keys (mergeProperty m kv)).
Proof.
  destruct kv as [k v]. unfold mergeProperty. intros Hm.
  destruct (omap.Find k m) as [existingVal|];
    [destruct (shouldReplaceExisting existingVal v)|];
    auto using NoDup_Keys_Set.
Qed.

Lemma NoDup_mergeProperties p q :
  NoDup (omap.Keys p) -> NoDup (omap.Keys (mergeProperties p q)).
Proof.
  unfold mergeProperties. revert p.
  induction q as [|kv q IH]; intros p Hp; cbn; [done|].
  by apply IH, NoDup_mergeProperty.
Qed.

Lemma Find_mergeProperties p q name :
  NoDup (omap.Keys q) ->
  omap.Find name (mergeProperties p q) =
  mergedValue (omap.Find name p) (omap.Find name q).
Proof.
  unfold mergeProperties. revert p.
  induction q as [|[k v] q IH]; intros p Hq; cbn [fold_left omap.Find].
  - by destruct (omap.Find name p).
  - cbn in Hq. apply NoDup_cons in Hq as [Hk Hq].
    rewrite IH by done. rewrite Find_mergeProperty.
    destruct (streq k name) eqn:Hkn.
    + apply streq_true in Hkn as <-.
      apply Find_None_Keys in Hk. rewrite Hk.
      by destruct (mergedValue (omap.Find k p) (Some v)).
    + done.
Qed.

End MergeProperties.

Lemma PropertiesEqual_sym a b : PropertiesEqual a b = PropertiesEqual b a.
Proof.
  unfold PropertiesEqual, streq.
  rewrite (bool_decide_ext (JsonFieldName a = JsonFieldName b)
                           (JsonFieldName b = JsonFieldName a)) by done.
  rewrite (bool_decide_ext (TypeDecl (P_Schema a) = TypeDecl (P_Schema b))
                           (TypeDecl (P_Schema b) = TypeDecl (P_Schema a))) by done.
  by destruct (Required a), (Required b).
Qed.

(** The collision error of [AddProperty]. *)
Definition errAlreadyExists (name : string) : string :=
  "property '" +:+ name +:+ "' already exists with a different type".

Lemma AddProperty_ok s p :
  (forall e, e ∈ Properties s -> JsonFieldName e = JsonFieldName p ->
             PropertiesEqual e p = true) ->
  AddProperty s p = Ok (set_Properties (Properties s ++ [p]) s).
Proof.
  intros Hall. unfold AddProperty.
  destruct (find _ (Properties s)) as [e|] eqn:Hfind; [|done].
  apply find_some in Hfind as [Hin Hc].
  apply andb_true_iff in Hc as [Hname Hneq]. apply streq_true in Hname.
  rewrite Hall in Hneq; [done | by apply list_elem_of_In | done].
Qed.

Lemma AddProperty_collision s p e :
  e ∈ Properties s -> JsonFieldName e = JsonFieldName p ->
  PropertiesEqual e p = false ->
  AddProperty s p = Err (errAlreadyExists (JsonFieldName p)).
Proof.
  intros Hin Hname Hneq. unfold AddProperty.
  destruct (find _ (Properties s)) as [e'|] eqn:Hfind.
  - apply find_some in Hfind as [_ Hc].
    apply andb_true_iff in Hc as [Hname' _]. apply streq_true in Hname'.
    by rewrite Hname'.
  - apply list_elem_of_In in Hin.
    pose proof (find_none _ _ Hfind e Hin) as Hc. cbn in Hc.
    by rewrite Hname, streq_refl, Hneq in Hc.
Qed.

(** C1, as amended.  [mergeOpenapiSchemas] never fails.  When both schemas
    have properties (each name once), the merged schema has each name once,
    and a name that both declare keeps the earlier schema's value unless the
    later value is preferred as more specific (it has enum values and the
    earlier has none, or it is an array with items and the earlier is an
    object); in particular a property that both declare with the same value
    is there once, with that value.  A collision error exists in
    [AddProperty] only: it rejects a property whose name an existing
    property has with a different type spelling or required flag, and
    accepts, in either order, two properties that [PropertiesEqual]
    equates. *)
Theorem C1_merge_keeps_one_property_per_name
    (s1 s2 : openapi.Schema) (allOf : bool)
    (p1 p2 : list (string * openapi.SchemaRef)) :
  openapi.Properties s1 = Some p1 ->
  openapi.Properties s2 = Some p2 ->
  NoDup (omap.Keys p1) ->
  NoDup (omap.Keys p2) ->
  (exists merged pm,
     mergeOpenapiSchemas s1 s2 allOf = Ok merged
     /\ openapi.Properties merged = Some pm
     /\ NoDup (omap.Keys pm)
     /\ (forall name,
          omap.Find name pm = mergedValue (omap.Find name p1) (omap.Find name p2))
     /\ (forall name v, omap.Find name p1 = Some v -> omap.Find name p2 = Some v ->
          omap.Find name pm = Some v))
  /\ (forall t1 t2 b, exists merged, mergeOpenapiSchemas t1 t2 b = Ok merged)
  /\ (forall (s : Schema) (a b : Property),
       PropertiesEqual a b = true ->
       AddProperty (set_Properties [a] s) b = Ok (set_Properties [a; b] s)
       /\ AddProperty (set_Properties [b] s) a = Ok (set_Properties [b; a] s))
  /\ (forall (s : Schema) (p e : Property),
       e ∈ Properties s -> JsonFieldName e = JsonFieldName p ->
       PropertiesEqual e p = false ->
       AddProperty s p = Err (errAlreadyExists (JsonFieldName p))).
Proof.
  intros Hp1 Hp2 Hn1 Hn2. split; [|split; [|split]].
  - unfold mergeOpenapiSchemas, openapi.PropertiesToMap. rewrite Hp1, Hp2.
    eexists _, (mergeProperties p1 p2). split; [reflexivity|].
    split; [destruct (openapi.Required s1), (openapi.Required s2); by destruct s1|].
    split; [by apply NoDup_mergeProperties|].
    split; [intros; by apply Find_mergeProperties|].
    intros name v Hv1 Hv2. rewrite Find_mergeProperties, Hv1, Hv2 by done.
    cbn. by destruct (shouldReplaceExisting v v).
  - intros. eexists. reflexivity.
  - intros s a b Heq. split.
    + rewrite AddProperty_ok; [by destruct s|].
      destruct s; cbn. intros e He _. by apply list_elem_of_singleton in He as ->.
    + rewrite AddProperty_ok; [by destruct s|].
      destruct s; cbn. intros e He _. apply list_elem_of_singleton in He as ->.
      by rewrite PropertiesEqual_sym.
  - intros s p e. apply AddProperty_collision.
Qed.

(** Two object schemas that declare [id], as a string and as an integer. *)
Definition withId (t : string) : openapi.Schema :=
  openapi.mkSchema ["object"] "" "" []
    (Some [("id", Sample.inline (Sample.typed t))]) [] None None None None
    false ∅ false None None None None None.

Definition allOfTwoIds : openapi.Schema :=
  openapi.mkSchema [] "" "" [] None []
    (Some [Sample.inline (withId "string"); Sample.inline (withId "integer")])
    None None None false ∅ false None None None None None.

(** C1, as amended, on the two schemas. *)
Lemma C1_merge_witness :
  (exists merged pm,
     mergeOpenapiSchemas (withId "string") (withId "integer") true = Ok merged
     /\ openapi.Properties merged = Some pm
     /\ NoDup (omap.Keys pm)
     /\ (forall name,
          omap.Find name pm =
          mergedValue
            (omap.Find name [("id", Sample.inline (Sample.typed "string"))])
            (omap.Find name [("id", Sample.inline (Sample.typed "integer"))]))
     /\ (forall name v,
          omap.Find name [("id", Sample.inline (Sample.typed "string"))] = Some v ->
          omap.Find name [("id", Sample.inline (Sample.typed "integer"))] = Some v ->
          omap.Find name pm = Some v))
  /\ (forall t1 t2 b, exists merged, mergeOpenapiSchemas t1 t2 b = Ok merged)
  /\ (forall (s : Schema) (a b : Property),
       PropertiesEqual a b = true ->
       AddProperty (set_Properties [a] s) b = Ok (set_Properties [a; b] s)
       /\ AddProperty (set_Properties [b] s) a = Ok (set_Properties [b; a] s))
  /\ (forall (s : Schema) (p e : Property),
       e ∈ Properties s -> JsonFieldName e = JsonFieldName p ->
       PropertiesEqual e p = false ->
       AddProperty s p = Err (errAlreadyExists (JsonFieldName p))).
Proof.
  apply (C1_merge_keeps_one_property_per_name
           (withId "string") (withId "integer") true
           [("id", Sample.inline (Sample.typed "string"))]
           [("id", Sample.inline (Sample.typed "integer"))]);
    try reflexivity; apply NoDup_singleton.
Defined.

(** C1, as the claim states it, fails on the two schemas: the merge
    returns the first schema's [id], and compiling the allOf of the two
    gives a struct with the one string field. *)
Lemma C1_conflicting_types_merge_without_error :
  mergeOpenapiSchemas (withId "string") (withId "integer") true
    = Ok (withId "string")
  /\ (exists d, GenerateGoSchema Sample.env 3 (Some (Sample.inline allOfTwoIds))
                  ["Owner"; "pet"] = Returns (Ok d)
                /\ map JsonFieldName (Properties d) = ["id"]
                /\ map (fun p => GoType (P_Schema p)) (Properties d) = ["string"]).
Proof.
  split; [reflexivity|].
  eexists. split; [vm_compute; reflexivity | split; reflexivity].
Qed.

(* ===================================================================== *)
(** ** Renaming of duplicate type names *)
(* ===================================================================== *)

(** Modelled from the spec: [autoRenameType], whose source file is not among
    the sources (only its tests in duplicate_typename_test.go are).  The
    spec has it append a numeric suffix starting at 2, probing upward, check
    2 through 10, and return the empty name when all probes collide.
    [probe original existingTypes i attempts] tries the suffixes [i],
    [i + 1], ... for [attempts] attempts. *)
Fixpoint probe (original : string) (existingTypes : gmap string TypeDefinition)
    (i attempts : nat) : string :=
  match attempts with
  | 0 => ""
  | S attempts' =>
      let candidate := original +:+ fmt_d i in
      match existingTypes !! candidate with
      | Some _ => probe original existingTypes (S i) attempts'
      | None => candidate
      end
  end.

Definition autoRenameType (original : string)
    (existingTypes : gmap string TypeDefinition) : string :=
  probe original existingTypes 2 9.

Section AutoRename.
Context (original : string) (existingTypes : gmap string TypeDefinition).

Lemma probe_exhausted attempts : forall i,
  (forall j, i <= j < i + attempts ->
     is_Some (existingTypes !! (original +:+ fmt_d j))) ->
  probe original existingTypes i attempts = "".
Proof.
  induction attempts as [|attempts IH]; intros i Htaken; cbn [probe]; [done|].
  destruct (Htaken i) as [td ->]; [lia|]. apply IH. intros j Hj.
  apply Htaken. lia.
Qed.

Lemma probe_first_free k : forall i attempts,
  k < attempts ->
  (forall j, i <= j < i + k ->
     is_Some (existingTypes !! (original +:+ fmt_d j))) ->
  existingTypes !! (original +:+ fmt_d (i + k)) = None ->
  probe original existingTypes i attempts = original +:+ fmt_d (i + k).
Proof.
  induction k as [|k IH]; intros i attempts Hk Htaken Hfree;
    (destruct attempts as [|attempts]; [lia|]); cbn [probe].
  - rewrite Nat.add_0_r in Hfree. rewrite Hfree. by rewrite Nat.add_0_r.
  - destruct (Htaken i) as [td ->]; [lia|].
    replace (i + S k) with (S i + k) in * by lia. apply IH; [lia| |done].
    intros j Hj. apply Htaken. lia.
Qed.

End AutoRename.

Lemma append_ne_self (s suffix : string) : suffix <> "" -> s +:+ suffix <> s.
Proof.
  intros Hne Heq. induction s as [|c s IH]; cbn in Heq; [done|].
  injection Heq as Heq. auto.
Qed.

(** C8.  [autoRenameType] probes the suffixes 2 to 10 in increasing order:
    it returns the name with the first suffix that is free; for a pool that
    holds just [N] and [N2] that is [N3]; and when [N2] to [N10] are all
    taken it returns the empty name. *)
Theorem C8_autoRename_probes_suffixes_2_to_10 (N : string) :
  (forall pool : gmap string TypeDefinition,
     dom pool = {[ N; N +:+ "2" ]} -> autoRenameType N pool = N +:+ "3")
  /\ (forall pool : gmap string TypeDefinition,
       (forall i, 2 <= i <= 10 -> is_Some (pool !! (N +:+ fmt_d i))) ->
       autoRenameType N pool = "")
  /\ (forall (pool : gmap string TypeDefinition) (i : nat),
       2 <= i <= 10 ->
       (forall j, 2 <= j < i -> is_Some (pool !! (N +:+ fmt_d j))) ->
       pool !! (N +:+ fmt_d i) = None ->
       autoRenameType N pool = N +:+ fmt_d i).
Proof.
  assert (Hfirst : forall (pool : gmap string TypeDefinition) (i : nat),
       2 <= i <= 10 ->
       (forall j, 2 <= j < i -> is_Some (pool !! (N +:+ fmt_d j))) ->
       pool !! (N +:+ fmt_d i) = None ->
       autoRenameType N pool = N +:+ fmt_d i).
  { intros pool i Hi Htaken Hfree. unfold autoRenameType.
    replace i with (2 + (i - 2)) in * by lia.
    apply probe_first_free; [lia| |done].
    intros j Hj. apply Htaken. lia. }
  split; [|split; [|exact Hfirst]].
  - intros pool Hdom. apply (Hfirst pool 3); [lia| |].
    + intros j Hj. assert (j = 2) as -> by lia.
      apply elem_of_dom. rewrite Hdom.
      rewrite elem_of_union, !elem_of_singleton. by right.
    + apply not_elem_of_dom. rewrite Hdom.
      rewrite elem_of_union, !elem_of_singleton. intros [Heq|Heq].
      * by apply append_ne_self in Heq.
      * by apply (inj (String.app N)) in Heq.
  - intros pool Htaken. unfold autoRenameType. apply probe_exhausted.
    intros j Hj. apply Htaken. lia.
Qed.

(** The pools of [TestAutoRenameFunction] and [TestAutoRenameExhaustion]. *)
Definition named (name : string) : TypeDefinition :=
  mkTypeDefinition name "" Schema_zero.

Definition accountTypes : gmap string TypeDefinition :=
  {[ "AccountType" := named "AccountType";
     "AccountType2" := named "AccountType2" ]}.

Definition overloadedTypes : gmap string TypeDefinition :=
  list_to_map
    (map (fun name => (name, named name))
       ["OverloadedType"; "OverloadedType2"; "OverloadedType3";
        "OverloadedType4"; "OverloadedType5"; "OverloadedType6";
        "OverloadedType7"; "OverloadedType8"; "OverloadedType9";
        "OverloadedType10"]).

(** C8 on the pools of the tests. *)
Lemma C8_autoRename_witness :
  autoRenameType "AccountType" accountTypes = "AccountType3"
  /\ autoRenameType "OverloadedType" overloadedTypes = "".
Proof.
  destruct (C8_autoRename_probes_suffixes_2_to_10 "AccountType") as [H3 _].
  destruct (C8_autoRename_probes_suffixes_2_to_10 "OverloadedType")
    as (_ & Hfull & _).
  split.
  - apply H3. apply leibniz_equiv. unfold accountTypes.
    rewrite dom_insert, dom_singleton. set_solver.
  - apply Hfull. intros i Hi.
    do 11 (destruct i as [|i]; [first [lia | by eexists]|]). lia.
Defined.

(** The expectations of [TestAutoRenameFunction] that name no taken
    suffix. *)
Example autoRenameType_tests :
  autoRenameType "UserType" accountTypes = "UserType2"
  /\ autoRenameType "TestType" accountTypes = "TestType2".
Proof. split; reflexivity. Qed.

(* ===================================================================== *)
(** ** The prune pass (prune.go) *)
(* ===================================================================== *)

Record RefWrapper : Type := mkRefWrapper {
  Ref : string;
  HasValue : bool;
}.

(** The walk over the document.  The callback [doFn] sees each reference
    cell and the state it has built so far; it answers whether to descend.
    The results of the [walk...] functions are all discarded by their
    callers ([_ = walk...]), so a walk is the state it leaves.  The document
    is a tree of cells, so the visited set of [walkSchemaRefWithVisited],
    which is keyed by the identity of cells, never holds the cell at hand and
    is left out. *)
Section Walk.
Context {St : Type} (doFn : RefWrapper -> St -> St * res bool).

(** The common prologue: call [doFn]; go on when it returned no error,
    asked to continue, and the cell has a value. *)
Definition enter (ref : string) (hasValue : bool) (st : St) : St * bool :=
  let '(st, r) := doFn (mkRefWrapper ref hasValue) st in
  (st, match r with Ok true => hasValue | _ => false end).

Definition isSome {A} (o : option A) : bool :=
  match o with Some _ => true | None => false end.

Fixpoint walkSchemaRefWithVisited (ref : openapi.SchemaRef) (st : St)
    {struct ref} : St :=
  let '(st, continue) :=
    enter (openapi.Ref ref) (isSome (openapi.Value ref)) st in
  if continue then
    match openapi.Value ref with
    | None => st
    | Some value =>
        let st := fold_left (fun st schemaRef => walkSchemaRefWithVisited schemaRef st)
                            (openapi.Ref_OneOf ref) st in
        let st := fold_left (fun st schemaRef => walkSchemaRefWithVisited schemaRef st)
                            (openapi.Ref_AnyOf ref) st in
        let st := fold_left (fun st schemaRef => walkSchemaRefWithVisited schemaRef st)
                            (openapi.Ref_AllOf ref) st in
        let st := match openapi.Ref_Not ref with
                  | Some r => walkSchemaRefWithVisited r st
                  | None => st
                  end in
        let st := match openapi.Ref_Items ref with
                  | Some r => walkSchemaRefWithVisited r st
                  | None => st
                  end in
        let st := match openapi.Properties value with
                  | Some props =>
                      fold_left (fun st kv => walkSchemaRefWithVisited kv.2 st)
                                props st
                  | None => st
                  end in
        match openapi.Ref_AdditionalProperties ref with
        | Some r => walkSchemaRefWithVisited r st
        | None => st
        end
    end
  else st.

Definition walkSchemaRef (ref : option openapi.SchemaRef) (st : St) : St :=
  match ref with
  | None => st
  | Some ref => walkSchemaRefWithVisited ref st
  end.

Definition walkExampleRef (ref : openapi.ExampleRef) (st : St) : St :=
  (enter (openapi.Example_Ref ref) (openapi.Example_HasValue ref) st).1.

Definition walkLinkRef (ref : openapi.LinkRef) (st : St) : St :=
  (enter (openapi.Link_Ref ref) (openapi.Link_HasValue ref) st).1.

Definition walkSecuritySchemeRef (ref : openapi.SecuritySchemeRef) (st : St) : St :=
  (enter (openapi.SecurityScheme_Ref ref) (openapi.SecurityScheme_HasValue ref) st).1.

(** The loop over a [Content] map. *)
Definition walkContent (content : openapi.Content) (st : St) : St :=
  fold_left
    (fun st kv =>
       match kv.2 with
       | None => st
       | Some mediaType =>
           let st := walkSchemaRef (openapi.MediaType_Schema mediaType) st in
           fold_left (fun st ex => walkExampleRef ex.2 st)
                     (openapi.MediaType_Examples mediaType) st
       end)
    content st.

Definition walkHeaderRef (ref : openapi.HeaderRef) (st : St) : St :=
  let '(st, continue) :=
    enter (openapi.Header_Ref ref) (isSome (openapi.Header_Value ref)) st in
  if continue then
    match openapi.Header_Value ref with
    | None => st
    | Some value => walkSchemaRef (openapi.Header_Schema value) st
    end
  else st.

Definition walkParameterRef (ref : openapi.ParameterRef) (st : St) : St :=
  let '(st, continue) :=
    enter (openapi.Parameter_Ref ref) (isSome (openapi.Parameter_Value ref)) st in
  if continue then
    match openapi.Parameter_Value ref with
    | None => st
    | Some value =>
        let st := walkSchemaRef (openapi.Parameter_Schema value) st in
        let st := fold_left (fun st ex => walkExampleRef ex.2 st)
                            (openapi.Parameter_Examples value) st in
        walkContent (openapi.Parameter_Content value) st
    end
  else st.

Definition walkRequestBodyRef (ref : option openapi.RequestBodyRef) (st : St)
  : St :=
  match ref with
  | None => st
  | Some ref =>
      let '(st, continue) :=
        enter (openapi.RequestBody_Ref ref)
              (isSome (openapi.RequestBody_Value ref)) st in
      if continue then
        match openapi.RequestBody_Value ref with
        | None => st
        | Some value => walkContent (openapi.RequestBody_Content value) st
        end
      else st
  end.

Definition walkResponseRef (ref : openapi.ResponseRef) (st : St) : St :=
  let '(st, continue) :=
    enter (openapi.Response_Ref ref) (isSome (openapi.Response_Value ref)) st in
  if continue then
    match openapi.Response_Value ref with
    | None => st
    | Some value =>
        let st := fold_left (fun st h => walkHeaderRef h.2 st)
                            (openapi.Response_Headers value) st in
        let st := walkContent (openapi.Response_Content value) st in
        fold_left (fun st l => walkLinkRef l.2 st)
                  (openapi.Response_Links value) st
    end
  else st.

(** [walkOperation], [walkCallbackRef], and the walk over one path item
    (its parameters, then its operations) that [walkSwagger] and
    [walkCallbackRef] both spell out. *)
Fixpoint walkOperation (op : openapi.Operation) (st : St) {struct op} : St :=
  let st := fold_left (fun st param => walkParameterRef param st)
              (openapi.ParametersToRefSlice (openapi.Operation_Parameters op))
              st in
  let st := walkRequestBodyRef (openapi.Operation_RequestBody op) st in
  let st := match openapi.Operation_Responses op with
            | Some responses =>
                fold_left (fun st r => walkResponseRef r.2 st) responses st
            | None => st
            end in
  fold_left (fun st cb => walkCallbackRef cb.2 st)
            (openapi.Operation_Callbacks op) st
with walkCallbackRef (ref : openapi.CallbackRef) (st : St) {struct ref} : St :=
  let '(st, continue) :=
    enter (openapi.Callback_Ref ref) (isSome (openapi.Callback_Value ref)) st in
  if continue then
    match openapi.Callback_Value ref with
    | None => st
    | Some pathItems =>
        fold_left (fun st kv => walkPathItem kv.2 st) pathItems st
    end
  else st
with walkPathItem (pathItem : openapi.PathItem) (st : St) {struct pathItem} : St :=
  let st := fold_left (fun st param => walkParameterRef param st)
                      (openapi.PathItem_Parameters pathItem) st in
  fold_left (fun st kv => walkOperation kv.2 st)
            (openapi.PathItem_Operations pathItem) st.

(** The entries of a component map, in the order a [range] visits them. *)
Definition entries {A} (m : gmap string A) : list A := (map_to_list m).*2.

Definition walkComponents (components : option openapi.Components) (st : St)
  : St :=
  match components with
  | None => st
  | Some components =>
      let st := fold_left (fun st schema => walkSchemaRef (Some schema) st)
                          (entries (openapi.Schemas components)) st in
      let st := fold_left (fun st param => walkParameterRef param st)
                          (entries (openapi.Parameters components)) st in
      let st := fold_left (fun st header => walkHeaderRef header st)
                          (entries (openapi.Headers components)) st in
      let st := fold_left (fun st body => walkRequestBodyRef (Some body) st)
                          (entries (openapi.RequestBodies components)) st in
      let st := fold_left (fun st response => walkResponseRef response st)
                          (entries (openapi.Responses components)) st in
      let st := fold_left (fun st scheme => walkSecuritySchemeRef scheme st)
                          (entries (openapi.SecuritySchemes components)) st in
      let st := fold_left (fun st example => walkExampleRef example st)
                          (entries (openapi.Examples components)) st in
      let st := fold_left (fun st link => walkLinkRef link st)
                          (entries (openapi.Links components)) st in
      fold_left (fun st callback => walkCallbackRef callback st)
                (entries (openapi.Callbacks components)) st
  end.

Definition walkSwagger (swagger : option openapi.T) (st : St) : St :=
  match swagger with
  | None => st
  | Some swagger =>
      match openapi.Paths swagger with
      | None => st
      | Some paths =>
          let st := fold_left (fun st kv => walkPathItem kv.2 st) paths st in
          walkComponents (openapi.Components_ swagger) st
      end
  end.

End Walk.

(** The callback of [findComponentRefs]: record a non-empty reference and
    do not descend below it. *)
Definition recordRef (ref : RefWrapper) (refs : list string)
  : list string * res bool :=
  if negb (streq (Ref ref) "") then (refs ++ [Ref ref], Ok false)
  else (refs, Ok true).

(** The references that the walk of [findComponentRefs] records. *)
Definition walkedRefs (swagger : option openapi.T) : list string :=
  walkSwagger recordRef swagger [].

(** The loop of the "temporary fix": every component schema whose
    reference the list lacks is added to it. *)
Definition markSchemas (names : list string) (refs : list string) : list string :=
  fold_left
    (fun refs schemaName =>
       let schemaRef := "#/components/schemas/" +:+ schemaName in
       if stringInSlice schemaRef refs then refs else refs ++ [schemaRef])
    names refs.

Definition findComponentRefs (swagger : option openapi.T) : list string :=
  let refs := walkedRefs swagger in
  match swagger with
  | Some doc =>
      match openapi.Components_ doc with
      | Some components =>
          markSchemas (map_to_list (openapi.Schemas components)).*1 refs
      | None => refs
      end
  | None => refs
  end.

(** One loop of [removeOrphanedComponents]: a [range] over the map [m] that
    deletes from it, and counts, each key whose reference is not in
    [refs]. *)
Definition removeOrphans {A} (prefix : string) (refs : list string)
    (m : gmap string A) : gmap string A * nat :=
  map_fold
    (fun key _ acc =>
       if negb (stringInSlice (prefix +:+ key) refs)
       then (delete key acc.1, S acc.2)
       else acc)
    (m, 0) m.

(** [removeOrphanedComponents]: the components after the call and
    [countRemoved].  The security schemes are not looked at. *)
Definition removeOrphanedInComponents (c : openapi.Components)
    (refs : list string) : openapi.Components * nat :=
  let '(schemas, n1) := removeOrphans "#/components/schemas/" refs (openapi.Schemas c) in
  let '(parameters, n2) := removeOrphans "#/components/parameters/" refs (openapi.Parameters c) in
  let '(requestBodies, n3) := removeOrphans "#/components/requestBodies/" refs (openapi.RequestBodies c) in
  let '(responses, n4) := removeOrphans "#/components/responses/" refs (openapi.Responses c) in
  let '(headers, n5) := removeOrphans "#/components/headers/" refs (openapi.Headers c) in
  let '(examples, n6) := removeOrphans "#/components/examples/" refs (openapi.Examples c) in
  let '(links, n7) := removeOrphans "#/components/links/" refs (openapi.Links c) in
  let '(callbacks, n8) := removeOrphans "#/components/callbacks/" refs (openapi.Callbacks c) in
  (openapi.mkComponents schemas parameters responses requestBodies headers
     (openapi.SecuritySchemes c) examples callbacks links,
   n1 + n2 + n3 + n4 + n5 + n6 + n7 + n8).

Definition removeOrphanedComponents (swagger : option openapi.T)
    (refs : list string) : option openapi.T * nat :=
  match swagger with
  | None => (None, 0)
  | Some doc =>
      match openapi.Components_ doc with
      | None => (swagger, 0)
      | Some c =>
          let '(c', countRemoved) := removeOrphanedInComponents c refs in
          (Some (openapi.mkT (openapi.Paths doc) (Some c')), countRemoved)
      end
  end.

(** The loop of [pruneUnusedComponents], for at most [passes] passes;
    [None] when more passes are needed. *)
Fixpoint pruneLoop (passes : nat) (swagger : option openapi.T)
  : option (option openapi.T) :=
  match passes with
  | 0 => None
  | S passes' =>
      let refs := findComponentRefs swagger in
      let '(swagger', countRemoved) := removeOrphanedComponents swagger refs in
      if (countRemoved <? 1)%nat then Some swagger'
      else pruneLoop passes' swagger'
  end.

(** The number of named components that a pass may delete. *)
Definition componentCount (swagger : option openapi.T) : nat :=
  match swagger with
  | Some doc =>
      match openapi.Components_ doc with
      | Some c =>
          size (openapi.Schemas c) + size (openapi.Parameters c) +
          size (openapi.RequestBodies c) + size (openapi.Responses c) +
          size (openapi.Headers c) + size (openapi.Examples c) +
          size (openapi.Links c) + size (openapi.Callbacks c)
      | None => 0
      end
  | None => 0
  end.

(** [pruneUnusedComponents]: a pass that deletes nothing comes after at
    most [componentCount] passes that delete something. *)
Definition pruneUnusedComponents (swagger : option openapi.T)
  : option (option openapi.T) :=
  match swagger with
  | None => Some None
  | Some _ => pruneLoop (S (componentCount swagger)) swagger
  end.

(** A document with no operations and one component schema that nothing
    references. *)
Definition noComponents : openapi.Components :=
  openapi.mkComponents ∅ ∅ ∅ ∅ ∅ ∅ ∅ ∅ ∅.

Definition orphanSchemaDoc : openapi.T :=
  openapi.mkT (Some [])
    (Some (openapi.mkComponents
             {[ "Orphan" := Sample.inline (Sample.typed "string") ]}
             ∅ ∅ ∅ ∅ ∅ ∅ ∅ ∅)).

(** The same with an unreferenced parameter instead. *)
Definition orphanParameterDoc : openapi.T :=
  openapi.mkT (Some [])
    (Some (openapi.mkComponents ∅
             {[ "limit" := openapi.mkParameterRef "" None ]}
             ∅ ∅ ∅ ∅ ∅ ∅ ∅)).

Section RemoveOrphans.
Context {A : Type} (prefix : string) (refs : list string).
Implicit Types m : gmap string A.

(** The entries that a pass deletes. *)
Definition orphan (kv : string * A) : Prop :=
  stringInSlice (prefix +:+ kv.1) refs = false.

Local Instance orphan_dec kv : Decision (orphan kv).
Proof. unfold orphan. apply _. Defined.

Lemma removeOrphans_spec m :
  removeOrphans prefix refs m = (m ∖ filter orphan m, size (filter orphan m)).
Proof.
  unfold removeOrphans. generalize m at 1 3 as m0. intros m0.
  apply (map_fold_weak_ind
           (fun r m => r = (m0 ∖ filter orphan m, size (filter orphan m)))).
  - by rewrite map_filter_empty, map_difference_empty, map_size_empty.
  - intros key x m' r Hkey ->. cbn [fst snd].
    destruct (stringInSlice (prefix +:+ key) refs) eqn:Hin; cbn [negb].
    + by rewrite map_filter_insert_not by (unfold orphan; cbn; congruence).
    + rewrite map_filter_insert_True by done.
      rewrite (delete_difference _ _ key x).
      rewrite map_size_insert_None; [done|].
      apply map_lookup_filter_None_2. by left.
Qed.

Lemma removeOrphans_lookup m key x :
  (removeOrphans prefix refs m).1 !! key = Some x <->
  m !! key = Some x /\ stringInSlice (prefix +:+ key) refs = true.
Proof.
  rewrite removeOrphans_spec. cbn [fst].
  rewrite lookup_difference_Some, map_lookup_filter_None. unfold orphan. cbn.
  split.
  - intros [Hm [Hnone|Hkeep]]; [congruence|]. split; [done|].
    specialize (Hkeep x Hm). by destruct (stringInSlice _ _).
  - intros [Hm Hin]. split; [done|]. right. intros y _. congruence.
Qed.

Lemma removeOrphans_size m :
  size (removeOrphans prefix refs m).1 + (removeOrphans prefix refs m).2 = size m.
Proof.
  rewrite removeOrphans_spec. cbn [fst snd].
  pose proof (map_filter_subseteq orphan m) as Hsub.
  assert (Hdisj : m ∖ filter orphan m ##ₘ filter orphan m)
    by by apply map_disjoint_difference_l1.
  rewrite <- (map_size_disj_union _ _ Hdisj).
  by rewrite map_union_comm, map_difference_union.
Qed.

Lemma removeOrphans_none m :
  (removeOrphans prefix refs m).2 = 0 -> (removeOrphans prefix refs m).1 = m.
Proof.
  rewrite removeOrphans_spec. cbn [fst snd]. intros H0.
  apply map_size_empty_inv in H0. by rewrite H0, map_difference_empty.
Qed.

Lemma removeOrphans_all_kept m :
  (forall key x, m !! key = Some x -> stringInSlice (prefix +:+ key) refs = true) ->
  removeOrphans prefix refs m = (m, 0).
Proof.
  intros Hall. rewrite removeOrphans_spec.
  assert (filter orphan m = ∅) as ->.
  { apply map_empty. intros key. apply map_lookup_filter_None_2.
    destruct (m !! key) as [x|] eqn:Hm; [right | by left].
    intros y [= <-]. unfold orphan. cbn. by rewrite (Hall key x). }
  by rewrite map_difference_empty, map_size_empty.
Qed.

End RemoveOrphans.

Lemma stringInSlice_true (a : string) (l : list string) :
  stringInSlice a l = true <-> a ∈ l.
Proof.
  unfold stringInSlice. rewrite existsb_exists, list_elem_of_In. split.
  - intros (b & Hb & Heq). apply streq_true in Heq. by subst.
  - intros Ha. exists a. by rewrite streq_refl.
Qed.

Section MarkSchemas.

Definition schemaRefOf (name : string) : string :=
  "#/components/schemas/" +:+ name.

Lemma markSchemas_spec names : forall refs x,
  x ∈ markSchemas names refs <->
  x ∈ refs \/ exists name, name ∈ names /\ x = schemaRefOf name.
Proof.
  unfold markSchemas.
  induction names as [|name names IH]; intros refs x; cbn [fold_left].
  - split; [by left|]. intros [?|(name & Hname & _)]; [done|].
    by apply elem_of_nil in Hname.
  - rewrite IH. fold (schemaRefOf name).
    destruct (stringInSlice (schemaRefOf name) refs) eqn:Hin.
    + apply stringInSlice_true in Hin. split.
      * intros [?|(n & Hn & ->)]; [by left|]. right. exists n. split; [by right|done].
      * intros [?|(n & Hn & ->)]; [by left|].
        apply elem_of_cons in Hn as [->|Hn]; [by left|]. right. by exists n.
    + rewrite elem_of_app, list_elem_of_singleton. split.
      * intros [[? | ->]|(n & Hn & ->)]; [by left| |].
        -- right. exists name. split; [by left|done].
        -- right. exists n. split; [by right|done].
      * intros [?|(n & Hn & ->)]; [by left; left|].
        apply elem_of_cons in Hn as [->|Hn]; [left; by right|]. right. by exists n.
Qed.

End MarkSchemas.

Section PruneFacts.

(** What a run of passes keeps: the paths, the security schemes and the
    component schemas. *)
Definition keeps (before after : option openapi.T) : Prop :=
  match before, after with
  | None, None => True
  | Some d, Some d' =>
      openapi.Paths d' = openapi.Paths d
      /\ match openapi.Components_ d, openapi.Components_ d' with
         | None, None => True
         | Some c, Some c' =>
             openapi.SecuritySchemes c' = openapi.SecuritySchemes c
             /\ openapi.Schemas c' = openapi.Schemas c
         | _, _ => False
         end
  | _, _ => False
  end.

Lemma keeps_refl swagger : keeps swagger swagger.
Proof. destruct swagger as [[paths [c|]]|]; cbn; auto. Qed.

Lemma keeps_trans a b c : keeps a b -> keeps b c -> keeps a c.
Proof.
  destruct a as [[pa [ca|]]|], b as [[pb [cb|]]|], c as [[pc [cc|]]|];
    cbn; try tauto; intuition congruence.
Qed.

(** Every component schema is in the list of [findComponentRefs]. *)
Lemma findComponentRefs_has_schemas doc c name sref :
  openapi.Components_ doc = Some c ->
  openapi.Schemas c !! name = Some sref ->
  stringInSlice ("#/components/schemas/" +:+ name)
                (findComponentRefs (Some doc)) = true.
Proof.
  intros Hc Hname. apply stringInSlice_true. unfold findComponentRefs.
  rewrite Hc. apply markSchemas_spec. right. exists name. split; [|done].
  apply list_elem_of_fmap. exists (name, sref). split; [done|].
  by apply elem_of_map_to_list.
Qed.

(** A pass: what it keeps, how many components are left, and that a
    pass that counts nothing changes nothing. *)
Lemma removeOrphanedComponents_pass swagger :
  let refs := findComponentRefs swagger in
  let r := removeOrphanedComponents swagger refs in
  keeps swagger r.1
  /\ componentCount r.1 + r.2 = componentCount swagger
  /\ (r.2 = 0 -> r.1 = swagger).
Proof.
  cbn zeta. destruct swagger as [doc|]; [|by cbn].
  unfold removeOrphanedComponents.
  destruct (openapi.Components_ doc) as [c|] eqn:Hc;
    [|cbn; rewrite Hc; repeat split; lia].
  set (refs := findComponentRefs (Some doc)).
  unfold removeOrphanedInComponents.
  assert (Hschemas :
    removeOrphans "#/components/schemas/" refs (openapi.Schemas c) =
    (openapi.Schemas c, 0)).
  { apply removeOrphans_all_kept. intros key x Hx.
    by apply (findComponentRefs_has_schemas doc c key x). }
  rewrite Hschemas.
  pose proof (removeOrphans_size "#/components/parameters/" refs (openapi.Parameters c)) as H2.
  pose proof (removeOrphans_size "#/components/requestBodies/" refs (openapi.RequestBodies c)) as H3.
  pose proof (removeOrphans_size "#/components/responses/" refs (openapi.Responses c)) as H4.
  pose proof (removeOrphans_size "#/components/headers/" refs (openapi.Headers c)) as H5.
  pose proof (removeOrphans_size "#/components/examples/" refs (openapi.Examples c)) as H6.
  pose proof (removeOrphans_size "#/components/links/" refs (openapi.Links c)) as H7.
  pose proof (removeOrphans_size "#/components/callbacks/" refs (openapi.Callbacks c)) as H8.
  pose proof (removeOrphans_none "#/components/parameters/" refs (openapi.Parameters c)) as N2.
  pose proof (removeOrphans_none "#/components/requestBodies/" refs (openapi.RequestBodies c)) as N3.
  pose proof (removeOrphans_none "#/components/responses/" refs (openapi.Responses c)) as N4.
  pose proof (removeOrphans_none "#/components/headers/" refs (openapi.Headers c)) as N5.
  pose proof (removeOrphans_none "#/components/examples/" refs (openapi.Examples c)) as N6.
  pose proof (removeOrphans_none "#/components/links/" refs (openapi.Links c)) as N7.
  pose proof (removeOrphans_none "#/components/callbacks/" refs (openapi.Callbacks c)) as N8.
  destruct (removeOrphans "#/components/parameters/" refs _) as [m2 n2].
  destruct (removeOrphans "#/components/requestBodies/" refs _) as [m3 n3].
  destruct (removeOrphans "#/components/responses/" refs _) as [m4 n4].
  destruct (removeOrphans "#/components/headers/" refs _) as [m5 n5].
  destruct (removeOrphans "#/components/examples/" refs _) as [m6 n6].
  destruct (removeOrphans "#/components/links/" refs _) as [m7 n7].
  destruct (removeOrphans "#/components/callbacks/" refs _) as [m8 n8].
  cbn [fst snd] in *. split; [|split].
  - cbn. by rewrite Hc.
  - cbn. rewrite Hc. lia.
  - intros Hzero.
    rewrite N2, N3, N4, N5, N6, N7, N8 by lia.
    destruct doc as [paths comps]; cbn in *. subst comps. by destruct c.
Qed.

Lemma pruneLoop_reaches_fixed_point passes : forall swagger,
  componentCount swagger <= passes ->
  exists r,
    pruneLoop (S passes) swagger = Some r
    /\ removeOrphanedComponents r (findComponentRefs r) = (r, 0)
    /\ keeps swagger r.
Proof.
  induction passes as [|passes IH]; intros swagger Hcount;
    cbn [pruneLoop];
    destruct (removeOrphanedComponents_pass swagger) as (Hkeeps & Hsize & Hnone);
    destruct (removeOrphanedComponents swagger (findComponentRefs swagger))
      as [swagger' countRemoved] eqn:Hpass; cbn [fst snd] in *.
  - assert (countRemoved = 0) as -> by lia. cbn.
    exists swagger'. rewrite (Hnone eq_refl) in *. by rewrite Hpass.
  - destruct countRemoved as [|n]; cbn [Nat.ltb Nat.leb].
    + exists swagger'. rewrite (Hnone eq_refl) in *. by rewrite Hpass.
    + destruct (IH swagger') as (r & Hr & Hfix & Hk); [lia|].
      exists r. split; [exact Hr|]. split; [done|].
      by apply (keeps_trans _ swagger').
Qed.

(** The prune pass ends, at a document that the next pass leaves as it is,
    with the paths, the security schemes and the component schemas it
    started with. *)
Lemma pruneUnusedComponents_reaches_fixed_point swagger :
  exists r,
    pruneUnusedComponents swagger = Some r
    /\ removeOrphanedComponents r (findComponentRefs r) = (r, 0)
    /\ keeps swagger r.
Proof.
  destruct swagger as [doc|]; [|by exists None].
  by apply pruneLoop_reaches_fixed_point.
Qed.

End PruneFacts.

(** C2 on the two documents: the walk of the document with the
    unreferenced schema records nothing, yet pruning keeps the schema; the
    unreferenced parameter of the other document is deleted. *)
Lemma C2_unreferenced_schema_survives_pruning :
  walkedRefs (Some orphanSchemaDoc) = []
  /\ pruneUnusedComponents (Some orphanSchemaDoc) = Some (Some orphanSchemaDoc)
  /\ walkedRefs (Some orphanParameterDoc) = []
  /\ pruneUnusedComponents (Some orphanParameterDoc)
     = Some (Some (openapi.mkT (Some []) (Some noComponents))).
Proof. repeat split; vm_compute; reflexivity. Qed.


(* ===================================================================== *)
(** ** The prune pass: what a pass keeps, and what survives *)
(* ===================================================================== *)

Section PrunePass.

(** [m'] holds exactly the entries of [m] whose reference is in [refs]. *)
Definition keptExactly {A} (prefix : string) (refs : list string)
    (m m' : gmap string A) : Prop :=
  forall name, m' !! name = if bool_decide (prefix +:+ name ∈ refs)
                            then m !! name else None.

Lemma removeOrphans_keptExactly {A} prefix refs (m : gmap string A) :
  keptExactly prefix refs m (removeOrphans prefix refs m).1.
Proof.
  intros name. apply option_eq. intros x.
  rewrite removeOrphans_lookup, stringInSlice_true.
  case_bool_decide as Hin; [tauto|]. split; [tauto | done].
Qed.

(** What [removeOrphanedInComponents] keeps of each kind of component. *)
Definition keptComponents (refs : list string) (c c' : openapi.Components)
  : Prop :=
  openapi.SecuritySchemes c' = openapi.SecuritySchemes c
  /\ keptExactly "#/components/schemas/" refs
       (openapi.Schemas c) (openapi.Schemas c')
  /\ keptExactly "#/components/parameters/" refs
       (openapi.Parameters c) (openapi.Parameters c')
  /\ keptExactly "#/components/requestBodies/" refs
       (openapi.RequestBodies c) (openapi.RequestBodies c')
  /\ keptExactly "#/components/responses/" refs
       (openapi.Responses c) (openapi.Responses c')
  /\ keptExactly "#/components/headers/" refs
       (openapi.Headers c) (openapi.Headers c')
  /\ keptExactly "#/components/examples/" refs
       (openapi.Examples c) (openapi.Examples c')
  /\ keptExactly "#/components/links/" refs
       (openapi.Links c) (openapi.Links c')
  /\ keptExactly "#/components/callbacks/" refs
       (openapi.Callbacks c) (openapi.Callbacks c').

(** The number of entries that [componentCount] counts. *)
Definition entryCount (c : openapi.Components) : nat :=
  size (openapi.Schemas c) + size (openapi.Parameters c) +
  size (openapi.RequestBodies c) + size (openapi.Responses c) +
  size (openapi.Headers c) + size (openapi.Examples c) +
  size (openapi.Links c) + size (openapi.Callbacks c).

Lemma removeOrphanedInComponents_kept c refs :
  keptComponents refs c (removeOrphanedInComponents c refs).1
  /\ entryCount (removeOrphanedInComponents c refs).1 +
     (removeOrphanedInComponents c refs).2 = entryCount c.
Proof.
  unfold removeOrphanedInComponents, keptComponents, entryCount.
  pose proof (removeOrphans_keptExactly "#/components/schemas/" refs (openapi.Schemas c)) as K1.
  pose proof (removeOrphans_keptExactly "#/components/parameters/" refs (openapi.Parameters c)) as K2.
  pose proof (removeOrphans_keptExactly "#/components/requestBodies/" refs (openapi.RequestBodies c)) as K3.
  pose proof (removeOrphans_keptExactly "#/components/responses/" refs (openapi.Responses c)) as K4.
  pose proof (removeOrphans_keptExactly "#/components/headers/" refs (openapi.Headers c)) as K5.
  pose proof (removeOrphans_keptExactly "#/components/examples/" refs (openapi.Examples c)) as K6.
  pose proof (removeOrphans_keptExactly "#/components/links/" refs (openapi.Links c)) as K7.
  pose proof (removeOrphans_keptExactly "#/components/callbacks/" refs (openapi.Callbacks c)) as K8.
  pose proof (removeOrphans_size "#/components/schemas/" refs (openapi.Schemas c)) as H1.
  pose proof (removeOrphans_size "#/components/parameters/" refs (openapi.Parameters c)) as H2.
  pose proof (removeOrphans_size "#/components/requestBodies/" refs (openapi.RequestBodies c)) as H3.
  pose proof (removeOrphans_size "#/components/responses/" refs (openapi.Responses c)) as H4.
  pose proof (removeOrphans_size "#/components/headers/" refs (openapi.Headers c)) as H5.
  pose proof (removeOrphans_size "#/components/examples/" refs (openapi.Examples c)) as H6.
  pose proof (removeOrphans_size "#/components/links/" refs (openapi.Links c)) as H7.
  pose proof (removeOrphans_size "#/components/callbacks/" refs (openapi.Callbacks c)) as H8.
  destruct (removeOrphans "#/components/schemas/" refs _) as [m1 n1].
  destruct (removeOrphans "#/components/parameters/" refs _) as [m2 n2].
  destruct (removeOrphans "#/components/requestBodies/" refs _) as [m3 n3].
  destruct (removeOrphans "#/components/responses/" refs _) as [m4 n4].
  destruct (removeOrphans "#/components/headers/" refs _) as [m5 n5].
  destruct (removeOrphans "#/components/examples/" refs _) as [m6 n6].
  destruct (removeOrphans "#/components/links/" refs _) as [m7 n7].
  destruct (removeOrphans "#/components/callbacks/" refs _) as [m8 n8].
  cbn [fst snd openapi.Schemas openapi.Parameters openapi.RequestBodies
       openapi.Responses openapi.Headers openapi.Examples openapi.Links
       openapi.Callbacks openapi.SecuritySchemes] in *.
  split; [|lia].
  exact (conj eq_refl (conj K1 (conj K2 (conj K3
    (conj K4 (conj K5 (conj K6 (conj K7 K8)))))))).
Qed.

(** One call of [removeOrphanedComponents], for any list of references:
    of every kind of component but the security schemes it keeps exactly
    the entries whose reference string is in the list; the security schemes
    and the paths stay as they are; and the number it returns is the number
    of entries it deleted. *)
Theorem removeOrphanedComponents_keeps_the_listed
    (doc : openapi.T) (c : openapi.Components) (refs : list string) :
  openapi.Components_ doc = Some c ->
  exists c' countRemoved,
    removeOrphanedComponents (Some doc) refs =
      (Some (openapi.mkT (openapi.Paths doc) (Some c')), countRemoved)
    /\ keptComponents refs c c'
    /\ entryCount c' + countRemoved = entryCount c.
Proof.
  intros Hc. unfold removeOrphanedComponents. rewrite Hc.
  destruct (removeOrphanedInComponents_kept c refs) as [Hkept Hcount].
  destruct (removeOrphanedInComponents c refs) as [c' countRemoved].
  by exists c', countRemoved.
Qed.

End PrunePass.

(** The pass on the document with the unreferenced parameter, with no
    reference listed. *)
Lemma removeOrphanedComponents_keeps_the_listed_witness :
  exists c' countRemoved,
    removeOrphanedComponents (Some orphanParameterDoc) [] =
      (Some (openapi.mkT (openapi.Paths orphanParameterDoc) (Some c')),
       countRemoved)
    /\ keptComponents []
         (openapi.mkComponents ∅
            {[ "limit" := openapi.mkParameterRef "" None ]}
            ∅ ∅ ∅ ∅ ∅ ∅ ∅) c'
    /\ entryCount c' + countRemoved =
       entryCount (openapi.mkComponents ∅
                     {[ "limit" := openapi.mkParameterRef "" None ]}
                     ∅ ∅ ∅ ∅ ∅ ∅ ∅).
Proof.
  apply (removeOrphanedComponents_keeps_the_listed orphanParameterDoc
           (openapi.mkComponents ∅
              {[ "limit" := openapi.mkParameterRef "" None ]}
              ∅ ∅ ∅ ∅ ∅ ∅ ∅) []).
  reflexivity.
Defined.

(* ===================================================================== *)
(** ** The walk of [findComponentRefs] only adds references *)
(* ===================================================================== *)

Section WalkRecords.

(** A walker that leaves the references recorded so far in place and may
    append to them. *)
Definition appends (f : list string -> list string) : Prop :=
  forall st, st `prefix_of` f st.

Lemma appends_id : appends (fun st => st).
Proof. by intros st. Qed.

Lemma appends_fold {A} (f : A -> list string -> list string) (l : list A) :
  Forall (fun a => appends (f a)) l ->
  appends (fun st => fold_left (fun st a => f a st) l st).
Proof.
  induction 1 as [|a l Ha _ IH]; intros st; cbn [fold_left]; [done|].
  etrans; [apply Ha | apply IH].
Qed.

Lemma appends_fold_all {A} (f : A -> list string -> list string) (l : list A) :
  (forall a, appends (f a)) ->
  appends (fun st => fold_left (fun st a => f a st) l st).
Proof. intros Hf. apply appends_fold, Forall_forall. auto. Qed.

Lemma appends_option {A} (f : A -> list string -> list string) (o : option A) :
  (forall a, o = Some a -> appends (f a)) ->
  appends (fun st => match o with Some a => f a st | None => st end).
Proof. intros Hf. destruct o as [a|]; [by apply Hf | apply appends_id]. Qed.

Lemma appends_enter ref hasValue :
  appends (fun st => (enter recordRef ref hasValue st).1).
Proof.
  intros st. unfold enter, recordRef. cbn.
  destruct (negb (streq ref "")); cbn; [by apply prefix_app_r | done].
Qed.

(** The goal is that a walk from [st] extends [st]: take the prologue
    [enter] of the walk apart. *)
Ltac entered :=
  match goal with
  | |- ?st `prefix_of` (let '(_, _) := enter recordRef ?ref ?hasValue ?st in _) =>
      let H := fresh "H" in
      let st' := fresh "st" in
      let continue := fresh "continue" in
      generalize (appends_enter ref hasValue st);
      destruct (enter recordRef ref hasValue st) as [st' continue];
      cbn [fst]; intros H; destruct continue; [|exact H];
      etrans; [exact H|]; clear H
  end.

(** The goal is that a walk from [st] extends [st]: split off the last
    walker, which [H] shows to append. *)
Ltac last_appends H := etrans; [|apply H].

Lemma walkSchemaRefWithVisited_appends :
  forall ref, appends (walkSchemaRefWithVisited recordRef ref).
Proof.
  fix IH 1. intros [r v items ap oneOf anyOf allOf not_].
  assert (HoneOf : Forall (fun x => appends (walkSchemaRefWithVisited recordRef x)) oneOf)
    by (clear -IH; induction oneOf; constructor; [apply IH | assumption]).
  assert (HanyOf : Forall (fun x => appends (walkSchemaRefWithVisited recordRef x)) anyOf)
    by (clear -IH; induction anyOf; constructor; [apply IH | assumption]).
  assert (HallOf : Forall (fun x => appends (walkSchemaRefWithVisited recordRef x)) allOf)
    by (clear -IH; induction allOf; constructor; [apply IH | assumption]).
  assert (Hnot : appends (fun st => match not_ with
                                    | Some x => walkSchemaRefWithVisited recordRef x st
                                    | None => st end))
    by (destruct not_ as [x|]; [apply IH | apply appends_id]).
  assert (Hitems : appends (fun st => match items with
                                      | Some x => walkSchemaRefWithVisited recordRef x st
                                      | None => st end))
    by (destruct items as [x|]; [apply IH | apply appends_id]).
  assert (Hap : appends (fun st => match ap with
                                   | Some x => walkSchemaRefWithVisited recordRef x st
                                   | None => st end))
    by (destruct ap as [x|]; [apply IH | apply appends_id]).
  destruct v as [value|].
  - assert (Hprops : appends (fun st =>
              match openapi.Properties value with
              | Some props =>
                  fold_left (fun st kv => walkSchemaRefWithVisited recordRef kv.2 st)
                            props st
              | None => st
              end)).
    { destruct value as [? ? ? ? props ? ? ? ? ? ? ? ? ? ? ? ? ?]. cbn.
      destruct props as [props|]; [|apply appends_id].
      apply (appends_fold
               (fun kv : string * openapi.SchemaRef =>
                  walkSchemaRefWithVisited recordRef kv.2)).
      clear -IH. induction props as [|[k x] props IHp]; constructor;
        [apply IH | assumption]. }
    intros st.
    cbn [walkSchemaRefWithVisited openapi.Ref openapi.Value openapi.Ref_OneOf
         openapi.Ref_AnyOf openapi.Ref_AllOf openapi.Ref_Not openapi.Ref_Items
         openapi.Ref_AdditionalProperties isSome].
    entered.
    last_appends Hap. last_appends Hprops. last_appends Hitems.
    last_appends Hnot.
    last_appends (appends_fold _ _ HallOf).
    last_appends (appends_fold _ _ HanyOf).
    apply (appends_fold _ _ HoneOf).
  - intros st.
    cbn [walkSchemaRefWithVisited openapi.Ref openapi.Value isSome].
    by entered.
Qed.

Lemma walkSchemaRef_appends ref : appends (walkSchemaRef recordRef ref).
Proof.
  destruct ref as [ref|]; [apply walkSchemaRefWithVisited_appends | apply appends_id].
Qed.

Lemma walkExampleRef_appends ref : appends (walkExampleRef recordRef ref).
Proof. apply appends_enter. Qed.

Lemma walkLinkRef_appends ref : appends (walkLinkRef recordRef ref).
Proof. apply appends_enter. Qed.

Lemma walkSecuritySchemeRef_appends ref :
  appends (walkSecuritySchemeRef recordRef ref).
Proof. apply appends_enter. Qed.

Lemma walkExamples_appends (examples : list (string * openapi.ExampleRef)) :
  appends (fun st => fold_left (fun st ex => walkExampleRef recordRef ex.2 st)
                               examples st).
Proof.
  apply (appends_fold_all
           (fun ex : string * openapi.ExampleRef => walkExampleRef recordRef ex.2)).
  intros ex. apply walkExampleRef_appends.
Qed.

Lemma walkContent_appends content : appends (walkContent recordRef content).
Proof.
  unfold walkContent.
  apply (appends_fold_all
           (fun (kv : string * option openapi.MediaType) st =>
              match kv.2 with
              | None => st
              | Some mediaType =>
                  let st := walkSchemaRef recordRef
                              (openapi.MediaType_Schema mediaType) st in
                  fold_left (fun st ex => walkExampleRef recordRef ex.2 st)
                            (openapi.MediaType_Examples mediaType) st
              end)).
  intros [k [mediaType|]] st; cbn; [|done].
  last_appends walkExamples_appends. apply walkSchemaRef_appends.
Qed.

Lemma walkHeaderRef_appends ref : appends (walkHeaderRef recordRef ref).
Proof.
  intros st. unfold walkHeaderRef. entered.
  destruct (openapi.Header_Value ref) as [value|]; [|done].
  apply walkSchemaRef_appends.
Qed.

Lemma walkParameterRef_appends ref : appends (walkParameterRef recordRef ref).
Proof.
  intros st. unfold walkParameterRef. entered.
  destruct (openapi.Parameter_Value ref) as [value|]; [|done].
  last_appends walkContent_appends. last_appends walkExamples_appends.
  apply walkSchemaRef_appends.
Qed.

Lemma walkRequestBodyRef_appends ref :
  appends (walkRequestBodyRef recordRef ref).
Proof.
  intros st. destruct ref as [ref|]; [|done]. unfold walkRequestBodyRef.
  entered. destruct (openapi.RequestBody_Value ref) as [value|]; [|done].
  apply walkContent_appends.
Qed.

Lemma walkResponseRef_appends ref : appends (walkResponseRef recordRef ref).
Proof.
  intros st. unfold walkResponseRef. entered.
  destruct (openapi.Response_Value ref) as [value|]; [|done].
  last_appends (appends_fold_all
                  (fun l : string * openapi.LinkRef => walkLinkRef recordRef l.2)).
  - last_appends walkContent_appends.
    apply (appends_fold_all
             (fun h : string * openapi.HeaderRef => walkHeaderRef recordRef h.2)).
    intros h. apply walkHeaderRef_appends.
  - intros l. apply walkLinkRef_appends.
Qed.

Lemma walkParameters_appends (params : list openapi.ParameterRef) :
  appends (fun st => fold_left (fun st param => walkParameterRef recordRef param st)
                               params st).
Proof.
  apply (appends_fold_all (walkParameterRef recordRef)), walkParameterRef_appends.
Qed.

Lemma walkOperation_appends :
  forall op, appends (walkOperation recordRef op).
Proof.
  fix IH 1. intros [params body responses callbacks] st.
  cbn [walkOperation openapi.Operation_Parameters openapi.Operation_RequestBody
       openapi.Operation_Responses openapi.Operation_Callbacks].
  last_appends (appends_fold
                  (fun cb : string * openapi.CallbackRef =>
                     walkCallbackRef recordRef cb.2)).
  - last_appends (appends_option
                    (fun (responses : list (string * openapi.ResponseRef)) st =>
                       fold_left (fun st r => walkResponseRef recordRef r.2 st)
                                 responses st)).
    + last_appends walkRequestBodyRef_appends. apply walkParameters_appends.
    + intros rs _.
      apply (appends_fold_all
               (fun r : string * openapi.ResponseRef =>
                  walkResponseRef recordRef r.2)).
      intros r. apply walkResponseRef_appends.
  - clear -IH. induction callbacks as [|[k [r v]] callbacks IHc]; constructor;
      [|assumption].
    intros st. cbn [snd walkCallbackRef openapi.Callback_Ref
                    openapi.Callback_Value].
    entered. destruct v as [pathItems|]; [|done]. cbn [isSome].
    apply (appends_fold
             (fun kv : string * openapi.PathItem => walkPathItem recordRef kv.2)).
    clear -IH. induction pathItems as [|[k' [ps ops]] pathItems IHp];
      constructor; [|assumption].
    intros st. cbn [snd walkPathItem openapi.PathItem_Parameters
                    openapi.PathItem_Operations].
    last_appends (appends_fold
                    (fun kv : string * openapi.Operation =>
                       walkOperation recordRef kv.2)).
    + apply walkParameters_appends.
    + clear -IH. induction ops as [|[k'' op] ops IHo]; constructor;
        [apply IH | assumption].
Qed.

Lemma walkPathItem_appends pathItem : appends (walkPathItem recordRef pathItem).
Proof.
  intros st. destruct pathItem as [ps ops].
  cbn [walkPathItem openapi.PathItem_Parameters openapi.PathItem_Operations].
  last_appends (appends_fold_all
                  (fun kv : string * openapi.Operation =>
                     walkOperation recordRef kv.2)).
  - apply walkParameters_appends.
  - intros kv. apply walkOperation_appends.
Qed.

Lemma walkCallbackRef_appends ref : appends (walkCallbackRef recordRef ref).
Proof.
  intros st. destruct ref as [r v].
  cbn [walkCallbackRef openapi.Callback_Ref openapi.Callback_Value].
  entered. destruct v as [pathItems|]; [|done].
  apply (appends_fold_all
           (fun kv : string * openapi.PathItem => walkPathItem recordRef kv.2)).
  intros kv. apply walkPathItem_appends.
Qed.

Lemma walkComponents_appends components :
  appends (walkComponents recordRef components).
Proof.
  intros st. destruct components as [c|]; [|done]. unfold walkComponents.
  last_appends (appends_fold_all (walkCallbackRef recordRef));
    [|apply walkCallbackRef_appends].
  last_appends (appends_fold_all (walkLinkRef recordRef));
    [|apply walkLinkRef_appends].
  last_appends (appends_fold_all (walkExampleRef recordRef));
    [|apply walkExampleRef_appends].
  last_appends (appends_fold_all (walkSecuritySchemeRef recordRef));
    [|apply walkSecuritySchemeRef_appends].
  last_appends (appends_fold_all (walkResponseRef recordRef));
    [|apply walkResponseRef_appends].
  last_appends (appends_fold_all
                  (fun body => walkRequestBodyRef recordRef (Some body)));
    [|intros body; apply walkRequestBodyRef_appends].
  last_appends (appends_fold_all (walkHeaderRef recordRef));
    [|apply walkHeaderRef_appends].
  last_appends (appends_fold_all (walkParameterRef recordRef));
    [|apply walkParameterRef_appends].
  apply (appends_fold_all (fun schema => walkSchemaRef recordRef (Some schema))).
  intros schema. apply walkSchemaRef_appends.
Qed.

(** The references that the walk records in the paths of the document,
    before it turns to the components. *)
Definition pathRefs (paths : list (string * openapi.PathItem)) : list string :=
  fold_left (fun st kv => walkPathItem recordRef kv.2 st) paths [].

Lemma pathRefs_walked doc paths :
  openapi.Paths doc = Some paths ->
  pathRefs paths `prefix_of` walkedRefs (Some doc).
Proof.
  intros Hpaths. unfold walkedRefs, walkSwagger. rewrite Hpaths.
  apply walkComponents_appends.
Qed.

Lemma pathRefs_found doc paths ref :
  openapi.Paths doc = Some paths ->
  ref ∈ pathRefs paths -> ref ∈ findComponentRefs (Some doc).
Proof.
  intros Hpaths Hin.
  assert (Hw : ref ∈ walkedRefs (Some doc)).
  { destruct (pathRefs_walked doc paths Hpaths) as [l ->].
    apply elem_of_app. by left. }
  unfold findComponentRefs.
  destruct (openapi.Components_ doc) as [c|]; [|done].
  apply markSchemas_spec. by left.
Qed.

End WalkRecords.

(* ===================================================================== *)
(** ** What pruning keeps and what it leaves *)
(* ===================================================================== *)

Section PruneSafety.

(** Of the kinds of component that a pass may delete from, the entries
    whose reference is in [refs] are in [c'] as they are in [c]. *)
Definition keepsListed (refs : list string) (c c' : openapi.Components) : Prop :=
  forall name,
    ("#/components/parameters/" +:+ name ∈ refs ->
       openapi.Parameters c' !! name = openapi.Parameters c !! name)
    /\ ("#/components/requestBodies/" +:+ name ∈ refs ->
          openapi.RequestBodies c' !! name = openapi.RequestBodies c !! name)
    /\ ("#/components/responses/" +:+ name ∈ refs ->
          openapi.Responses c' !! name = openapi.Responses c !! name)
    /\ ("#/components/headers/" +:+ name ∈ refs ->
          openapi.Headers c' !! name = openapi.Headers c !! name)
    /\ ("#/components/examples/" +:+ name ∈ refs ->
          openapi.Examples c' !! name = openapi.Examples c !! name)
    /\ ("#/components/links/" +:+ name ∈ refs ->
          openapi.Links c' !! name = openapi.Links c !! name)
    /\ ("#/components/callbacks/" +:+ name ∈ refs ->
          openapi.Callbacks c' !! name = openapi.Callbacks c !! name).

Lemma keptExactly_listed {A} prefix refs (m m' : gmap string A) name :
  keptExactly prefix refs m m' -> prefix +:+ name ∈ refs ->
  m' !! name = m !! name.
Proof. intros Hk Hin. rewrite (Hk name). by rewrite bool_decide_eq_true_2. Qed.

Lemma keptComponents_keepsListed refs0 refs c c' :
  (forall ref, ref ∈ refs0 -> ref ∈ refs) ->
  keptComponents refs c c' -> keepsListed refs0 c c'.
Proof.
  intros Hsub (_ & _ & K2 & K3 & K4 & K5 & K6 & K7 & K8) name.
  repeat split; intros Hin; eapply keptExactly_listed; eauto.
Qed.

Lemma keepsListed_trans refs a b c :
  keepsListed refs a b -> keepsListed refs b c -> keepsListed refs a c.
Proof.
  intros Hab Hbc name.
  destruct (Hab name) as (A1 & A2 & A3 & A4 & A5 & A6 & A7).
  destruct (Hbc name) as (B1 & B2 & B3 & B4 & B5 & B6 & B7).
  repeat split; intros Hin;
    [rewrite B1, A1 | rewrite B2, A2 | rewrite B3, A3 | rewrite B4, A4
     | rewrite B5, A5 | rewrite B6, A6 | rewrite B7, A7]; done.
Qed.

Lemma pruneLoop_keeps_path_referenced paths passes : forall doc c r,
  openapi.Paths doc = Some paths ->
  openapi.Components_ doc = Some c ->
  pruneLoop passes (Some doc) = Some r ->
  exists c',
    r = Some (openapi.mkT (Some paths) (Some c'))
    /\ keepsListed (pathRefs paths) c c'.
Proof.
  induction passes as [|passes IH]; intros doc c r Hpaths Hc; cbn [pruneLoop];
    [done|].
  unfold removeOrphanedComponents. rewrite Hc.
  destruct (removeOrphanedInComponents_kept c (findComponentRefs (Some doc)))
    as [Hkept _].
  destruct (removeOrphanedInComponents c (findComponentRefs (Some doc)))
    as [c1 countRemoved]. cbn [fst] in Hkept.
  assert (Hlisted : keepsListed (pathRefs paths) c c1).
  { eapply keptComponents_keepsListed; [|exact Hkept].
    intros ref. by apply pathRefs_found. }
  rewrite Hpaths. destruct (countRemoved <? 1)%nat.
  - intros [= <-]. by exists c1.
  - intros Hr.
    destruct (IH (openapi.mkT (Some paths) (Some c1)) c1 r eq_refl eq_refl Hr)
      as (c' & -> & Hlisted').
    exists c'. split; [done|]. by apply (keepsListed_trans _ c c1 c').
Qed.


(** The entries of [c] of the kinds that a pass may delete from all have
    their reference in [refs]. *)
Definition allListed (refs : list string) (c : openapi.Components) : Prop :=
  forall name,
    (is_Some (openapi.Parameters c !! name) ->
       "#/components/parameters/" +:+ name ∈ refs)
    /\ (is_Some (openapi.RequestBodies c !! name) ->
          "#/components/requestBodies/" +:+ name ∈ refs)
    /\ (is_Some (openapi.Responses c !! name) ->
          "#/components/responses/" +:+ name ∈ refs)
    /\ (is_Some (openapi.Headers c !! name) ->
          "#/components/headers/" +:+ name ∈ refs)
    /\ (is_Some (openapi.Examples c !! name) ->
          "#/components/examples/" +:+ name ∈ refs)
    /\ (is_Some (openapi.Links c !! name) ->
          "#/components/links/" +:+ name ∈ refs)
    /\ (is_Some (openapi.Callbacks c !! name) ->
          "#/components/callbacks/" +:+ name ∈ refs).

Lemma keptExactly_self {A} prefix refs (m : gmap string A) name :
  keptExactly prefix refs m m -> is_Some (m !! name) -> prefix +:+ name ∈ refs.
Proof.
  intros Hk [x Hx]. specialize (Hk name). rewrite Hx in Hk.
  by case_bool_decide.
Qed.

(** Pruning leaves no orphan: in the document that
    [pruneUnusedComponents] ends with, every parameter, request body,
    response, header, example, link and callback among the components has
    its reference recorded by the walk of that document, that is, something
    in its paths or in its remaining components refers to it. *)
Theorem pruneUnusedComponents_leaves_no_orphan
    (doc : openapi.T) (c : openapi.Components) :
  openapi.Components_ doc = Some c ->
  exists doc' c',
    pruneUnusedComponents (Some doc) = Some (Some doc')
    /\ openapi.Components_ doc' = Some c'
    /\ allListed (findComponentRefs (Some doc')) c'.
Proof.
  intros Hc.
  destruct (pruneLoop_reaches_fixed_point (componentCount (Some doc)) (Some doc))
    as (r & Hr & Hfix & Hkeeps); [done|].
  destruct r as [doc'|]; [|done]. cbn in Hkeeps. rewrite Hc in Hkeeps.
  destruct (openapi.Components_ doc') as [c'|] eqn:Hc'; [|tauto].
  exists doc', c'. split; [exact Hr|]. split; [exact Hc'|].
  unfold removeOrphanedComponents in Hfix. rewrite Hc' in Hfix.
  destruct (removeOrphanedInComponents_kept c' (findComponentRefs (Some doc')))
    as [Hkept _].
  destruct (removeOrphanedInComponents c' (findComponentRefs (Some doc')))
    as [c'' n]. cbn [fst] in Hkept.
  assert (c'' = c') as ->.
  { injection Hfix as Hdoc _. destruct doc' as [paths' comps'].
    cbn in *. congruence. }
  destruct Hkept as (_ & _ & K2 & K3 & K4 & K5 & K6 & K7 & K8).
  intros name. repeat split; intros Hsome; eapply keptExactly_self; eauto.
Qed.

End PruneSafety.

(** A document whose one path item has a parameter that refers to the
    component parameter [limit]; the component parameter [unused] is
    referred to by nothing. *)
Definition limitParameter : openapi.ParameterRef :=
  openapi.mkParameterRef "" (Some (openapi.mkParameter None [] [])).

Definition petsPath : list (string * openapi.PathItem) :=
  [("/pets",
    openapi.mkPathItem
      [openapi.mkParameterRef "#/components/parameters/limit" None] [])].

Definition petsComponents : openapi.Components :=
  openapi.mkComponents ∅
    {[ "limit" := limitParameter; "unused" := limitParameter ]}
    ∅ ∅ ∅ ∅ ∅ ∅ ∅.

Definition petsDoc : openapi.T := openapi.mkT (Some petsPath) (Some petsComponents).


Lemma pruneUnusedComponents_leaves_no_orphan_witness :
  exists doc' c',
    pruneUnusedComponents (Some petsDoc) = Some (Some doc')
    /\ openapi.Components_ doc' = Some c'
    /\ allListed (findComponentRefs (Some doc')) c'.
Proof.
  apply (pruneUnusedComponents_leaves_no_orphan petsDoc petsComponents).
  reflexivity.
Defined.

(** On [petsDoc] the walk records the reference to [limit] in the paths,
    and pruning keeps [limit] and deletes [unused]. *)
Example pruneUnusedComponents_petsDoc :
  pathRefs petsPath = ["#/components/parameters/limit"]
  /\ pruneUnusedComponents (Some petsDoc) =
       Some (Some (openapi.mkT (Some petsPath)
                     (Some (openapi.mkComponents ∅
                              {[ "limit" := limitParameter ]}
                              ∅ ∅ ∅ ∅ ∅ ∅ ∅)))).
Proof. split; vm_compute; reflexivity. Qed.

(* ===================================================================== *)
(** ** Unions: what [generateUnion] changes *)
(* ===================================================================== *)

Section UnionFrame.
Context (E : Env).

(** The fields of a descriptor that [generateUnion] has no business with:
    all but the union elements, the discriminator and the additional
    types. *)
Definition outsideUnion (s : Schema)
  : string * string * option Schema * gmap string string * list Property *
    bool * option Schema * list string * bool * string * bool *
    option openapi.Schema :=
  (GoType s, RefType s, ArrayType s, EnumValues s, Properties s,
   HasAdditionalProperties s, AdditionalPropertiesType s, EmbeddedTypes s,
   SkipOptionalPointer s, Description s, DefineViaAlias s, OAPISchema s).

(** How a step may change the descriptor of the union. *)
Record unionGrows (n : nat) (before after : Schema) : Prop := {
  grows_outside : outsideUnion after = outsideUnion before;
  grows_types : AdditionalTypes before `prefix_of` AdditionalTypes after;
  grows_elements :
    exists new, UnionElements after = UnionElements before ++ new
                /\ length new <= n;
  grows_NoDup : NoDup (UnionElements before) -> NoDup (UnionElements after);
}.

Lemma unionGrows_refl s : unionGrows 0 s s.
Proof.
  split; [done | done | | done]. exists []. by rewrite app_nil_r.
Qed.

Lemma unionGrows_trans n m a b c :
  unionGrows n a b -> unionGrows m b c -> unionGrows (n + m) a c.
Proof.
  intros [Ao At (na & Ae & Al) An] [Bo Bt (nb & Be & Bl) Bn].
  split.
  - congruence.
  - by etrans.
  - exists (na ++ nb). rewrite Be, Ae, app_assoc. split; [done|].
    rewrite length_app. lia.
  - auto.
Qed.

Lemma unionGrows_nameVariant elementPath i element elementSchema used outSchema :
  unionGrows 0 outSchema
    (nameVariant E elementPath i element elementSchema used outSchema).2.
Proof.
  unfold nameVariant. destruct (streq (openapi.Ref element) "");
    [|apply unionGrows_refl].
  cbn [snd].
  match goal with |- context [streq ?a ?b] => destruct (streq a b) end.
  - split; [by destruct outSchema | | by (exists []; destruct outSchema; cbn;
                                            rewrite app_nil_r)
            | by destruct outSchema].
    destruct outSchema; cbn. by apply prefix_app_r.
  - split; [by destruct outSchema | | by (exists []; destruct outSchema; cbn;
                                            rewrite app_nil_r)
            | by destruct outSchema].
    destruct outSchema; cbn. rewrite <- app_assoc. by apply prefix_app_r.
Qed.

Lemma unionGrows_setMapping k goType outSchema r :
  setMapping k goType outSchema = Returns (Ok r) -> unionGrows 0 outSchema r.
Proof.
  unfold setMapping. destruct (Discriminator_ outSchema) as [d|]; [|done].
  intros [= <-].
  split; [by destruct outSchema | by destruct outSchema | | by destruct outSchema].
  exists []. destruct outSchema; cbn. by rewrite app_nil_r.
Qed.

Lemma unionGrows_element elementType outSchema :
  unionGrows 1 outSchema
    (if stringInSlice elementType (UnionElements outSchema) then outSchema
     else set_UnionElements (UnionElements outSchema ++ [elementType]) outSchema).
Proof.
  destruct (stringInSlice elementType (UnionElements outSchema)) eqn:Hin.
  - split; [done | done | | done]. exists []. rewrite app_nil_r. split; [done|].
    cbn. lia.
  - split; [by destruct outSchema | by destruct outSchema | |].
    + exists [elementType]. by destruct outSchema.
    + intros Hnd.
      assert (Hnotin : elementType ∉ UnionElements outSchema).
      { intros Hx. apply stringInSlice_true in Hx. congruence. }
      destruct outSchema; cbn in *.
      apply NoDup_app. split; [done|]. split; [|apply NoDup_singleton].
      intros x Hx. rewrite list_elem_of_singleton. by intros ->.
Qed.

Lemma generateUnion_loop_grows gen discriminator path elements :
  forall i used outSchema r,
    generateUnion_loop E gen discriminator path i elements used outSchema
      = Returns (Ok r) ->
    unionGrows (length elements) outSchema r.
Proof.
  induction elements as [|element rest IH]; intros i used outSchema r;
    cbn [generateUnion_loop length].
  - intros [= <-]. apply unionGrows_refl.
  - destruct (gen (Some element) (path ++ [fmt_d i])) as [[elementSchema|e]| |];
      cbn [bind]; try discriminate.
    pose proof (unionGrows_nameVariant (path ++ [fmt_d i]) i element
                  elementSchema used outSchema) as Hname.
    destruct (nameVariant E (path ++ [fmt_d i]) i element elementSchema used
                outSchema) as [[elementSchema' used'] outSchema1].
    cbn [snd] in Hname.
    match goal with
    | |- bind ?m _ = _ -> _ => destruct m as [[outSchema2|e]| |] eqn:Hmap
    end; cbn [bind]; try discriminate.
    assert (Hmapped : unionGrows 0 outSchema1 outSchema2).
    { destruct discriminator as [d|].
      - destruct (negb (Nat.eqb (length (openapi.MappingToMap d)) 0) &&
                  streq (openapi.Ref element) ""); [discriminate|].
        destruct (explicitKey (openapi.MappingToMap d) (openapi.Ref element));
          by eapply unionGrows_setMapping.
      - injection Hmap as <-. apply unionGrows_refl. }
    intros Hrest. apply IH in Hrest.
    pose proof (unionGrows_element (GoType elementSchema') outSchema2) as Helem.
    apply (unionGrows_trans 0 _ _ _ _ Hname).
    apply (unionGrows_trans 0 _ _ _ _ Hmapped).
    apply (unionGrows_trans 1 _ _ _ _ Helem Hrest).
Qed.

Lemma generateUnion_grows gen outSchema r elements discriminator path :
  generateUnion E gen outSchema elements discriminator path = Returns (Ok r) ->
  unionGrows (length elements) outSchema r.
Proof.
  unfold generateUnion.
  set (start := match discriminator with
                | Some d => set_Discriminator_ _ outSchema
                | None => outSchema
                end).
  assert (Hstart : unionGrows 0 outSchema start).
  { subst start. destruct discriminator as [d|]; [|apply unionGrows_refl].
    split; [by destruct outSchema | by destruct outSchema | | by destruct outSchema].
    exists []. destruct outSchema; cbn. by rewrite app_nil_r. }
  destruct (generateUnion_loop E gen discriminator path 0 elements ∅ start)
    as [[out|e]| |] eqn:Hloop; cbn [bind]; try discriminate.
  apply generateUnion_loop_grows in Hloop.
  pose proof (unionGrows_trans 0 _ _ _ _ Hstart Hloop) as Hgrows.
  intros Hr. assert (r = out) as ->; [|done].
  destruct (Discriminator_ out) as [d|]; [|by injection Hr].
  destruct (negb _); [discriminate | by injection Hr].
Qed.

(** [generateUnion] changes nothing of the descriptor but the union
    elements, the discriminator and the additional types: when it succeeds,
    every other field is as before, the additional types and the union
    elements have only been appended to, by at most one union element per
    variant, and no Go type is listed twice among the union elements unless
    one was before. *)
Theorem generateUnion_appends_distinct_elements
    (gen : Gen) (outSchema r : Schema) (elements : list openapi.SchemaRef)
    (discriminator : option openapi.Discriminator) (path : list string) :
  generateUnion E gen outSchema elements discriminator path = Returns (Ok r) ->
  outsideUnion r = outsideUnion outSchema
  /\ AdditionalTypes outSchema `prefix_of` AdditionalTypes r
  /\ (exists new, UnionElements r = UnionElements outSchema ++ new
                  /\ length new <= length elements)
  /\ (NoDup (UnionElements outSchema) -> NoDup (UnionElements r)).
Proof. intros Hr. by apply generateUnion_grows in Hr as [? ? ? ?]. Qed.

End UnionFrame.

(** The theorem on the two variants of the pet union, whose types are
    distinct. *)
Lemma generateUnion_appends_distinct_elements_witness :
  exists r,
    generateUnion Sample.env (GenerateGoSchema Sample.env 1) Schema_zero
      petVariants None ["Pet"] = Returns (Ok r)
    /\ outsideUnion r = outsideUnion Schema_zero
    /\ AdditionalTypes Schema_zero `prefix_of` AdditionalTypes r
    /\ (exists new, UnionElements r = UnionElements Schema_zero ++ new
                    /\ length new <= length petVariants)
    /\ (NoDup (UnionElements Schema_zero) -> NoDup (UnionElements r)).
Proof.
  eexists. split; [vm_compute; reflexivity|].
  apply (generateUnion_appends_distinct_elements Sample.env
           (GenerateGoSchema Sample.env 1) Schema_zero _ petVariants None ["Pet"]).
  vm_compute. reflexivity.
Defined.

(* ===================================================================== *)
(** ** Objects: one field per property *)
(* ===================================================================== *)

Section ObjectFields.
Context (E : Env).

(** The field [p] is made of the property of [schema] that has its name:
    the required flag says whether the name is in the required list, and
    the description, the read-only, write-only and deprecated flags and the
    extensions are those of the property's schema. *)
Definition fieldOf (schema : openapi.Schema) (p : Property) : Prop :=
  exists sref v,
    openapi.props_get (openapi.PropertiesToMap schema) (JsonFieldName p) = Some sref
    /\ openapi.Value sref = Some v
    /\ Required p = StringInArray E (JsonFieldName p) (openapi.Required schema)
    /\ P_Description p = openapi.Description v
    /\ ReadOnly p = openapi.IsReadOnly v
    /\ WriteOnly p = openapi.IsWriteOnly v
    /\ Deprecated p = openapi.IsDeprecated v
    /\ P_Extensions p = openapi.Extensions v
    /\ NeedsFormTag p = false.

(** The fields of a descriptor that the loop over the properties leaves
    alone: all but the properties and the additional types. *)
Definition outsideProperties (s : Schema)
  : string * string * option Schema * gmap string string * bool *
    option Schema * list string * bool * string * list string *
    option Discriminator * bool * option openapi.Schema :=
  (GoType s, RefType s, ArrayType s, EnumValues s, HasAdditionalProperties s,
   AdditionalPropertiesType s, EmbeddedTypes s, SkipOptionalPointer s,
   Description s, UnionElements s, Discriminator_ s, DefineViaAlias s,
   OAPISchema s).

Lemma compileProperties_fields gen schema path names : forall outSchema d,
  compileProperties E gen schema path names outSchema = Returns (Ok d) ->
  outsideProperties d = outsideProperties outSchema
  /\ exists fields,
       Properties d = Properties outSchema ++ fields
       /\ map JsonFieldName fields = names
       /\ Forall (fieldOf schema) fields.
Proof.
  induction names as [|pName rest IH]; intros outSchema d;
    cbn [compileProperties].
  - intros [= <-]. split; [done|]. exists []. by rewrite app_nil_r.
  - destruct (openapi.props_get (openapi.PropertiesToMap schema) pName)
      as [p|] eqn:Hp.
    2:{ destruct (gen None (path ++ [pName])) as [[?|?]| |]; discriminate. }
    destruct (gen (Some p) (path ++ [pName])) as [[pSchema|e]| |];
      cbn [wrapErr bind]; try discriminate.
    destruct (openapi.Value p) as [v|] eqn:Hv; [|discriminate].
    intros Hrest. apply IH in Hrest as (Hout & fields & Hfields & Hnames & Hall).
    split; [rewrite Hout; by destruct outSchema|].
    eexists (_ :: fields). split; [|split].
    + rewrite Hfields. destruct outSchema; cbn. by rewrite <- app_assoc.
    + cbn. by rewrite Hnames.
    + constructor; [|done]. exists p, v. cbn. by rewrite Hp.
Qed.

(** An object with properties compiles to a struct with one field per
    property: for a resolved schema that is not a reference, has no allOf,
    no [x-go-type] and no [x-go-type-name], is an object (or has no type)
    and has at least one property, the fields of the descriptor are, in
    order, the sorted property names, each made of the property of its
    name; and the descriptor is not an alias. *)
Theorem object_has_one_field_per_property
    (depth : nat) (sref : openapi.SchemaRef) (schema : openapi.Schema)
    (path : list string) (d : Schema) :
  openapi.Value sref = Some schema ->
  IsGoTypeReference E (openapi.Ref sref) = false ->
  openapi.AllOf schema = None ->
  openapi.Extensions schema !! extPropGoType = None ->
  openapi.Extensions schema !! extGoTypeName = None ->
  openapi.TypeSlice schema = [] \/ openapi.TypeIs schema "object" = true ->
  openapi.props_len (openapi.PropertiesToMap schema) <> 0 ->
  GenerateGoSchema E (S depth) (Some sref) path = Returns (Ok d) ->
  map JsonFieldName (Properties d) =
    SortedSchemaKeys E (openapi.PropertiesToMap schema)
  /\ Forall (fieldOf schema) (Properties d)
  /\ DefineViaAlias d = false.
Proof.
  intros Hval Hgo HallOf Hty Hname Hobj Hprops.
  rewrite GenerateGoSchema_S. unfold GenerateGoSchema_body. rewrite Hval.
  destruct (skipOptionalPointerOf E schema) as [skip|e]; cbn [lift bind];
    [|discriminate].
  rewrite Hgo, HallOf, Hty.
  assert (Nat.eqb (length (openapi.TypeSlice schema)) 0 ||
          openapi.TypeIs schema "object" = true) as ->.
  { destruct Hobj as [-> | ->]; [done | apply orb_true_r]. }
  unfold compileObject.
  assert (Nat.eqb (openapi.props_len (openapi.PropertiesToMap schema)) 0 = false)
    as -> by by apply Nat.eqb_neq.
  cbn [andb]. rewrite andb_false_r. cbn [andb].
  match goal with
  | |- bind ?m _ = _ -> _ => destruct m as [[out1|e]| |] eqn:Hap
  end; cbn [bind]; try discriminate.
  assert (Hout1 : Properties out1 = [] /\ DefineViaAlias out1 = false).
  { destruct (openapi.AdditionalProperties_Schema schema) as [apSchema|].
    - destruct (GenerateGoSchema E depth (Some apSchema) path)
        as [[a|?]| |]; cbn [wrapErr bind ret] in Hap; try discriminate.
      injection Hap as <-. by split.
    - injection Hap as <-. by split. }
  destruct Hout1 as [Hnil Halias].
  destruct (compileProperties E (GenerateGoSchema E depth) schema path _ out1)
    as [[out2|e]| |] eqn:Hcp; cbn [bind]; try discriminate.
  apply compileProperties_fields in Hcp as (Hframe & fields & Hfields & Hnames & Hall).
  rewrite Hnil in Hfields. cbn in Hfields.
  assert (Hout2 : Properties out2 = fields /\ DefineViaAlias out2 = false).
  { split; [done|]. unfold outsideProperties in Hframe. congruence. }
  clear Hframe Hfields. destruct Hout2 as [Hp2 Ha2].
  match goal with
  | |- bind ?m _ = _ -> _ => destruct m as [[out3|e]| |] eqn:Hany
  end; cbn [bind]; try discriminate.
  assert (Hout3 : outsideUnion out3 = outsideUnion out2).
  { destruct (openapi.AnyOf schema) as [anyOf|].
    - destruct (generateUnion E _ out2 anyOf _ path) as [[?|?]| |] eqn:Hu;
        cbn [wrapErr] in Hany; try discriminate.
      injection Hany as <-.
      by apply generateUnion_grows in Hu as [? _ _ _].
    - by injection Hany as <-. }
  match goal with
  | |- bind ?m _ = _ -> _ => destruct m as [[out4|e]| |] eqn:Hone
  end; cbn [bind]; try discriminate.
  assert (Hout4 : outsideUnion out4 = outsideUnion out3).
  { destruct (openapi.OneOf schema) as [oneOf|].
    - destruct (generateUnion E _ out3 oneOf _ path) as [[?|?]| |] eqn:Hu;
        cbn [wrapErr] in Hone; try discriminate.
      injection Hone as <-.
      by apply generateUnion_grows in Hu as [? _ _ _].
    - by injection Hone as <-. }
  destruct (GenStructFromSchema E out4) as [[goType|e]| |]; cbn [bind];
    try discriminate.
  unfold applyGoTypeName. rewrite Hname. intros [= <-].
  assert (Properties out4 = fields /\ DefineViaAlias out4 = false) as [H4 A4].
  { unfold outsideUnion in *. split; congruence. }
  destruct out4; cbn in *. subst. by rewrite Hnames.
Qed.

End ObjectFields.

(** The theorem on the object with the one property [id]. *)
Lemma object_has_one_field_per_property_witness :
  exists d,
    GenerateGoSchema Sample.env 2 (Some (Sample.inline (withId "string"))) ["Pet"]
      = Returns (Ok d)
    /\ map JsonFieldName (Properties d) = ["id"]
    /\ Forall (fieldOf Sample.env (withId "string")) (Properties d)
    /\ DefineViaAlias d = false.
Proof.
  eexists. split; [vm_compute; reflexivity|].
  apply (object_has_one_field_per_property Sample.env 1
           (Sample.inline (withId "string")) (withId "string") ["Pet"]);
    try reflexivity; [by right | discriminate].
Defined.

(* ===================================================================== *)
(** ** Primitive schemas: which ones fail *)
(* ===================================================================== *)

(** Membership in a list that is written out. *)
Ltac list_in :=
  rewrite ?elem_of_cons, ?elem_of_nil;
  first [tauto | intuition congruence].

Section Primitives.
Context (E : Env).

(** A schema of the single type integer, number, boolean or string, or of
    a single unknown type, compiles without a nested activation, and fails
    in exactly three cases: a number whose format is not [double], [float]
    or empty, a boolean that has a format, and a type that is none of the
    four.  Integers and strings compile whatever their format is. *)
Theorem primitive_schema_fails_only_on_bad_format
    (depth : nat) (sref : openapi.SchemaRef) (schema : openapi.Schema)
    (path : list string) (skip : bool) (T : string) :
  openapi.Value sref = Some schema ->
  IsGoTypeReference E (openapi.Ref sref) = false ->
  skipOptionalPointerOf E schema = Ok skip ->
  openapi.AllOf schema = None ->
  openapi.Extensions schema !! extPropGoType = None ->
  openapi.Type_ schema = [T] ->
  T ∉ ["object"; "array"; "null"] ->
  openapi.Enum schema = [] ->
  (exists r, GenerateGoSchema E (S depth) (Some sref) path = Returns r)
  /\ forall e,
       GenerateGoSchema E (S depth) (Some sref) path = Returns (Err e) <->
       (T = "number"
        /\ (openapi.Format schema ∉ ["double"; "float"; ""])
        /\ e = ("error resolving primitive type: invalid number format: "
                 +:+ openapi.Format schema))
       \/ (T = "boolean"
           /\ openapi.Format schema <> ""
           /\ e = ("error resolving primitive type: invalid format ("
                    +:+ openapi.Format schema +:+ ") for boolean"))
       \/ ((T ∉ ["integer"; "number"; "boolean"; "string"])
           /\ e = ("error resolving primitive type: unhandled Schema type: ["
                    +:+ T +:+ "]")).
Proof.
  intros Hval Hgo Hskip HallOf Hty Ht HT Henum.
  assert (Hobj : T <> "object") by (intros ->; apply HT; list_in).
  assert (Harr : T <> "array") by (intros ->; apply HT; list_in).
  assert (Hnull : T <> "null") by (intros ->; apply HT; list_in).
  assert (Hbody :
    GenerateGoSchema E (S depth) (Some sref) path =
    let* outSchema :=
      wrapErr "error resolving primitive type"
        (primitiveStep E (GenerateGoSchema E depth) schema [T] path
           (initialDescriptor skip schema)) in
    ret (set_OAPISchema (Some schema) outSchema)).
  { rewrite GenerateGoSchema_S. unfold GenerateGoSchema_body.
    rewrite Hval, Hskip. cbn [lift bind]. rewrite Hgo, HallOf, Hty.
    unfold openapi.TypeSlice, openapi.TypeIs. rewrite Ht, Henum.
    cbn [length Nat.eqb existsb orb Nat.ltb Nat.leb].
    apply streq_false in Hobj. rewrite Hobj. cbn [orb].
    unfold oapiSchemaToGoType, typeArrayStep, openapi.TypeSlice.
    rewrite Ht. cbn [length Nat.leb existsb List.filter].
    apply streq_false in Hnull. rewrite Hnull. cbn. reflexivity. }
  rewrite Hbody. clear Hbody. unfold primitiveStep, openapi.TypeIs.
  rewrite Ht. cbn [existsb]. rewrite !orb_false_r.
  apply streq_false in Harr. rewrite Harr.
  destruct (streq T "integer") eqn:Hint.
  { apply streq_true in Hint as ->. split; [by eexists|]. intros e.
    split; [by destruct (stringInSlice _ _)|].
    intros [(? & _)|[(? & _)|(Hn & _)]]; [done | done |].
    exfalso. apply Hn. list_in. }
  destruct (streq T "number") eqn:Hnum.
  { apply streq_true in Hnum as ->.
    destruct (streq (openapi.Format schema) "double") eqn:Hd.
    { apply streq_true in Hd. split; [by eexists|]. intros e.
      split; [done|]. intros [(_ & Hn & _)|[(? & _)|(Hn & _)]]; [| done |].
      - exfalso. apply Hn. rewrite Hd. list_in.
      - exfalso. apply Hn. list_in. }
    destruct (streq (openapi.Format schema) "float" ||
              streq (openapi.Format schema) "") eqn:Hf.
    { split; [by eexists|]. intros e. split; [done|].
      intros [(_ & Hn & _)|[(? & _)|(Hn & _)]]; [| done |].
      - exfalso. apply Hn. apply orb_true_iff in Hf as [Hf|Hf];
          apply streq_true in Hf; rewrite Hf; list_in.
      - exfalso. apply Hn. list_in. }
    split; [by eexists|]. intros e. cbn. split.
    - intros [= <-]. left. split; [done|]. split; [|done].
      apply orb_false_iff in Hf as [Hf1 Hf2].
      apply streq_false in Hd, Hf1, Hf2. list_in.
    - intros [(_ & _ & ->)|[(? & _)|(Hn & _)]]; [done | done |].
      exfalso. apply Hn. list_in. }
  destruct (streq T "boolean") eqn:Hbool.
  { apply streq_true in Hbool as ->.
    destruct (streq (openapi.Format schema) "") eqn:Hf; cbn [negb].
    - apply streq_true in Hf. split; [by eexists|]. intros e. split; [done|].
      intros [(? & _)|[(_ & Hn & _)|(Hn & _)]]; [done | done |].
      exfalso. apply Hn. list_in.
    - apply streq_false in Hf. split; [by eexists|]. intros e. cbn. split.
      + intros [= <-]. right. by left.
      + intros [(? & _)|[(_ & _ & ->)|(Hn & _)]]; [done | done |].
        exfalso. apply Hn. list_in. }
  destruct (streq T "string") eqn:Hstr.
  { apply streq_true in Hstr as ->. split; [by eexists|]. intros e.
    split; [done|]. intros [(? & _)|[(? & _)|(Hn & _)]]; [done | done |].
    exfalso. apply Hn. list_in. }
  apply streq_false in Hint, Hnum, Hbool, Hstr.
  split; [by eexists|]. intros e. cbn. split.
  - intros [= <-]. right. right. split; [list_in|].
    unfold fmt_v_strings, strings.Join. cbn. reflexivity.
  - intros [(? & _)|[(? & _)|(_ & ->)]]; [done | done |].
    unfold fmt_v_strings, strings.Join. cbn. reflexivity.
Qed.

End Primitives.

(** A number with the format [decimal]. *)
Definition decimalNumber : openapi.Schema :=
  openapi.mkSchema ["number"] "decimal" "" [] None [] None None None None
    false ∅ false None None None None None.

Lemma primitive_schema_fails_only_on_bad_format_witness :
  (exists r, GenerateGoSchema Sample.env 1 (Some (Sample.inline decimalNumber))
               ["price"] = Returns r)
  /\ forall e,
       GenerateGoSchema Sample.env 1 (Some (Sample.inline decimalNumber))
         ["price"] = Returns (Err e) <->
       ("number" = "number"
        /\ ("decimal" ∉ ["double"; "float"; ""])
        /\ e = ("error resolving primitive type: invalid number format: "
                 +:+ "decimal"))
       \/ ("number" = "boolean"
           /\ "decimal" <> ""
           /\ e = ("error resolving primitive type: invalid format ("
                    +:+ "decimal" +:+ ") for boolean"))
       \/ (("number" ∉ ["integer"; "number"; "boolean"; "string"])
           /\ e = ("error resolving primitive type: unhandled Schema type: ["
                    +:+ "number" +:+ "]")).
Proof.
  apply (primitive_schema_fails_only_on_bad_format Sample.env 0
           (Sample.inline decimalNumber) decimalNumber ["price"] false "number");
    try reflexivity.
  rewrite !elem_of_cons, elem_of_nil. intros [?|[?|[?|[]]]]; discriminate.
Defined.

(* ===================================================================== *)
(** ** Arrays without items, and the type override *)
(* ===================================================================== *)

Section ArraysAndOverride.
Context (E : Env).

(** An array that declares no items compiles to a slice of [interface{}]:
    for a resolved schema of the single type array without items that is
    not a reference and has no allOf, no [x-go-type] and no enum, the
    descriptor has the Go type [[]interface{}], the descriptor of
    [interface{}] as element, and no fields or additional types. *)
Theorem array_without_items_is_slice_of_any
    (depth : nat) (sref : openapi.SchemaRef) (schema : openapi.Schema)
    (path : list string) (skip : bool) :
  openapi.Value sref = Some schema ->
  IsGoTypeReference E (openapi.Ref sref) = false ->
  skipOptionalPointerOf E schema = Ok skip ->
  openapi.AllOf schema = None ->
  openapi.Extensions schema !! extPropGoType = None ->
  openapi.Type_ schema = ["array"] ->
  openapi.Items schema = None ->
  openapi.Enum schema = [] ->
  exists d,
    GenerateGoSchema E (S (S depth)) (Some sref) path = Returns (Ok d)
    /\ GoType d = "[]interface{}"
    /\ ArrayType d = Some (set_GoType "interface{}" Schema_zero)
    /\ Properties d = []
    /\ AdditionalTypes d = []
    /\ OAPISchema d = Some schema.
Proof.
  intros Hval Hgo Hskip HallOf Hty Ht Hitems Henum.
  rewrite GenerateGoSchema_S. unfold GenerateGoSchema_body.
  rewrite Hval, Hskip. cbn [lift bind]. rewrite Hgo, HallOf, Hty.
  unfold openapi.TypeSlice, openapi.TypeIs. rewrite Ht, Henum.
  cbn [length Nat.eqb existsb orb Nat.ltb Nat.leb].
  assert (streq "array" "object" = false) as -> by by apply streq_false.
  cbn [orb].
  unfold oapiSchemaToGoType, typeArrayStep, openapi.TypeSlice. rewrite Ht.
  cbn [length Nat.leb existsb List.filter].
  assert (streq "array" "null" = false) as -> by by apply streq_false.
  cbn [orb negb length Nat.eqb andb firstn snd].
  unfold primitiveStep, openapi.TypeIs. rewrite Ht. cbn [existsb].
  rewrite streq_refl. cbn [orb]. rewrite Hitems.
  rewrite GenerateGoSchema_S. cbn [GenerateGoSchema_body ret wrapErr bind].
  unfold nameAuxiliary. cbn [HasAdditionalProperties UnionElements set_GoType
    Schema_zero length Nat.eqb negb orb andb].
  eexists. split; [reflexivity|].
  unfold setSkipOptionalPointerForContainerType.
  destruct (sliceContains E _ "array"), (negb _); by repeat split.
Qed.

(** The [x-go-type] extension overrides the compilation of the schema:
    for a resolved schema that is not a reference and has no allOf, a
    well-formed extension gives the alias of the type that it names,
    whatever the type, the enum, the properties and the items of the schema
    are, and a malformed one gives an error that names the extension. *)
Theorem go_type_extension_overrides_the_schema
    (depth : nat) (sref : openapi.SchemaRef) (schema : openapi.Schema)
    (path : list string) (skip : bool) (extension : GoValue) :
  openapi.Value sref = Some schema ->
  IsGoTypeReference E (openapi.Ref sref) = false ->
  skipOptionalPointerOf E schema = Ok skip ->
  openapi.AllOf schema = None ->
  openapi.Extensions schema !! extPropGoType = Some extension ->
  GenerateGoSchema E (S depth) (Some sref) path =
    match extTypeName E extension with
    | Ok typeName =>
        Returns (Ok (mkSchema typeName "" None ∅ [] false None [] [] skip
                       (openapi.Description schema) [] None true (Some schema)))
    | Err e =>
        Returns (Err ("invalid value for " +:+ fmt_q "x-go-type" +:+ ": " +:+ e))
    end.
Proof.
  intros Hval Hgo Hskip HallOf Hty.
  rewrite GenerateGoSchema_S. unfold GenerateGoSchema_body.
  rewrite Hval, Hskip. cbn [lift bind]. rewrite Hgo, HallOf, Hty.
  by destruct (extTypeName E extension).
Qed.

End ArraysAndOverride.

(** An array without items. *)
Definition bareArray : openapi.Schema :=
  openapi.mkSchema ["array"] "" "" [] None [] None None None None
    false ∅ false None None None None None.

Lemma array_without_items_is_slice_of_any_witness :
  exists d,
    GenerateGoSchema Sample.env 2 (Some (Sample.inline bareArray)) ["tags"]
      = Returns (Ok d)
    /\ GoType d = "[]interface{}"
    /\ ArrayType d = Some (set_GoType "interface{}" Schema_zero)
    /\ Properties d = []
    /\ AdditionalTypes d = []
    /\ OAPISchema d = Some bareArray.
Proof.
  apply (array_without_items_is_slice_of_any Sample.env 0
           (Sample.inline bareArray) bareArray ["tags"] false); reflexivity.
Defined.

(** A string enum that carries [x-go-type]. *)
Definition overriddenEnum : openapi.Schema :=
  openapi.mkSchema ["string"] "" "" ["available"; "sold"] None [] None None
    None None false {[ extPropGoType := VString "pkg.Status" ]} false None
    None None None None.

Lemma go_type_extension_overrides_the_schema_witness :
  GenerateGoSchema Sample.env 1 (Some (Sample.inline overriddenEnum))
    ["Pet"; "status"] =
  Returns (Ok (mkSchema "pkg.Status" "" None ∅ [] false None [] [] false ""
                 [] None true (Some overriddenEnum))).
Proof.
  apply (go_type_extension_overrides_the_schema Sample.env 0
           (Sample.inline overriddenEnum) overriddenEnum ["Pet"; "status"]
           false (VString "pkg.Status")); reflexivity.
Defined.

(* ===================================================================== *)
(** ** Fields: pointers and collisions *)
(* ===================================================================== *)

Section Fields.
Context (E : Env).

(** [HasOptionalPointer] and [GoTypeDef] agree: a property that has an
    optional pointer is rendered as a pointer to its type, unless it is
    wrapped in [nullable.Nullable]; and for a property that is not
    nullable, read-only or write-only the rendered type is the pointer
    exactly when it has an optional pointer, and the plain type
    otherwise. *)
Theorem optional_pointer_is_rendered (p : Property) :
  (HasOptionalPointer p = true ->
     GoTypeDef E p = "*" +:+ TypeDecl (P_Schema p)
     \/ (Nullable p = true
         /\ GoTypeDef E p = "nullable.Nullable[" +:+ TypeDecl (P_Schema p) +:+ "]"))
  /\ (Nullable p = false -> ReadOnly p = false -> WriteOnly p = false ->
        GoTypeDef E p =
          if HasOptionalPointer p then "*" +:+ TypeDecl (P_Schema p)
          else TypeDecl (P_Schema p)).
Proof.
  unfold HasOptionalPointer, GoTypeDef. split.
  - intros Hopt. apply andb_true_iff in Hopt as [Hreq Hskip].
    apply eqb_prop in Hreq, Hskip. rewrite Hreq, Hskip. cbn [negb andb orb].
    destruct (NullableType _), (Nullable p); cbn; auto.
  - intros -> -> ->. rewrite andb_false_r. cbn [andb orb].
    rewrite !orb_false_r.
    by destruct (Required p), (SkipOptionalPointer (P_Schema p)).
Qed.

(** The fields of a struct do not contradict each other: any two of them
    with the same JSON name have the same type spelling and required
    flag. *)
Definition consistentFields (fields : list Property) : Prop :=
  forall a b, a ∈ fields -> b ∈ fields ->
    JsonFieldName a = JsonFieldName b -> PropertiesEqual a b = true.

Lemma PropertiesEqual_refl a : PropertiesEqual a a = true.
Proof.
  unfold PropertiesEqual. rewrite !streq_refl. by destruct (Required a).
Qed.


End Fields.


(* ===================================================================== *)
(** ** What every branch keeps: the description and a requested skip *)
(* ===================================================================== *)

Section Kept.
Context (E : Env).

(** The description is that of [schema], and the skip-optional-pointer
    flag is set if [skip] is. *)
Definition keepsBoth (schema : openapi.Schema) (skip : bool) (d : Schema) : Prop :=
  Description d = openapi.Description schema
  /\ (skip = true -> SkipOptionalPointer d = true).

Lemma keepsBoth_same schema skip a b :
  Description b = Description a ->
  SkipOptionalPointer b = SkipOptionalPointer a ->
  keepsBoth schema skip a -> keepsBoth schema skip b.
Proof. intros Hd Hs [? ?]. split; [congruence|]. rewrite Hs. auto. Qed.

Lemma keepsBoth_container schema skip d :
  keepsBoth schema skip d ->
  keepsBoth schema skip (setSkipOptionalPointerForContainerType E d).
Proof.
  unfold setSkipOptionalPointerForContainerType. intros [Hd Hs].
  destruct (negb _); [done|]. by destruct d.
Qed.

Lemma primitiveStep_keepsBoth gen schema0 schema t path skip outSchema r :
  keepsBoth schema0 skip outSchema ->
  primitiveStep E gen schema t path outSchema = Returns (Ok r) ->
  keepsBoth schema0 skip r.
Proof.
  intros [Hd Hs]. unfold primitiveStep.
  destruct (openapi.TypeIs schema "array").
  { destruct (gen _ _) as [[arrayType|?]| |]; cbn [wrapErr bind]; try discriminate.
    intros [= <-]. apply keepsBoth_container.
    destruct (sliceContains E _ _); by destruct outSchema. }
  destruct (openapi.TypeIs schema "integer").
  { intros [= <-].
    match goal with |- context [if ?b then _ else _] => destruct b end;
      by destruct outSchema. }
  destruct (openapi.TypeIs schema "number").
  { repeat (match goal with |- context [if ?b then _ else _] => destruct b end);
      try discriminate; intros [= <-]; by destruct outSchema. }
  destruct (openapi.TypeIs schema "boolean").
  { destruct (negb _); [discriminate | intros [= <-]; by destruct outSchema]. }
  destruct (openapi.TypeIs schema "string"); [|discriminate].
  intros [= <-]. unfold stringFormatType.
  repeat (match goal with |- context [if streq ?a ?b then _ else _] =>
            destruct (streq a b) end);
    try (by destruct outSchema).
  assert (keepsBoth schema0 skip
            (setSkipOptionalPointerForContainerType E
               (set_GoType "[]byte" outSchema))) as [? ?]
    by (apply keepsBoth_container; by destruct outSchema).
  by destruct (setSkipOptionalPointerForContainerType E _).
Qed.

Lemma oapiSchemaToGoType_keepsBoth gen schema0 schema path skip outSchema r :
  keepsBoth schema0 skip outSchema ->
  (oapiSchemaToGoType E gen schema path outSchema).2 = Returns (Ok r) ->
  keepsBoth schema0 skip r.
Proof.
  intros Hk. unfold oapiSchemaToGoType.
  destruct (typeArrayStep schema outSchema) as [o|t schema'] eqn:Hstep; cbn [snd].
  - intros [= <-]. unfold typeArrayStep in Hstep.
    repeat (match type of Hstep with
            | context [if ?b then _ else _] => destruct b
            end); inversion Hstep; subst; destruct Hk; by destruct outSchema.
  - by apply primitiveStep_keepsBoth.
Qed.

Lemma compileObject_keepsBoth gen schema path skip outSchema r :
  openapi.Extensions schema !! extGoTypeName = None ->
  keepsBoth schema skip outSchema ->
  compileObject E gen schema path outSchema = Returns (Ok r) ->
  keepsBoth schema skip r.
Proof.
  intros Hname Hk. unfold compileObject, applyGoTypeName. rewrite Hname.
  destruct (_ && _ && _ && _).
  { intros [= <-]. destruct (openapi.TypeIs schema "object").
    - assert (keepsBoth schema skip
                (setSkipOptionalPointerForContainerType E outSchema)) as [? ?]
        by by apply keepsBoth_container.
      by destruct (setSkipOptionalPointerForContainerType E outSchema).
    - destruct Hk. by destruct outSchema. }
  match goal with
  | |- bind ?m _ = _ -> _ => destruct m as [[out1|e]| |] eqn:Hap
  end; cbn [bind]; try discriminate.
  assert (Hk1 : keepsBoth schema skip out1).
  { destruct (openapi.AdditionalProperties_Schema schema) as [apSchema|].
    - destruct (gen (Some apSchema) path) as [[a|?]| |];
        cbn [wrapErr bind ret] in Hap; try discriminate.
      injection Hap as <-. destruct Hk. by destruct outSchema.
    - injection Hap as <-. destruct Hk. by destruct outSchema. }
  destruct (_ && _ && _ && _).
  { match goal with
    | |- bind ?m _ = _ -> _ => destruct m as [[elemType|?]| |]
    end; cbn [bind]; try discriminate.
    intros [= <-]. apply keepsBoth_container. destruct Hk1. by destruct out1. }
  destruct (compileProperties E gen schema path _ out1)
    as [[out2|e]| |] eqn:Hcp; cbn [bind]; try discriminate.
  apply compileProperties_fields in Hcp as [Hframe _].
  assert (Hk2 : keepsBoth schema skip out2).
  { unfold outsideProperties in Hframe.
    apply (keepsBoth_same _ _ out1); [congruence | congruence | done]. }
  match goal with
  | |- bind ?m _ = _ -> _ => destruct m as [[out3|e]| |] eqn:Hany
  end; cbn [bind]; try discriminate.
  assert (Hk3 : keepsBoth schema skip out3).
  { destruct (openapi.AnyOf schema) as [anyOf|].
    - destruct (generateUnion E _ out2 anyOf _ path) as [[?|?]| |] eqn:Hu;
        cbn [wrapErr] in Hany; try discriminate.
      injection Hany as <-. apply generateUnion_grows in Hu as [Ho _ _ _].
      unfold outsideUnion in Ho.
      apply (keepsBoth_same _ _ out2); [congruence | congruence | done].
    - by injection Hany as <-. }
  match goal with
  | |- bind ?m _ = _ -> _ => destruct m as [[out4|e]| |] eqn:Hone
  end; cbn [bind]; try discriminate.
  assert (Hk4 : keepsBoth schema skip out4).
  { destruct (openapi.OneOf schema) as [oneOf|].
    - destruct (generateUnion E _ out3 oneOf _ path) as [[?|?]| |] eqn:Hu;
        cbn [wrapErr] in Hone; try discriminate.
      injection Hone as <-. apply generateUnion_grows in Hu as [Ho _ _ _].
      unfold outsideUnion in Ho.
      apply (keepsBoth_same _ _ out3); [congruence | congruence | done].
    - by injection Hone as <-. }
  destruct (GenStructFromSchema E out4) as [[goType|e]| |]; cbn [bind];
    try discriminate.
  intros [= <-]. destruct Hk4. by destruct out4.
Qed.

(** Whatever branch compiles it, a resolved schema without allOf and
    without [x-go-type-name] hands its description on to the descriptor,
    and a skip of the optional pointer, asked for by the
    [x-go-type-skip-optional-pointer] extension or by the configured
    default, is in the descriptor. *)
Theorem descriptor_keeps_description_and_skip
    (depth : nat) (sref : openapi.SchemaRef) (schema : openapi.Schema)
    (path : list string) (d : Schema) :
  openapi.Value sref = Some schema ->
  openapi.AllOf schema = None ->
  openapi.Extensions schema !! extGoTypeName = None ->
  GenerateGoSchema E (S depth) (Some sref) path = Returns (Ok d) ->
  Description d = openapi.Description schema
  /\ (skipOptionalPointerOf E schema = Ok true -> SkipOptionalPointer d = true).
Proof.
  intros Hval HallOf Hname.
  rewrite GenerateGoSchema_S. unfold GenerateGoSchema_body. rewrite Hval.
  destruct (skipOptionalPointerOf E schema) as [skip|e]; cbn [lift bind];
    [|discriminate].
  intros Hd. cut (keepsBoth schema skip d).
  { intros [? Hs]. split; [done|]. intros [= ->]. by apply Hs. }
  revert Hd.
  destruct (IsGoTypeReference E (openapi.Ref sref)).
  { destruct (RefPathToGoType E _); [|discriminate]. by intros [= <-]. }
  rewrite HallOf.
  destruct (openapi.Extensions schema !! extPropGoType) as [ext|].
  { destruct (extTypeName E ext); [|discriminate]. by intros [= <-]. }
  assert (Hk0 : keepsBoth schema skip
                  (mkSchema "" "" None ∅ [] false None [] [] skip
                     (openapi.Description schema) [] None false (Some schema)))
    by by split.
  destruct (_ || _).
  { by apply compileObject_keepsBoth. }
  destruct (0 <? length (openapi.Enum schema))%nat.
  - unfold compileEnum.
    pose proof (fun r => oapiSchemaToGoType_keepsBoth (GenerateGoSchema E depth)
                  schema schema path skip _ r Hk0) as Hprim.
    destruct (oapiSchemaToGoType E _ schema path _) as [schema' r].
    cbn [snd] in Hprim.
    destruct r as [[o|?]| |]; cbn [wrapErr bind]; try discriminate.
    specialize (Hprim o eq_refl). destruct Hprim.
    destruct (1 <? length path)%nat.
    + destruct (openapi.Extensions schema' !! extGoTypeName) as [ext|].
      * destruct (extString E ext); cbn [bind ret fail]; [|discriminate].
        intros [= <-]. by destruct o.
      * cbn [bind ret]. intros [= <-]. by destruct o.
    + intros [= <-]. by destruct o.
  - pose proof (fun r => oapiSchemaToGoType_keepsBoth (GenerateGoSchema E depth)
                  schema schema path skip _ r Hk0) as Hprim.
    destruct (oapiSchemaToGoType E _ schema path _) as [schema' r].
    cbn [snd] in Hprim.
    destruct r as [[o|?]| |]; cbn [wrapErr bind]; try discriminate.
    specialize (Hprim o eq_refl). destruct Hprim.
    intros [= <-]. by destruct o.
Qed.

End Kept.

(** The theorem on a string with a description that asks for the skip. *)
Definition describedString : openapi.Schema :=
  openapi.mkSchema ["string"] "" "The name of the pet" [] None [] None None
    None None false {[ extPropGoTypeSkipOptionalPointer := VBool true ]} false
    None None None None None.

Lemma descriptor_keeps_description_and_skip_witness :
  exists d,
    GenerateGoSchema Sample.env 1 (Some (Sample.inline describedString))
      ["Pet"; "name"] = Returns (Ok d)
    /\ Description d = "The name of the pet"
    /\ (skipOptionalPointerOf Sample.env describedString = Ok true ->
        SkipOptionalPointer d = true).
Proof.
  eexists. split; [vm_compute; reflexivity|].
  apply (descriptor_keeps_description_and_skip Sample.env 0
           (Sample.inline describedString) describedString ["Pet"; "name"]);
    reflexivity.
Defined.

(* ===================================================================== *)
(** ** Merging: what the later schemas contribute *)
(* ===================================================================== *)

Section MergeFrame.

(** The fields of a schema that [mergeOpenapiSchemas] does not assign:
    all but the properties and the required names. *)
Definition outsideMerge (s : openapi.Schema)
  : list string * string * string * list string *
    option (list openapi.SchemaRef) * option bool * option bool * option bool *
    bool * gmap string GoValue * bool * option openapi.SchemaRef *
    option openapi.Discriminator * option openapi.SchemaRef *
    option (list openapi.SchemaRef) * option (list openapi.SchemaRef) :=
  (openapi.Type_ s, openapi.Format s, openapi.Description s, openapi.Enum s,
   openapi.AllOf s, openapi.ReadOnly s, openapi.WriteOnly s,
   openapi.Deprecated s, openapi.Nullable s, openapi.Extensions s,
   openapi.AdditionalProperties_Has s, openapi.AdditionalProperties_Schema s,
   openapi.Discriminator_ s, openapi.Items s, openapi.AnyOf s, openapi.OneOf s).

Lemma dedup_spec l : forall seen,
  NoDup (dedup seen l)
  /\ forall x, x ∈ dedup seen l <-> x ∈ l /\ x ∉ seen.
Proof.
  induction l as [|a l IH]; intros seen; cbn [dedup].
  - split; [constructor|]. intros x. rewrite elem_of_nil. tauto.
  - destruct (stringInSlice a seen) eqn:Ha.
    + apply stringInSlice_true in Ha. destruct (IH seen) as [Hnd Hin].
      split; [done|]. intros x. rewrite Hin, elem_of_cons.
      split; [tauto|]. intros [[->|?] ?]; tauto.
    + assert (Hnot : a ∉ seen).
      { intros Hx. apply stringInSlice_true in Hx. congruence. }
      destruct (IH (a :: seen)) as [Hnd Hin]. split.
      * constructor; [|done]. rewrite Hin, elem_of_cons. tauto.
      * intros x. rewrite !elem_of_cons, Hin, elem_of_cons.
        destruct (decide (x = a)) as [->|Hne]; tauto.
Qed.

(** What a merge does to the required names, and to the rest. *)
Record mergedFrom (s1 : openapi.Schema) (required : list string)
    (merged : openapi.Schema) : Prop := {
  merged_outside : outsideMerge merged = outsideMerge s1;
  merged_required :
    forall name, name ∈ openapi.Required merged <->
                 name ∈ openapi.Required s1 \/ name ∈ required;
}.

Lemma mergeOpenapiSchemas_mergedFrom s1 s2 allOf :
  exists merged,
    mergeOpenapiSchemas s1 s2 allOf = Ok merged
    /\ mergedFrom s1 (openapi.Required s2) merged
    /\ NoDup (openapi.Required merged).
Proof.
  unfold mergeOpenapiSchemas. eexists. split; [reflexivity|].
  set (withProps := match openapi.PropertiesToMap s1, openapi.PropertiesToMap s2 with
                    | _, None => s1
                    | None, Some _ => openapi.set_Properties (openapi.Properties s2) s1
                    | Some p1, Some p2 =>
                        openapi.set_Properties (Some (mergeProperties p1 p2)) s1
                    end).
  assert (Hprops : outsideMerge withProps = outsideMerge s1
                   /\ openapi.Required withProps = openapi.Required s1).
  { subst withProps.
    destruct (openapi.PropertiesToMap s1), (openapi.PropertiesToMap s2);
      by destruct s1. }
  destruct Hprops as [Hout Hreq].
  destruct (dedup_spec (openapi.Required s1 ++ openapi.Required s2) [])
    as [Hnd Hin].
  assert (Hdedup :
    mergedFrom s1 (openapi.Required s2)
      (openapi.set_Required
         (dedup [] (openapi.Required s1 ++ openapi.Required s2)) withProps)
    /\ NoDup (openapi.Required
                (openapi.set_Required
                   (dedup [] (openapi.Required s1 ++ openapi.Required s2))
                   withProps))).
  { split; [split|].
    - rewrite <- Hout. by destruct withProps.
    - intros name. destruct withProps; cbn. rewrite Hin, elem_of_app.
      rewrite elem_of_nil. tauto.
    - by destruct withProps. }
  destruct (openapi.Required s1) as [|r1 l1] eqn:H1; [|exact Hdedup].
  destruct (openapi.Required s2) as [|r2 l2] eqn:H2; [|exact Hdedup].
  split; [split|].
  - exact Hout.
  - intros name. rewrite Hreq, H1. tauto.
  - rewrite Hreq. constructor.
Qed.

(** [mergeOpenapiSchemas] takes nothing of the second schema but its
    properties and its required names: the type, the format, the
    description, the enum, the items, the additional properties, the
    extensions and every other field of the merge are those of the first
    schema; the required names of the merge are those of either schema,
    each once; and the [allOf] flag makes no difference. *)
Theorem merge_takes_properties_and_required_only
    (s1 s2 : openapi.Schema) (allOf : bool) :
  exists merged,
    mergeOpenapiSchemas s1 s2 allOf = Ok merged
    /\ outsideMerge merged = outsideMerge s1
    /\ (forall name, name ∈ openapi.Required merged <->
                     name ∈ openapi.Required s1 \/ name ∈ openapi.Required s2)
    /\ NoDup (openapi.Required merged)
    /\ mergeOpenapiSchemas s1 s2 (negb allOf) = Ok merged.
Proof.
  destruct (mergeOpenapiSchemas_mergedFrom s1 s2 allOf)
    as (merged & Hm & [Hout Hreq] & Hnd).
  exists merged. split; [done|]. split; [done|]. split; [done|].
  split; [done|]. by rewrite <- Hm.
Qed.

(** A reference that [valueWithPropagatedRef] takes as local. *)
Definition localRef (ref : openapi.SchemaRef) : Prop :=
  openapi.Ref ref = "" \/ firstByteIs (openapi.Ref ref) "#" = true.

Lemma valueWithPropagatedRef_local ref :
  localRef ref -> valueWithPropagatedRef ref = ret (openapi.Value ref).
Proof.
  unfold valueWithPropagatedRef. intros [-> | ->]; [done|].
  by rewrite orb_true_r.
Qed.

(** The required names of the resolved members of a list. *)
Definition requiredBySome (members : list openapi.SchemaRef) (name : string)
  : Prop :=
  exists ref s, ref ∈ members /\ openapi.Value ref = Some s
                /\ name ∈ openapi.Required s.

Lemma mergeSchemas_loop_resolved rest : forall s1,
  Forall localRef rest ->
  Forall (fun ref => is_Some (openapi.Value ref)) rest ->
  exists merged,
    mergeSchemas_loop (Some s1) rest = ret (Some merged)
    /\ outsideMerge merged = outsideMerge s1
    /\ (forall name, name ∈ openapi.Required merged <->
                     name ∈ openapi.Required s1 \/ requiredBySome rest name)
    /\ (NoDup (openapi.Required s1) \/ rest <> [] ->
        NoDup (openapi.Required merged)).
Proof.
  induction rest as [|ref rest IH]; intros s1 Hlocal Hres;
    cbn [mergeSchemas_loop].
  - exists s1. split; [done|]. split; [done|]. split; [|by intros [?|?]].
    intros name. split; [tauto|]. intros [?|(r & s & Hr & _)]; [done|].
    by apply elem_of_nil in Hr.
  - apply Forall_cons in Hlocal as [Hl Hlocal].
    apply Forall_cons in Hres as [[s2 Hs2] Hres].
    rewrite (valueWithPropagatedRef_local ref Hl), Hs2. cbn [ret bind].
    destruct (mergeOpenapiSchemas_mergedFrom s1 s2 true)
      as (m & -> & [Hout Hreq] & Hnd).
    cbn [wrapErr lift bind].
    destruct (IH m Hlocal Hres) as (merged & -> & Hout' & Hreq' & Hnd').
    exists merged. split; [done|]. split; [congruence|]. split.
    + intros name. rewrite Hreq', Hreq. split.
      * intros [[?|?]|(r & s & Hr & Hv & Hn)]; [by left | |].
        -- right. exists ref, s2. split; [by left|done].
        -- right. exists r, s. split; [by right|done].
      * intros [?|(r & s & Hr & Hv & Hn)]; [by left; left|].
        apply elem_of_cons in Hr as [->|Hr].
        -- left. right. congruence.
        -- right. by exists r, s.
    + intros _. apply Hnd'. by left.
Qed.

Lemma mergeSchemas_loop_unresolved rest : forall schema,
  Forall localRef rest ->
  ~ Forall (fun ref => is_Some (openapi.Value ref)) rest ->
  mergeSchemas_loop schema rest = Panics.
Proof.
  induction rest as [|ref rest IH]; intros schema Hlocal Hres;
    cbn [mergeSchemas_loop].
  - by destruct Hres.
  - apply Forall_cons in Hlocal as [Hl Hlocal].
    rewrite (valueWithPropagatedRef_local ref Hl). cbn [ret bind].
    destruct schema as [s1|]; [|done].
    destruct (openapi.Value ref) as [s2|] eqn:Hs2; [|done].
    destruct (mergeOpenapiSchemas_mergedFrom s1 s2 true) as (m & -> & _).
    cbn [wrapErr lift bind]. apply IH; [done|].
    intros Hrest. apply Hres. constructor; [by rewrite Hs2 | done].
Qed.

(** The merge of an allOf list with two or more members, all referred to
    locally.  When every member is resolved, what is compiled is one schema
    that has the type, format, description and every other field of the
    first member, except for the properties and the required names; its
    required names are those of all members, each once.  When a member is
    not resolved, the merge dereferences nil. *)
Theorem mergeSchemas_merges_into_the_first
    (gen : Gen) (first second : openapi.SchemaRef)
    (rest : list openapi.SchemaRef) (path : list string) :
  Forall localRef (first :: second :: rest) ->
  (Forall (fun ref => is_Some (openapi.Value ref)) (first :: second :: rest) ->
     exists s1 merged,
       openapi.Value first = Some s1
       /\ mergeSchemas gen (first :: second :: rest) path =
            gen (Some (openapi.NewSchemaRef "" (Some merged))) path
       /\ outsideMerge merged = outsideMerge s1
       /\ (forall name, name ∈ openapi.Required merged <->
                        requiredBySome (first :: second :: rest) name)
       /\ NoDup (openapi.Required merged))
  /\ (~ Forall (fun ref => is_Some (openapi.Value ref))
          (first :: second :: rest) ->
      mergeSchemas gen (first :: second :: rest) path = Panics).
Proof.
  intros Hlocal. apply Forall_cons in Hlocal as [Hl Hlocal].
  cbn [mergeSchemas]. rewrite (valueWithPropagatedRef_local first Hl).
  cbn [ret bind]. split.
  - intros Hres. apply Forall_cons in Hres as [[s1 Hs1] Hres].
    destruct (mergeSchemas_loop_resolved (second :: rest) s1 Hlocal Hres)
      as (merged & Hloop & Hout & Hreq & Hnd).
    exists s1, merged. rewrite Hs1, Hloop. cbn [ret bind].
    split; [done|]. split; [done|]. split; [done|]. split.
    + intros name. rewrite Hreq. split.
      * intros [?|(r & s & Hr & Hv & Hn)].
        -- exists first, s1. split; [by left|done].
        -- exists r, s. split; [by right|done].
      * intros (r & s & Hr & Hv & Hn).
        apply elem_of_cons in Hr as [->|Hr]; [left; congruence|].
        right. by exists r, s.
    + apply Hnd. by right.
  - intros Hres.
    destruct (openapi.Value first) as [s1|] eqn:Hs1.
    + rewrite mergeSchemas_loop_unresolved; [done | done |].
      intros Hrest. apply Hres. constructor; [by rewrite Hs1 | done].
    + cbn [mergeSchemas_loop].
      apply Forall_cons in Hlocal as [Hl2 _].
      by rewrite (valueWithPropagatedRef_local second Hl2).
Qed.

End MergeFrame.

(** The theorem on the two objects that declare [id]. *)
Lemma mergeSchemas_merges_into_the_first_witness :
  (Forall (fun ref => is_Some (openapi.Value ref))
     [Sample.inline (withId "string"); Sample.inline (withId "integer")] ->
     exists s1 merged,
       openapi.Value (Sample.inline (withId "string")) = Some s1
       /\ mergeSchemas (GenerateGoSchema Sample.env 2)
            [Sample.inline (withId "string"); Sample.inline (withId "integer")]
            ["Owner"] =
          GenerateGoSchema Sample.env 2
            (Some (openapi.NewSchemaRef "" (Some merged))) ["Owner"]
       /\ outsideMerge merged = outsideMerge s1
       /\ (forall name, name ∈ openapi.Required merged <->
                        requiredBySome
                          [Sample.inline (withId "string");
                           Sample.inline (withId "integer")] name)
       /\ NoDup (openapi.Required merged))
  /\ (~ Forall (fun ref => is_Some (openapi.Value ref))
          [Sample.inline (withId "string"); Sample.inline (withId "integer")] ->
      mergeSchemas (GenerateGoSchema Sample.env 2)
        [Sample.inline (withId "string"); Sample.inline (withId "integer")]
        ["Owner"] = Panics).
Proof.
  apply (mergeSchemas_merges_into_the_first (GenerateGoSchema Sample.env 2)
           (Sample.inline (withId "string")) (Sample.inline (withId "integer"))
           [] ["Owner"]).
  repeat constructor.
Defined.

(* ===================================================================== *)
(** ** [equalTypes] (merge_schemas.go) *)
(* ===================================================================== *)

(** The loop [for i := range t1] of [equalTypes], on slices of one
    length. *)
Fixpoint equalTypes_loop (t1 t2 : list string) : bool :=
  match t1, t2 with
  | a :: t1', b :: t2' =>
      if negb (streq a b) then false else equalTypes_loop t1' t2'
  | _, _ => true
  end.

Definition equalTypes (t1 t2 : list string) : bool :=
  if negb (Nat.eqb (length t1) (length t2)) then false
  else equalTypes_loop t1 t2.

(** [equalTypes] decides whether two type lists are the same list: the
    same types in the same order. *)
Theorem equalTypes_decides_equality (t1 t2 : list string) :
  equalTypes t1 t2 = true <-> t1 = t2.
Proof.
  unfold equalTypes. revert t2.
  induction t1 as [|a t1 IH]; intros [|b t2]; cbn; try done.
  specialize (IH t2). destruct (Nat.eqb (length t1) (length t2)) eqn:Hlen;
    cbn [negb] in *.
  - destruct (streq a b) eqn:Hab; cbn [negb].
    + apply streq_true in Hab as ->. rewrite IH. split; congruence.
    + apply streq_false in Hab. split; [done | congruence].
  - apply Nat.eqb_neq in Hlen. split; [done|]. intros [= _ ->]. done.
Qed.

(* ===================================================================== *)
(** ** Extension values: what [decodeYamlNode] accepts (extension.go) *)
(* ===================================================================== *)

Section Decoding.
Context (E : Env).

Lemma sliceToStrings_spec l r :
  sliceToStrings l = Ok r <-> l = map VString r.
Proof.
  revert r. induction l as [|v l IH]; intros r; cbn [sliceToStrings].
  - split; [intros [= <-]; done | by destruct r].
  - destruct v as [s| | | | |]; try (split; [done | by destruct r]).
    destruct (sliceToStrings l) as [r'|e] eqn:Hl.
    + split.
      * intros [= <-]. cbn. f_equal. by apply IH.
      * destruct r as [|s' r]; [done|]. cbn. intros [= -> Hr].
        apply IH in Hr. congruence.
    + split; [done|]. destruct r as [|s' r]; [done|]. cbn. intros [= -> Hr].
      apply IH in Hr. congruence.
Qed.

Lemma mapToStrings_spec m r :
  mapToStrings m = Ok r <->
  exists m', m = map (fun kv => (kv.1, VString kv.2)) m' /\ r = list_to_map m'.
Proof.
  revert r. induction m as [|[k v] m IH]; intros r; cbn [mapToStrings].
  - split.
    + intros [= <-]. by exists [].
    + intros (m' & Hm & ->). by destruct m'.
  - assert (Hstr : forall s, v = VString s ->
              (match mapToStrings m with
               | Ok r0 => Ok (<[k:=s]> r0)
               | Err e => Err e
               end = Ok r <->
               exists m', (k, v) :: m = map (fun kv => (kv.1, VString kv.2)) m'
                          /\ r = list_to_map m')).
    { intros s ->. split.
      - destruct (mapToStrings m) as [r'|e] eqn:Hm; [|done].
        destruct (proj1 (IH r') eq_refl) as (m0 & Hm0 & Hr0).
        intros [= <-]. exists ((k, s) :: m0). cbn. by rewrite Hm0, Hr0.
      - intros ([|[k' s'] m'] & Heq & ->); [done|]. cbn in Heq.
        injection Heq as -> -> Heq.
        by rewrite (proj2 (IH (list_to_map m'))
                      (ex_intro _ m' (conj Heq eq_refl))). }
    destruct v as [s| | | | |]; [by apply Hstr | | | | |];
      (split; [done|]; intros ([|[k' s'] m'] & Heq & _); [done|];
       cbn in Heq; by injection Heq).
Qed.

(** Besides a YAML node, which goes to the YAML decoder, [decodeYamlNode]
    accepts exactly: a string for a string, a bool for a bool, a slice all
    of whose elements are strings for a slice of strings, which it returns
    in order, and a map all of whose values are strings for a map of
    strings, which it returns with the same entries.  Every other value is
    an error. *)
Theorem decodeYamlNode_accepts_only_its_target_type (node : GoValue) :
  (forall n, node <> VYaml n) ->
  (forall s, decodeYamlNode_string E node = Ok s <-> node = VString s)
  /\ (forall b, decodeYamlNode_bool E node = Ok b <-> node = VBool b)
  /\ (forall l, decodeYamlNode_strings E node = Ok l <->
                node = VSlice (map VString l))
  /\ (forall r, decodeYamlNode_map E node = Ok r <->
                exists m, node = VMap (map (fun kv => (kv.1, VString kv.2)) m)
                          /\ r = list_to_map m).
Proof.
  intros Hyaml. split; [|split; [|split]].
  - intros s. destruct node as [s0|b0|vs|m|n|T]; cbn; unfold unsupported;
      split; congruence.
  - intros b. destruct node as [s0|b0|vs|m|n|T]; cbn; unfold unsupported;
      split; congruence.
  - intros l. destruct node as [s0|b0|vs|m|n|T]; cbn; unfold unsupported;
      try (split; congruence).
    rewrite sliceToStrings_spec. split; congruence.
  - intros r. destruct node as [s0|b0|vs|m|n|T]; cbn; unfold unsupported;
      try (split; [congruence | by intros (? & ? & _)]).
    + rewrite mapToStrings_spec. split.
      * intros (m' & -> & ->). by exists m'.
      * intros (m' & [= ->] & ->). by exists m'.
    + by destruct (Hyaml n).
Qed.

End Decoding.

Lemma decodeYamlNode_accepts_only_its_target_type_witness :
  (forall s, decodeYamlNode_string Sample.env (VBool true) = Ok s <->
             VBool true = VString s)
  /\ (forall b, decodeYamlNode_bool Sample.env (VBool true) = Ok b <->
                VBool true = VBool b)
  /\ (forall l, decodeYamlNode_strings Sample.env (VBool true) = Ok l <->
                VBool true = VSlice (map VString l))
  /\ (forall r, decodeYamlNode_map Sample.env (VBool true) = Ok r <->
                exists m, VBool true
                            = VMap (map (fun kv => (kv.1, VString kv.2)) m)
                          /\ r = list_to_map m).
Proof.
  apply (decodeYamlNode_accepts_only_its_target_type Sample.env (VBool true)).
  discriminate.
Defined.

(* ===================================================================== *)
(** ** Path items and their operations (adapter.go) *)
(* ===================================================================== *)

(** The part of libopenapi's [v3.Operation] and [v3.PathItem] that the
    adapter and the filters read: the tags and the id of an operation, and
    the eight operation slots of a path item. *)
Module v3.

Record Operation : Type := mkOperation {
  Tags : list string;
  OperationId : string;
}.

Record PathItem : Type := mkPathItem {
  Get : option Operation;
  Post : option Operation;
  Put : option Operation;
  Delete : option Operation;
  Options : option Operation;
  Head : option Operation;
  Patch : option Operation;
  Trace : option Operation;
}.

End v3.

(** [strings.ToLower] and [strings.ToUpper] on ASCII strings: the letters
    change case, every other byte below [0x80] stays.  (On other strings Go
    maps runes by the Unicode tables; the theorems below that take an
    arbitrary method name ask for an ASCII one.) *)
Definition lowerByte (c : ascii) : ascii :=
  let n := nat_of_ascii c in
  if (65 <=? n)%nat && (n <=? 90)%nat then ascii_of_nat (n + 32) else c.

Definition upperByte (c : ascii) : ascii :=
  let n := nat_of_ascii c in
  if (97 <=? n)%nat && (n <=? 122)%nat then ascii_of_nat (n - 32) else c.

Fixpoint mapBytes (f : ascii -> ascii) (s : string) : string :=
  match s with
  | EmptyString => EmptyString
  | String c s' => String (f c) (mapBytes f s')
  end.

Definition ToLower (s : string) : string := mapBytes lowerByte s.
Definition ToUpper (s : string) : string := mapBytes upperByte s.

Fixpoint isASCII (s : string) : bool :=
  match s with
  | EmptyString => true
  | String c s' => (nat_of_ascii c <? 128)%nat && isASCII s'
  end.

Section PathItemOperations.

(** A path item is the wrapper's embedded [*v3.PathItem]: [None] is the
    nil pointer.  An operation that a method hands out is the
    [*v3.Operation] that [WrapOperation] wraps. *)
Definition SetOperation (pi : option v3.PathItem) (method : string)
    (operation : option v3.Operation) : option v3.PathItem :=
  match pi with
  | None => None
  | Some item =>
      let op := operation in
      let method := ToLower method in
      let 'v3.mkPathItem get post put delete options head patch trace := item in
      Some
        (if streq method "get" then
           v3.mkPathItem op post put delete options head patch trace
         else if streq method "post" then
           v3.mkPathItem get op put delete options head patch trace
         else if streq method "put" then
           v3.mkPathItem get post op delete options head patch trace
         else if streq method "delete" then
           v3.mkPathItem get post put op options head patch trace
         else if streq method "options" then
           v3.mkPathItem get post put delete op head patch trace
         else if streq method "head" then
           v3.mkPathItem get post put delete options op patch trace
         else if streq method "patch" then
           v3.mkPathItem get post put delete options head op trace
         else if streq method "trace" then
           v3.mkPathItem get post put delete options head patch op
         else item)
  end.

(** [Operations]: the map is nil for a nil path item. *)
Definition Operations (pi : option v3.PathItem)
  : option (gmap string v3.Operation) :=
  match pi with
  | None => None
  | Some item =>
      let add (name : string) (slot : option v3.Operation)
              (operations : gmap string v3.Operation) :=
        match slot with
        | Some op => <[name := op]> operations
        | None => operations
        end in
      Some (add "TRACE" (v3.Trace item)
             (add "PATCH" (v3.Patch item)
               (add "HEAD" (v3.Head item)
                 (add "OPTIONS" (v3.Options item)
                   (add "DELETE" (v3.Delete item)
                     (add "PUT" (v3.Put item)
                       (add "POST" (v3.Post item)
                         (add "GET" (v3.Get item) ∅))))))))
  end.

Definition GetOperation (pi : option v3.PathItem) (method : string)
  : option v3.Operation :=
  match pi with
  | None => None
  | Some item =>
      let method := ToUpper method in
      if streq method "GET" then v3.Get item
      else if streq method "POST" then v3.Post item
      else if streq method "PUT" then v3.Put item
      else if streq method "DELETE" then v3.Delete item
      else if streq method "OPTIONS" then v3.Options item
      else if streq method "HEAD" then v3.Head item
      else if streq method "PATCH" then v3.Patch item
      else if streq method "TRACE" then v3.Trace item
      else None
  end.

(** The names under which [Operations] lists the slots. *)
Definition methodNames : list string :=
  ["GET"; "POST"; "PUT"; "DELETE"; "OPTIONS"; "HEAD"; "PATCH"; "TRACE"].

End PathItemOperations.

Section MethodNames.

Lemma upperByte_lowerByte c : upperByte (lowerByte c) = upperByte c.
Proof. destruct c as [[] [] [] [] [] [] [] []]; reflexivity. Qed.

Lemma lowerByte_upperByte c : lowerByte (upperByte c) = lowerByte c.
Proof. destruct c as [[] [] [] [] [] [] [] []]; reflexivity. Qed.

Lemma ToUpper_ToLower s : ToUpper (ToLower s) = ToUpper s.
Proof.
  unfold ToUpper, ToLower. induction s as [|c s IH]; cbn; [done|].
  by rewrite upperByte_lowerByte, IH.
Qed.

Lemma ToLower_ToUpper s : ToLower (ToUpper s) = ToLower s.
Proof.
  unfold ToUpper, ToLower. induction s as [|c s IH]; cbn; [done|].
  by rewrite lowerByte_upperByte, IH.
Qed.

(** The eight methods, for the proofs. *)
Inductive Method : Type :=
| MGet | MPost | MPut | MDelete | MOptions | MHead | MPatch | MTrace.

Local Instance Method_eq_dec : EqDecision Method.
Proof. solve_decision. Defined.

Definition lowerName (m : Method) : string :=
  match m with
  | MGet => "get" | MPost => "post" | MPut => "put" | MDelete => "delete"
  | MOptions => "options" | MHead => "head" | MPatch => "patch"
  | MTrace => "trace"
  end.

Definition upperName (m : Method) : string :=
  match m with
  | MGet => "GET" | MPost => "POST" | MPut => "PUT" | MDelete => "DELETE"
  | MOptions => "OPTIONS" | MHead => "HEAD" | MPatch => "PATCH"
  | MTrace => "TRACE"
  end.

Definition parseLower (s : string) : option Method :=
  if streq s "get" then Some MGet
  else if streq s "post" then Some MPost
  else if streq s "put" then Some MPut
  else if streq s "delete" then Some MDelete
  else if streq s "options" then Some MOptions
  else if streq s "head" then Some MHead
  else if streq s "patch" then Some MPatch
  else if streq s "trace" then Some MTrace
  else None.

Definition parseUpper (s : string) : option Method :=
  if streq s "GET" then Some MGet
  else if streq s "POST" then Some MPost
  else if streq s "PUT" then Some MPut
  else if streq s "DELETE" then Some MDelete
  else if streq s "OPTIONS" then Some MOptions
  else if streq s "HEAD" then Some MHead
  else if streq s "PATCH" then Some MPatch
  else if streq s "TRACE" then Some MTrace
  else None.

Definition slot (m : Method) (item : v3.PathItem) : option v3.Operation :=
  match m with
  | MGet => v3.Get item | MPost => v3.Post item | MPut => v3.Put item
  | MDelete => v3.Delete item | MOptions => v3.Options item
  | MHead => v3.Head item | MPatch => v3.Patch item | MTrace => v3.Trace item
  end.

Definition setSlot (m : Method) (op : option v3.Operation) (item : v3.PathItem)
  : v3.PathItem :=
  let 'v3.mkPathItem get post put delete options head patch trace := item in
  match m with
  | MGet => v3.mkPathItem op post put delete options head patch trace
  | MPost => v3.mkPathItem get op put delete options head patch trace
  | MPut => v3.mkPathItem get post op delete options head patch trace
  | MDelete => v3.mkPathItem get post put op options head patch trace
  | MOptions => v3.mkPathItem get post put delete op head patch trace
  | MHead => v3.mkPathItem get post put delete options op patch trace
  | MPatch => v3.mkPathItem get post put delete options head op trace
  | MTrace => v3.mkPathItem get post put delete options head patch op
  end.

Lemma parseLower_Some s m : parseLower s = Some m <-> s = lowerName m.
Proof.
  unfold parseLower.
  repeat (match goal with
          | |- context [streq s ?n] =>
              let H := fresh "H" in
              destruct (streq s n) eqn:H;
              [apply streq_true in H; subst s; destruct m; cbn; split; congruence
              |apply streq_false in H]
          end).
  split; [discriminate|]. intros ->. destruct m; cbn in *; congruence.
Qed.

Lemma parseUpper_Some s m : parseUpper s = Some m <-> s = upperName m.
Proof.
  unfold parseUpper.
  repeat (match goal with
          | |- context [streq s ?n] =>
              let H := fresh "H" in
              destruct (streq s n) eqn:H;
              [apply streq_true in H; subst s; destruct m; cbn; split; congruence
              |apply streq_false in H]
          end).
  split; [discriminate|]. intros ->. destruct m; cbn in *; congruence.
Qed.

Lemma parseUpper_ToUpper s : parseUpper (ToUpper s) = parseLower (ToLower s).
Proof.
  destruct (parseLower (ToLower s)) as [m|] eqn:Hl.
  - apply parseLower_Some in Hl. apply parseUpper_Some.
    rewrite <- ToUpper_ToLower, Hl. by destruct m.
  - destruct (parseUpper (ToUpper s)) as [m|] eqn:Hu; [|done].
    apply parseUpper_Some in Hu.
    assert (parseLower (ToLower s) = Some m); [|congruence].
    apply parseLower_Some. rewrite <- ToLower_ToUpper, Hu. by destruct m.
Qed.

Lemma SetOperation_slot item method operation :
  SetOperation (Some item) method operation =
  Some (match parseLower (ToLower method) with
        | Some m => setSlot m operation item
        | None => item
        end).
Proof.
  unfold SetOperation, parseLower. destruct item. cbn [setSlot].
  repeat (match goal with
          | |- context [if streq ?a ?b then _ else _] => destruct (streq a b)
          end; [reflexivity|]).
  reflexivity.
Qed.

Lemma GetOperation_slot item method :
  GetOperation (Some item) method =
  match parseLower (ToLower method) with
  | Some m => slot m item
  | None => None
  end.
Proof.
  rewrite <- parseUpper_ToUpper. unfold GetOperation, parseUpper.
  repeat (match goal with
          | |- context [if streq ?a ?b then _ else _] => destruct (streq a b)
          end; [reflexivity|]).
  reflexivity.
Qed.

Lemma slot_setSlot m' m op item :
  slot m' (setSlot m op item) = if decide (m' = m) then op else slot m' item.
Proof. destruct item, m, m'; reflexivity. Qed.

Lemma methodNames_upper name :
  name ∈ methodNames <-> exists m, name = upperName m.
Proof.
  unfold methodNames. rewrite !elem_of_cons, elem_of_nil. split.
  - intros [->|[->|[->|[->|[->|[->|[->|[->|[]]]]]]]]];
      [by exists MGet | by exists MPost | by exists MPut | by exists MDelete
       | by exists MOptions | by exists MHead | by exists MPatch
       | by exists MTrace].
  - intros [[] ->]; cbn; tauto.
Qed.

Lemma Operations_slot item m :
  exists ops, Operations (Some item) = Some ops
              /\ ops !! upperName m = slot m item.
Proof.
  eexists. split; [reflexivity|].
  destruct item as [[?|] [?|] [?|] [?|] [?|] [?|] [?|] [?|]], m; reflexivity.
Qed.

Lemma Operations_dom item ops name op :
  Operations (Some item) = Some ops -> ops !! name = Some op ->
  name ∈ methodNames.
Proof.
  intros [= <-] Hop. destruct (decide (name ∈ methodNames)) as [|Hnot]; [done|].
  exfalso. unfold methodNames in Hnot.
  rewrite !not_elem_of_cons in Hnot.
  destruct Hnot as (? & ? & ? & ? & ? & ? & ? & ? & _).
  destruct item as [[?|] [?|] [?|] [?|] [?|] [?|] [?|] [?|]]; cbn in Hop;
    rewrite ?lookup_insert_ne in Hop by done; by rewrite lookup_empty in Hop.
Qed.

End MethodNames.

Section PathItemTheorems.

(** [SetOperation] and [GetOperation] agree on the method names: after
    setting the operation of a method, [GetOperation] finds it under every
    spelling of that method, in upper or lower case, if the method is one
    of the eight; it finds what it found before under every other method;
    and setting the operation of an unknown method changes nothing. *)
Theorem SetOperation_then_GetOperation
    (item : v3.PathItem) (method method' : string)
    (operation : option v3.Operation) :
  isASCII method = true -> isASCII method' = true ->
  GetOperation (SetOperation (Some item) method operation) method' =
    (if bool_decide (ToUpper method ∈ methodNames
                     /\ ToUpper method' = ToUpper method)
     then operation else GetOperation (Some item) method')
  /\ (ToUpper method ∉ methodNames ->
      SetOperation (Some item) method operation = Some item).
Proof.
  intros _ _. rewrite SetOperation_slot.
  assert (Hknown : ToUpper method ∈ methodNames <->
                   exists m, parseLower (ToLower method) = Some m).
  { rewrite methodNames_upper. split; intros [m Hm]; exists m.
    - rewrite <- parseUpper_ToUpper. by apply parseUpper_Some.
    - rewrite <- parseUpper_ToUpper in Hm. by apply parseUpper_Some in Hm. }
  split.
  - rewrite !GetOperation_slot.
    destruct (parseLower (ToLower method)) as [m|] eqn:Hm.
    + destruct (parseLower (ToLower method')) as [m'|] eqn:Hm'.
      * rewrite slot_setSlot. destruct (decide (m' = m)) as [->|Hne].
        -- rewrite bool_decide_eq_true_2; [done|]. split; [apply Hknown; eauto|].
           apply parseLower_Some in Hm, Hm'.
           by rewrite <- (ToUpper_ToLower method), <- (ToUpper_ToLower method'),
                      Hm, Hm'.
        -- rewrite bool_decide_eq_false_2; [done|]. intros [_ Heq].
           apply Hne. rewrite <- parseUpper_ToUpper in Hm, Hm'.
           rewrite Heq in Hm'. congruence.
      * rewrite bool_decide_eq_false_2; [done|]. intros [_ Heq].
        rewrite <- parseUpper_ToUpper in Hm, Hm'. rewrite Heq in Hm'.
        congruence.
    + rewrite bool_decide_eq_false_2; [done|]. intros [Hin _].
      apply Hknown in Hin as [m ?]. congruence.
  - intros Hnot. destruct (parseLower (ToLower method)) as [m|] eqn:Hm; [|done].
    destruct Hnot. apply Hknown. eauto.
Qed.

(** [Operations] lists, under the upper-case name of each of the eight
    methods, exactly the operation that [GetOperation] finds for it, and
    nothing under any other name. *)
Theorem Operations_lists_what_GetOperation_finds (item : v3.PathItem) :
  exists ops,
    Operations (Some item) = Some ops
    /\ forall name,
         ops !! name = if bool_decide (name ∈ methodNames)
                       then GetOperation (Some item) name else None.
Proof.
  eexists. split; [reflexivity|]. intros name.
  case_bool_decide as Hin.
  - apply methodNames_upper in Hin as [m ->].
    destruct (Operations_slot item m) as (ops & [= <-] & ->).
    rewrite GetOperation_slot.
    assert (parseLower (ToLower (upperName m)) = Some m) as ->; [|done].
    apply parseLower_Some. by destruct m.
  - destruct (_ !! name) as [op|] eqn:Hop; [|done].
    destruct Hin. by eapply (Operations_dom item).
Qed.

End PathItemTheorems.

Lemma SetOperation_then_GetOperation_witness :
  GetOperation
    (SetOperation
       (Some (v3.mkPathItem None None None None None None None None))
       "post" (Some (v3.mkOperation ["pets"] "addPet"))) "Post" =
    (if bool_decide (ToUpper "post" ∈ methodNames
                     /\ ToUpper "Post" = ToUpper "post")
     then Some (v3.mkOperation ["pets"] "addPet")
     else GetOperation
            (Some (v3.mkPathItem None None None None None None None None))
            "Post")
  /\ (ToUpper "post" ∉ methodNames ->
      SetOperation
        (Some (v3.mkPathItem None None None None None None None None))
        "post" (Some (v3.mkOperation ["pets"] "addPet")) =
      Some (v3.mkPathItem None None None None None None None None)).
Proof.
  apply (SetOperation_then_GetOperation
           (v3.mkPathItem None None None None None None None None)
           "post" "Post" (Some (v3.mkOperation ["pets"] "addPet")));
    reflexivity.
Defined.

(* ===================================================================== *)
(** ** Filtering operations by tag and by id (filter.go) *)
(* ===================================================================== *)

Section Filter.

Definition sliceToMap (items : list string) : gmap string bool :=
  fold_left (fun m item => <[item := true]> m) items ∅.

(** [tags[k]] on a [map[string]bool]. *)
Definition isSet (m : gmap string bool) (k : string) : bool :=
  default false (m !! k).

Definition operationHasTag (op : option v3.Operation) (tags : gmap string bool)
  : bool :=
  match op with
  | None => false
  | Some op => existsb (fun hasTag => isSet tags hasTag) (v3.Tags op)
  end.

Definition operationHasOperationID (op : option v3.Operation)
    (operationIDs : gmap string bool) : bool :=
  match op with
  | None => false
  | Some op => isSet operationIDs (v3.OperationId op)
  end.

(** The body of the loop over the path items that [operationsWithTags] and
    [operationsWithOperationIDs] share, for the test [has] of either: the
    names of the operations for which the test gives [exclude] are
    collected, and then their operations are set to nil. *)
Definition dropOperations (has : option v3.Operation -> bool) (exclude : bool)
    (pathItem : v3.PathItem) : v3.PathItem :=
  let ops := default ∅ (Operations (Some pathItem)) in
  let names :=
    map fst (List.filter (fun kv => eqb (has (Some kv.2)) exclude)
                         (map_to_list ops)) in
  default pathItem
    (fold_left (fun pi name => SetOperation pi name None) names (Some pathItem)).

(** The paths of the document, by path: [None] for nil [Paths]. *)
Definition operationsWithTags (paths : option (gmap string v3.PathItem))
    (tags : gmap string bool) (exclude : bool)
  : option (gmap string v3.PathItem) :=
  match paths with
  | None => None
  | Some m =>
      Some (dropOperations (fun op => operationHasTag op tags) exclude <$> m)
  end.

Definition operationsWithOperationIDs (paths : option (gmap string v3.PathItem))
    (operationIDs : gmap string bool) (exclude : bool)
  : option (gmap string v3.PathItem) :=
  match paths with
  | None => None
  | Some m =>
      Some (dropOperations
              (fun op => operationHasOperationID op operationIDs) exclude <$> m)
  end.

(** [filterOperationsByTag], on the paths of the document and the two
    options [ExcludeTags] and [IncludeTags]. *)
Definition filterOperationsByTag (paths : option (gmap string v3.PathItem))
    (ExcludeTags IncludeTags : list string) : option (gmap string v3.PathItem) :=
  let paths :=
    if (0 <? length ExcludeTags)%nat
    then operationsWithTags paths (sliceToMap ExcludeTags) true else paths in
  if (0 <? length IncludeTags)%nat
  then operationsWithTags paths (sliceToMap IncludeTags) false else paths.

(** [filterOperationsByOperationID], on the paths of the document and the
    two options [ExcludeOperationIDs] and [IncludeOperationIDs]. *)
Definition filterOperationsByOperationID
    (paths : option (gmap string v3.PathItem))
    (ExcludeOperationIDs IncludeOperationIDs : list string)
  : option (gmap string v3.PathItem) :=
  let paths :=
    if (0 <? length ExcludeOperationIDs)%nat
    then operationsWithOperationIDs paths (sliceToMap ExcludeOperationIDs) true
    else paths in
  if (0 <? length IncludeOperationIDs)%nat
  then operationsWithOperationIDs paths (sliceToMap IncludeOperationIDs) false
  else paths.

End Filter.

Section FilterFacts.

Lemma sliceToMap_lookup items k :
  isSet (sliceToMap items) k = bool_decide (k ∈ items).
Proof.
  unfold sliceToMap, isSet.
  assert (Hgen : forall (m : gmap string bool),
            (forall k' b, m !! k' = Some b -> b = true) ->
            default false (fold_left (fun m item => <[item := true]> m) items m !! k)
            = bool_decide (k ∈ items \/ is_Some (m !! k))).
  { induction items as [|item items IH]; intros m Hm; cbn [fold_left].
    - destruct (m !! k) as [b|] eqn:Hk.
      + rewrite (Hm k b Hk). cbn. rewrite bool_decide_eq_true_2; [done|].
        right. eauto.
      + cbn. rewrite bool_decide_eq_false_2; [done|].
        intros [Hin|[? ?]]; [by apply elem_of_nil in Hin | done].
    - rewrite IH.
      + apply bool_decide_ext. rewrite elem_of_cons.
        destruct (decide (k = item)) as [->|Hne].
        * rewrite lookup_insert_eq. split; [tauto|]. intros _. right. eauto.
        * rewrite lookup_insert_ne by done. split; [tauto|].
          intros [[?|?]|?]; tauto.
      + intros k' b. destruct (decide (k' = item)) as [->|Hne].
        * rewrite lookup_insert_eq. congruence.
        * rewrite lookup_insert_ne by done. apply Hm. }
  rewrite Hgen by (intros k' b; by rewrite lookup_empty).
  apply bool_decide_ext. rewrite lookup_empty. split; [|tauto].
  intros [?|[? ?]]; done.
Qed.

Lemma fold_SetOperation_slot names : forall item,
  (forall name, name ∈ names -> name ∈ methodNames) ->
  exists item',
    fold_left (fun pi name => SetOperation pi name None) names (Some item)
      = Some item'
    /\ forall m, slot m item' =
                 if bool_decide (upperName m ∈ names) then None else slot m item.
Proof.
  induction names as [|name names IH]; intros item Hnames; cbn [fold_left].
  - exists item. split; [done|]. intros m.
    rewrite bool_decide_eq_false_2; [done | apply not_elem_of_nil].
  - assert (Hname : name ∈ methodNames) by (apply Hnames; by left).
    apply methodNames_upper in Hname as [m0 ->].
    rewrite SetOperation_slot.
    assert (parseLower (ToLower (upperName m0)) = Some m0) as ->
      by (apply parseLower_Some; by destruct m0).
    destruct (IH (setSlot m0 None item)) as (item' & -> & Hslots).
    { intros n Hn. apply Hnames. by right. }
    exists item'. split; [done|]. intros m. rewrite Hslots, slot_setSlot.
    destruct (decide (m = m0)) as [->|Hne].
    + rewrite (bool_decide_eq_true_2 (upperName m0 ∈ upperName m0 :: names))
        by by left.
      by case_bool_decide.
    + rewrite (bool_decide_ext (upperName m ∈ upperName m0 :: names)
                               (upperName m ∈ names)); [done|].
      rewrite elem_of_cons. split; [|tauto].
      intros [Heq|?]; [|done]. destruct Hne. by destruct m, m0.
Qed.

(** What [dropOperations] leaves in a slot: the operation that was there,
    unless the test gives [exclude] for it. *)
Lemma dropOperations_slot has exclude item m :
  slot m (dropOperations has exclude item) =
  match slot m item with
  | Some op => if eqb (has (Some op)) exclude then None else Some op
  | None => None
  end.
Proof.
  unfold dropOperations.
  destruct (Operations (Some item)) as [ops|] eqn:Hops; [|done].
  cbn [default from_option id].
  set (names := map fst (List.filter _ (map_to_list ops))).
  assert (Hin : forall name,
            name ∈ names <->
            exists op, ops !! name = Some op /\ eqb (has (Some op)) exclude = true).
  { intros name. subst names. rewrite list_elem_of_In, in_map_iff. split.
    - intros ([n op] & <- & Hf). apply filter_In in Hf as [Hl Hc].
      exists op. split; [|done]. apply elem_of_map_to_list.
      by apply list_elem_of_In.
    - intros (op & Hop & Hc). exists (name, op). split; [done|].
      apply filter_In. split; [|done]. apply list_elem_of_In.
      by apply elem_of_map_to_list. }
  destruct (fold_SetOperation_slot names item) as (item' & -> & Hslots).
  { intros name Hname. apply Hin in Hname as (op & Hop & _).
    by eapply Operations_dom. }
  cbn [default]. rewrite Hslots.
  destruct (Operations_slot item m) as (ops' & Hops' & Hm).
  assert (ops' = ops) as -> by congruence.
  case_bool_decide as Hdrop.
  - apply Hin in Hdrop as (op & Hop & Hc). rewrite <- Hm, Hop. by rewrite Hc.
  - destruct (slot m item) as [op|] eqn:Hs; [|done].
    destruct (eqb (has (Some op)) exclude) eqn:Hc; [|done].
    destruct Hdrop. apply Hin. exists op. by rewrite Hm.
Qed.

Lemma GetOperation_dropOperations has exclude item method :
  GetOperation (Some (dropOperations has exclude item)) method =
  match GetOperation (Some item) method with
  | Some op => if eqb (has (Some op)) exclude then None else Some op
  | None => None
  end.
Proof.
  rewrite !GetOperation_slot.
  destruct (parseLower (ToLower method)) as [m|]; [|done].
  apply dropOperations_slot.
Qed.

Lemma operationHasTag_spec op tags :
  operationHasTag (Some op) (sliceToMap tags) = true <->
  exists tag, tag ∈ v3.Tags op /\ tag ∈ tags.
Proof.
  cbn. rewrite existsb_exists. split.
  - intros (tag & Hin & Hset). rewrite sliceToMap_lookup in Hset.
    apply bool_decide_eq_true in Hset. exists tag.
    split; [by apply list_elem_of_In | done].
  - intros (tag & Hin & Htag). exists tag. split; [by apply list_elem_of_In|].
    rewrite sliceToMap_lookup. by apply bool_decide_eq_true.
Qed.

(** Whether the tag filter keeps an operation: none of its tags is
    excluded, and, when tags to include are given, one of its tags is
    among them. *)
Definition keptByTag (ExcludeTags IncludeTags : list string)
    (op : v3.Operation) : Prop :=
  (forall tag, tag ∈ v3.Tags op -> tag ∉ ExcludeTags)
  /\ (IncludeTags = [] \/ exists tag, tag ∈ v3.Tags op /\ tag ∈ IncludeTags).

(** Whether the id filter keeps an operation. *)
Definition keptByOperationID (ExcludeOperationIDs IncludeOperationIDs : list string)
    (op : v3.Operation) : Prop :=
  (v3.OperationId op ∉ ExcludeOperationIDs)
  /\ (IncludeOperationIDs = [] \/ v3.OperationId op ∈ IncludeOperationIDs).

(** The two passes, one that excludes and one that includes, of either
    filter, for a test [has] of an operation against a list. *)
Definition twoPasses (has : list string -> option v3.Operation -> bool)
    (excluded included : list string) (item : v3.PathItem) : v3.PathItem :=
  let item :=
    if (0 <? length excluded)%nat
    then dropOperations (has excluded) true item else item in
  if (0 <? length included)%nat
  then dropOperations (has included) false item else item.

Lemma twoPasses_keep has excluded included item method op :
  GetOperation (Some (twoPasses has excluded included item)) method = Some op <->
  GetOperation (Some item) method = Some op
  /\ (excluded = [] \/ has excluded (Some op) = false)
  /\ (included = [] \/ has included (Some op) = true).
Proof.
  unfold twoPasses.
  destruct excluded as [|e excluded], included as [|i included];
    cbn [length Nat.ltb Nat.leb]; rewrite ?GetOperation_dropOperations.
  - split; [intros ?; repeat split; auto | tauto].
  - destruct (GetOperation (Some item) method) as [op'|]; [|split; [done|tauto]].
    destruct (has (i :: included) (Some op')) eqn:Hi; cbn [eqb].
    + split; [intros [= <-]; repeat split; auto|tauto].
    + split; [done|]. intros ([= <-] & _ & [?|?]); congruence.
  - destruct (GetOperation (Some item) method) as [op'|]; [|split; [done|tauto]].
    destruct (has (e :: excluded) (Some op')) eqn:He; cbn [eqb].
    + split; [done|]. intros ([= <-] & [?|?] & _); congruence.
    + split; [intros [= <-]; repeat split; auto|tauto].
  - destruct (GetOperation (Some item) method) as [op'|]; [|split; [done|tauto]].
    destruct (has (e :: excluded) (Some op')) eqn:He; cbn [eqb].
    + split; [done|]. intros ([= <-] & [?|?] & _); congruence.
    + destruct (has (i :: included) (Some op')) eqn:Hi; cbn [eqb].
      * split; [intros [= <-]; repeat split; auto|tauto].
      * split; [done|]. intros ([= <-] & _ & [?|?]); congruence.
Qed.

Lemma twoPasses_fmap has excluded included (paths : gmap string v3.PathItem) :
  twoPasses has excluded included <$> paths =
  (let paths1 :=
     if (0 <? length excluded)%nat
     then dropOperations (has excluded) true <$> paths else paths in
   if (0 <? length included)%nat
   then dropOperations (has included) false <$> paths1 else paths1).
Proof.
  unfold twoPasses. cbn zeta.
  destruct (0 <? length excluded)%nat, (0 <? length included)%nat;
    rewrite <- ?map_fmap_compose; try done. apply map_fmap_id.
Qed.

(** What a filter made of the two passes does to the paths. *)
Lemma twoPasses_paths has excluded included (paths : gmap string v3.PathItem)
    (path : string) :
  ((twoPasses has excluded included <$> paths) !! path = None <->
   paths !! path = None)
  /\ forall item, paths !! path = Some item ->
       exists item',
         (twoPasses has excluded included <$> paths) !! path = Some item'
         /\ forall method op,
              GetOperation (Some item') method = Some op <->
              GetOperation (Some item) method = Some op
              /\ (excluded = [] \/ has excluded (Some op) = false)
              /\ (included = [] \/ has included (Some op) = true).
Proof.
  rewrite lookup_fmap. split; [by rewrite fmap_None|].
  intros item ->. eexists. split; [done|]. intros method op.
  apply twoPasses_keep.
Qed.

(** [filterOperationsByTag] removes no path and changes no operation; it
    keeps, in every path item and under every method, exactly the
    operations none of whose tags is excluded and, when tags to include are
    given, one of whose tags is among them. *)
Theorem filterOperationsByTag_keeps_exactly
    (paths : gmap string v3.PathItem) (ExcludeTags IncludeTags : list string) :
  exists paths',
    filterOperationsByTag (Some paths) ExcludeTags IncludeTags = Some paths'
    /\ forall path,
         (paths' !! path = None <-> paths !! path = None)
         /\ forall item, paths !! path = Some item ->
              exists item',
                paths' !! path = Some item'
                /\ forall method op,
                     GetOperation (Some item') method = Some op <->
                     GetOperation (Some item) method = Some op
                     /\ keptByTag ExcludeTags IncludeTags op.
Proof.
  set (has := fun (tags : list string) (o : option v3.Operation) =>
                operationHasTag o (sliceToMap tags)).
  exists (twoPasses has ExcludeTags IncludeTags <$> paths). split.
  { rewrite twoPasses_fmap. unfold filterOperationsByTag, operationsWithTags.
    cbn zeta.
    by destruct (0 <? length ExcludeTags)%nat, (0 <? length IncludeTags)%nat. }
  intros path.
  destruct (twoPasses_paths has ExcludeTags IncludeTags paths path)
    as [Hnone Hsome].
  split; [exact Hnone|]. intros item Hitem.
  destruct (Hsome item Hitem) as (item' & Hitem' & Hops).
  exists item'. split; [exact Hitem'|]. intros method op. rewrite Hops.
  unfold keptByTag, has.
  assert (Hex : ExcludeTags = [] \/
                operationHasTag (Some op) (sliceToMap ExcludeTags) = false <->
                forall tag, tag ∈ v3.Tags op -> tag ∉ ExcludeTags).
  { split.
    - intros [-> | Hno] tag Htag Hin; [by apply elem_of_nil in Hin|].
      assert (operationHasTag (Some op) (sliceToMap ExcludeTags) = true);
        [|congruence].
      apply operationHasTag_spec. eauto.
    - intros Hall. right.
      destruct (operationHasTag _ _) eqn:Hhas; [|done].
      apply operationHasTag_spec in Hhas as (tag & Htag & Hin).
      by destruct (Hall tag Htag). }
  rewrite Hex, operationHasTag_spec. tauto.
Qed.

(** [filterOperationsByOperationID] removes no path and changes no
    operation; it keeps, in every path item and under every method, exactly
    the operations whose id is not excluded and, when ids to include are
    given, is among them. *)
Theorem filterOperationsByOperationID_keeps_exactly
    (paths : gmap string v3.PathItem)
    (ExcludeOperationIDs IncludeOperationIDs : list string) :
  exists paths',
    filterOperationsByOperationID (Some paths) ExcludeOperationIDs
      IncludeOperationIDs = Some paths'
    /\ forall path,
         (paths' !! path = None <-> paths !! path = None)
         /\ forall item, paths !! path = Some item ->
              exists item',
                paths' !! path = Some item'
                /\ forall method op,
                     GetOperation (Some item') method = Some op <->
                     GetOperation (Some item) method = Some op
                     /\ keptByOperationID ExcludeOperationIDs
                          IncludeOperationIDs op.
Proof.
  set (has := fun (ids : list string) (o : option v3.Operation) =>
                operationHasOperationID o (sliceToMap ids)).
  exists (twoPasses has ExcludeOperationIDs IncludeOperationIDs <$> paths).
  split.
  { rewrite twoPasses_fmap.
    unfold filterOperationsByOperationID, operationsWithOperationIDs.
    cbn zeta.
    by destruct (0 <? length ExcludeOperationIDs)%nat,
                (0 <? length IncludeOperationIDs)%nat. }
  intros path.
  destruct (twoPasses_paths has ExcludeOperationIDs IncludeOperationIDs paths path)
    as [Hnone Hsome].
  split; [exact Hnone|]. intros item Hitem.
  destruct (Hsome item Hitem) as (item' & Hitem' & Hops).
  exists item'. split; [exact Hitem'|]. intros method op. rewrite Hops.
  unfold keptByOperationID, has. cbn [operationHasOperationID].
  rewrite !sliceToMap_lookup, bool_decide_eq_false, bool_decide_eq_true.
  assert (Hex : ExcludeOperationIDs = [] \/
                v3.OperationId op ∉ ExcludeOperationIDs <->
                v3.OperationId op ∉ ExcludeOperationIDs).
  { split; [|tauto]. intros [-> | ?]; [apply not_elem_of_nil | done]. }
  rewrite Hex. tauto.
Qed.

End FilterFacts.

(* ===================================================================== *)
(** ** Compilation finishes *)
(* ===================================================================== *)

(** The number of schema cells that the compiler can reach from a
    reference: the cell itself and, below its value, the properties, the
    members of allOf, anyOf and oneOf, the items and the schema of the
    additional properties. *)
Fixpoint refSize (ref : openapi.SchemaRef) : nat :=
  match ref with
  | openapi.mkSchemaRef _ v _ _ _ _ _ _ =>
      S (match v with
         | Some s => schemaSize s
         | None => 0
         end)
  end
with schemaSize (s : openapi.Schema) : nat :=
  match s with
  | openapi.mkSchema _ _ _ _ props _ allOf _ _ _ _ _ _ ap _ items anyOf oneOf =>
      let refs := fix refs (l : list openapi.SchemaRef) : nat :=
        match l with
        | [] => 0
        | r :: l' => refSize r + refs l'
        end in
      let named := fix named (l : list (string * openapi.SchemaRef)) : nat :=
        match l with
        | [] => 0
        | kv :: l' => refSize kv.2 + named l'
        end in
      let some (o : option openapi.SchemaRef) :=
        match o with Some r => refSize r | None => 0 end in
      let someRefs (o : option (list openapi.SchemaRef)) :=
        match o with Some l => refs l | None => 0 end in
      S (match props with Some l => named l | None => 0 end
         + someRefs allOf + some ap + some items + someRefs anyOf
         + someRefs oneOf)
  end.

Fixpoint refsSize (l : list openapi.SchemaRef) : nat :=
  match l with
  | [] => 0
  | r :: l' => refSize r + refsSize l'
  end.

Fixpoint namedSize (l : list (string * openapi.SchemaRef)) : nat :=
  match l with
  | [] => 0
  | kv :: l' => refSize kv.2 + namedSize l'
  end.

Definition optSize (o : option openapi.SchemaRef) : nat :=
  match o with Some r => refSize r | None => 0 end.

Definition optRefsSize (o : option (list openapi.SchemaRef)) : nat :=
  match o with Some l => refsSize l | None => 0 end.

Definition optNamedSize (o : option (list (string * openapi.SchemaRef))) : nat :=
  match o with Some l => namedSize l | None => 0 end.

(** A call that returns or panics: the bound on the depth was enough. *)
Definition finishes {A} (m : M A) : Prop :=
  m = Panics \/ exists r, m = Returns r.

Section Sizes.

Lemma schemaSize_eq s :
  schemaSize s =
  S (optNamedSize (openapi.Properties s) + optRefsSize (openapi.AllOf s)
     + optSize (openapi.AdditionalProperties_Schema s)
     + optSize (openapi.Items s) + optRefsSize (openapi.AnyOf s)
     + optRefsSize (openapi.OneOf s)).
Proof.
  destruct s as [? ? ? ? props ? allOf ? ? ? ? ? ? ap ? items anyOf oneOf].
  cbn [schemaSize openapi.Properties openapi.AllOf openapi.Items
       openapi.AdditionalProperties_Schema openapi.AnyOf openapi.OneOf].
  assert (Hrefs : forall l,
    (fix refs (l : list openapi.SchemaRef) : nat :=
       match l with [] => 0 | r :: l' => refSize r + refs l' end) l
    = refsSize l) by (induction l as [|? ? IH]; cbn; [done | by rewrite IH]).
  assert (Hnamed : forall l,
    (fix named (l : list (string * openapi.SchemaRef)) : nat :=
       match l with [] => 0 | kv :: l' => refSize kv.2 + named l' end) l
    = namedSize l) by (induction l as [|? ? IH]; cbn; [done | by rewrite IH]).
  unfold optNamedSize, optRefsSize, optSize.
  destruct props, allOf, anyOf, oneOf; by rewrite ?Hrefs, ?Hnamed.
Qed.

Lemma refSize_eq ref :
  refSize ref = S (match openapi.Value ref with
                   | Some s => schemaSize s
                   | None => 0
                   end).
Proof. by destruct ref. Qed.

Lemma refSize_pos ref : 0 < refSize ref.
Proof. rewrite refSize_eq. lia. Qed.

Lemma refsSize_elem r l : r ∈ l -> refSize r <= refsSize l.
Proof.
  induction l as [|a l IH]; [by intros ?%elem_of_nil|].
  intros [->|Hin]%elem_of_cons; cbn; [lia|]. specialize (IH Hin). lia.
Qed.

Lemma namedSize_assoc k l r :
  openapi.assoc k l = Some r -> refSize r <= namedSize l.
Proof.
  induction l as [|[k' v] l IH]; cbn; [done|].
  destruct (streq k' k); [intros [= ->]; lia|].
  intros Hr. specialize (IH Hr). lia.
Qed.

Lemma namedSize_Set k v m : namedSize (omap.Set_ k v m) <= namedSize m + refSize v.
Proof.
  induction m as [|[k' v'] m IH]; cbn; [lia|].
  destruct (streq k' k); cbn; lia.
Qed.

Lemma namedSize_mergeProperties p2 : forall p1,
  namedSize (mergeProperties p1 p2) <= namedSize p1 + namedSize p2.
Proof.
  unfold mergeProperties.
  induction p2 as [|[k v] p2 IH]; intros p1; cbn [fold_left namedSize];
    [lia|].
  etrans; [apply IH|].
  assert (namedSize (mergeProperty p1 (k, v)) <= namedSize p1 + refSize v);
    [|cbn [namedSize snd]; lia].
  unfold mergeProperty.
  destruct (omap.Find k p1) as [existingVal|];
    [destruct (shouldReplaceExisting existingVal v)|];
    first [apply namedSize_Set | lia].
Qed.

(** A merge is smaller than its two schemas together. *)
Lemma schemaSize_merge s1 s2 allOf merged :
  mergeOpenapiSchemas s1 s2 allOf = Ok merged ->
  S (schemaSize merged) <= schemaSize s1 + schemaSize s2.
Proof.
  unfold mergeOpenapiSchemas, openapi.PropertiesToMap. intros [= <-].
  set (withProps := match openapi.Properties s1, openapi.Properties s2 with
                    | _, None => s1
                    | None, Some _ => openapi.set_Properties (openapi.Properties s2) s1
                    | Some p1, Some p2 =>
                        openapi.set_Properties (Some (mergeProperties p1 p2)) s1
                    end).
  assert (Hrequired : forall l s,
            schemaSize (openapi.set_Required l s) = schemaSize s)
    by (intros l s; rewrite !schemaSize_eq; by destruct s).
  assert (Hsize : S (schemaSize withProps) <= schemaSize s1 + schemaSize s2).
  { subst withProps. rewrite (schemaSize_eq s2).
    destruct (openapi.Properties s1) as [p1|] eqn:H1,
             (openapi.Properties s2) as [p2|] eqn:H2; cbn [optNamedSize];
      try lia.
    - pose proof (namedSize_mergeProperties p2 p1).
      rewrite !schemaSize_eq, H1.
      destruct s1; cbn in *. lia.
    - rewrite !schemaSize_eq, H1. destruct s1; cbn in *. lia. }
  destruct (openapi.Required s1), (openapi.Required s2);
    by rewrite ?Hrequired.
Qed.

Lemma valueWithPropagatedRef_value ref o :
  valueWithPropagatedRef ref = Returns (Ok o) -> o = openapi.Value ref.
Proof.
  unfold valueWithPropagatedRef.
  destruct (_ || _); [by intros [= <-]|].
  destruct (_ || _); [done|].
  destruct (openapi.Value ref); [by intros [= <-] | done].
Qed.

Lemma mergeSchemas_loop_size rest : forall s1 o,
  mergeSchemas_loop (Some s1) rest = Returns (Ok o) ->
  exists merged, o = Some merged
                 /\ schemaSize merged + 2 * length rest
                    <= schemaSize s1 + refsSize rest.
Proof.
  induction rest as [|ref rest IH]; intros s1 o; cbn [mergeSchemas_loop].
  - intros [= <-]. exists s1. split; [done|]. cbn. lia.
  - destruct (valueWithPropagatedRef ref) as [[o2|?]| |] eqn:Hv; cbn [bind];
      try discriminate.
    apply valueWithPropagatedRef_value in Hv.
    destruct o2 as [s2|]; [|discriminate].
    destruct (mergeOpenapiSchemas s1 s2 true) as [m|?] eqn:Hm;
      cbn [wrapErr lift bind]; [|discriminate].
    apply schemaSize_merge in Hm.
    intros Hrest. apply IH in Hrest as (merged & -> & Hsize).
    exists merged. split; [done|]. cbn [length refsSize].
    rewrite (refSize_eq ref), <- Hv. lia.
Qed.

End Sizes.

Section FinishingCalls.

Lemma finishes_Returns {A} (r : res A) : finishes (Returns r).
Proof. right. by exists r. Qed.

Lemma finishes_Panics {A} : finishes (@Panics A).
Proof. by left. Qed.

Lemma finishes_wrapErr {A} prefix (m : M A) :
  finishes m -> finishes (wrapErr prefix m).
Proof.
  intros [->|[[a|e] ->]]; cbn;
    first [apply finishes_Panics | apply finishes_Returns].
Qed.

Lemma finishes_bind {A B} (m : M A) (k : A -> M B) :
  finishes m ->
  (forall a, m = Returns (Ok a) -> finishes (k a)) ->
  finishes (bind m k).
Proof.
  intros [->|[[a|e] ->]] Hk; cbn;
    [apply finishes_Panics | by apply Hk | apply finishes_Returns].
Qed.

End FinishingCalls.

Ltac finishing :=
  repeat first
    [ apply finishes_Returns
    | apply finishes_Panics
    | apply finishes_wrapErr
    | apply finishes_bind; [|intros ? ?]
    | match goal with
      | |- finishes (if ?b then _ else _) => destruct b
      | |- finishes (match ?x with _ => _ end) => destruct x eqn:?
      end ].

Section Finishing.
Context (E : Env).

(** [gen] finishes on every reference of fewer than [n] cells. *)
Definition finishesBelow (gen : Gen) (n : nat) : Prop :=
  forall child path, optSize child < n -> finishes (gen child path).

Lemma typeArrayStep_Items schema outSchema t schema' :
  typeArrayStep schema outSchema = FallThrough t schema' ->
  openapi.Items schema' = openapi.Items schema.
Proof.
  unfold typeArrayStep.
  repeat match goal with
         | |- context [if ?b then _ else _] => destruct b
         end; intros [= <- <-]; by destruct schema.
Qed.

Lemma primitiveStep_finishes gen n schema t path outSchema :
  finishesBelow gen n ->
  optSize (openapi.Items schema) < n ->
  finishes (primitiveStep E gen schema t path outSchema).
Proof.
  intros Hgen Hitems. unfold primitiveStep. finishing. by apply Hgen.
Qed.

Lemma oapiSchemaToGoType_finishes gen n schema path outSchema :
  finishesBelow gen n ->
  optSize (openapi.Items schema) < n ->
  finishes (oapiSchemaToGoType E gen schema path outSchema).2.
Proof.
  intros Hgen Hitems. unfold oapiSchemaToGoType.
  destruct (typeArrayStep schema outSchema) as [o|t schema'] eqn:Hstep;
    cbn [snd]; [apply finishes_Returns|].
  apply (primitiveStep_finishes gen n); [done|].
  by rewrite (typeArrayStep_Items _ _ _ _ Hstep).
Qed.

Lemma generateUnion_loop_finishes gen n discriminator path elements :
  finishesBelow gen n ->
  refsSize elements < n ->
  forall i usedTypeNames outSchema,
    finishes (generateUnion_loop E gen discriminator path i elements
                                 usedTypeNames outSchema).
Proof.
  intros Hgen. induction elements as [|element rest IH]; intros Hsize i used out;
    cbn [generateUnion_loop]; [apply finishes_Returns|].
  cbn [refsSize] in Hsize. pose proof (refSize_pos element).
  apply finishes_bind; [apply Hgen; cbn; lia|]. intros elementSchema _.
  destruct (nameVariant _ _ _ _ _ _ _) as [[elementSchema' used'] out'].
  apply finishes_bind; [|intros; apply IH; lia].
  unfold setMapping. finishing.
Qed.

Lemma generateUnion_finishes gen n outSchema elements discriminator path :
  finishesBelow gen n ->
  refsSize elements < n ->
  finishes (generateUnion E gen outSchema elements discriminator path).
Proof.
  intros Hgen Hsize. unfold generateUnion.
  apply finishes_bind; [by apply (generateUnion_loop_finishes gen n)|].
  intros. finishing.
Qed.

Lemma mergeSchemas_loop_finishes rest : forall schema,
  finishes (mergeSchemas_loop schema rest).
Proof.
  induction rest as [|ref rest IH]; intros schema; cbn [mergeSchemas_loop];
    [apply finishes_Returns|].
  apply finishes_bind; [unfold valueWithPropagatedRef; finishing|].
  intros oneOfSchema _. destruct schema, oneOfSchema; try apply finishes_Panics.
  apply finishes_bind; [apply finishes_wrapErr, finishes_Returns|].
  intros; apply IH.
Qed.

(** The merged schema of two or more members is smaller than the list. *)
Lemma mergeSchemas_finishes gen n allOf path :
  finishesBelow gen n ->
  refsSize allOf < n ->
  finishes (mergeSchemas gen allOf path).
Proof.
  intros Hgen Hsize. unfold mergeSchemas.
  destruct allOf as [|first [|second rest]]; [apply finishes_Returns| |].
  - apply Hgen. cbn in *. lia.
  - apply finishes_bind; [unfold valueWithPropagatedRef; finishing|].
    intros o1 Hfirst. apply valueWithPropagatedRef_value in Hfirst.
    apply finishes_bind; [apply mergeSchemas_loop_finishes|].
    intros o Hloop. apply Hgen.
    cbn [refsSize] in Hsize. rewrite (refSize_eq first), <- Hfirst in Hsize.
    destruct o1 as [s1|].
    + apply mergeSchemas_loop_size in Hloop as (merged & -> & Hmerged).
      cbn [refsSize length] in Hmerged. cbn. lia.
    + cbn [mergeSchemas_loop] in Hloop.
      destruct (valueWithPropagatedRef second) as [[[?|]|?]| |];
        cbn in Hloop; discriminate.
Qed.

Lemma embedAllOf_finishes gen n path allOfRefs :
  finishesBelow gen n ->
  refsSize allOfRefs < n ->
  forall resultSchema, finishes (embedAllOf E gen path allOfRefs resultSchema).
Proof.
  intros Hgen. induction allOfRefs as [|schemaRef rest IH]; intros Hsize out;
    cbn [embedAllOf]; [apply finishes_Returns|].
  cbn [refsSize] in Hsize. pose proof (refSize_pos schemaRef).
  assert (finishes (gen (Some schemaRef) path)) by (apply Hgen; cbn; lia).
  destruct (negb _).
  - apply finishes_bind; [apply finishes_wrapErr, finishes_Returns|].
    intros. apply finishes_bind; [by apply finishes_wrapErr|].
    intros. apply IH. lia.
  - apply finishes_bind; [by apply finishes_wrapErr|].
    intros. apply IH. lia.
Qed.

Lemma compileProperties_finishes gen n schema path names :
  finishesBelow gen n ->
  optNamedSize (openapi.Properties schema) < n ->
  forall outSchema,
    finishes (compileProperties E gen schema path names outSchema).
Proof.
  intros Hgen Hsize. induction names as [|pName rest IH]; intros out;
    cbn [compileProperties]; [apply finishes_Returns|].
  apply finishes_bind.
  - apply finishes_wrapErr, Hgen. unfold openapi.PropertiesToMap.
    destruct (openapi.Properties schema) as [props|]; cbn in *; [|lia].
    destruct (openapi.assoc pName props) as [p|] eqn:Hp; cbn; [|lia].
    apply namedSize_assoc in Hp. lia.
  - intros pSchema _. finishing. apply IH.
Qed.

Lemma GenStructFromSchema_finishes schema :
  finishes (GenStructFromSchema E schema).
Proof. unfold GenStructFromSchema, additionalPropertiesType. finishing. Qed.

Lemma applyGoTypeName_finishes schema outSchema :
  finishes (applyGoTypeName E schema outSchema).
Proof. unfold applyGoTypeName. finishing. Qed.

Lemma compileAllOf_finishes gen n schema allOfRefs path :
  finishesBelow gen n ->
  refsSize allOfRefs < n ->
  finishes (compileAllOf E gen schema allOfRefs path).
Proof.
  intros Hgen Hsize. unfold compileAllOf.
  destruct (scanAllOf allOfRefs 0) as [simple refCount].
  destruct (_ && _).
  - apply finishes_bind; [by apply (embedAllOf_finishes gen n)|].
    intros resultSchema _. destruct (_ || _); [|apply finishes_Returns].
    apply finishes_bind; [apply GenStructFromSchema_finishes|].
    intros; apply finishes_Returns.
  - apply finishes_bind; [|intros; apply finishes_Returns].
    apply finishes_wrapErr. unfold MergeSchemas.
    destruct (OldMergeSchemas _); [apply finishes_Returns|].
    by apply (mergeSchemas_finishes gen n).
Qed.

Lemma compileObject_finishes gen schema path outSchema :
  finishesBelow gen (S (schemaSize schema)) ->
  finishes (compileObject E gen schema path outSchema).
Proof.
  intros Hgen. pose proof (schemaSize_eq schema) as Hsize.
  unfold compileObject.
  destruct (_ && _); [apply applyGoTypeName_finishes|].
  apply finishes_bind.
  { destruct (openapi.AdditionalProperties_Schema schema) as [apSchema|];
      [|apply finishes_Returns].
    apply finishes_bind; [|intros; apply finishes_Returns].
    apply finishes_wrapErr, Hgen. cbn in *. lia. }
  intros out1 _. destruct (_ && _).
  { apply finishes_bind; [unfold additionalPropertiesType; finishing|].
    intros; apply finishes_Returns. }
  apply finishes_bind.
  { apply (compileProperties_finishes gen (S (schemaSize schema))); [done|].
    lia. }
  intros out2 _. apply finishes_bind.
  { destruct (openapi.AnyOf schema) as [anyOf|]; [|apply finishes_Returns].
    apply finishes_wrapErr.
    apply (generateUnion_finishes gen (S (schemaSize schema))); [done|].
    cbn in *. lia. }
  intros out3 _. apply finishes_bind.
  { destruct (openapi.OneOf schema) as [oneOf|]; [|apply finishes_Returns].
    apply finishes_wrapErr.
    apply (generateUnion_finishes gen (S (schemaSize schema))); [done|].
    cbn in *. lia. }
  intros out4 _. apply finishes_bind; [apply GenStructFromSchema_finishes|].
  intros; apply applyGoTypeName_finishes.
Qed.

Lemma compileEnum_finishes gen schema path outSchema :
  finishesBelow gen (S (schemaSize schema)) ->
  finishes (compileEnum E gen schema path outSchema).
Proof.
  intros Hgen. pose proof (schemaSize_eq schema) as Hsize.
  unfold compileEnum.
  pose proof (oapiSchemaToGoType_finishes gen (S (schemaSize schema)) schema
                path outSchema Hgen) as Hprim.
  destruct (oapiSchemaToGoType E gen schema path outSchema) as [schema' r].
  cbn [snd] in Hprim.
  apply finishes_bind; [apply finishes_wrapErr, Hprim; lia|].
  intros. finishing.
Qed.

Lemma GenerateGoSchema_body_finishes gen sref path :
  finishesBelow gen (optSize sref) ->
  finishes (GenerateGoSchema_body E gen sref path).
Proof.
  intros Hgen. unfold GenerateGoSchema_body.
  destruct sref as [sref|]; [|apply finishes_Returns].
  cbn [optSize] in Hgen. rewrite refSize_eq in Hgen.
  destruct (openapi.Value sref) as [schema|]; [|finishing].
  pose proof (schemaSize_eq schema) as Hsize.
  apply finishes_bind; [apply finishes_Returns|]. intros skip _.
  destruct (IsGoTypeReference E _); [finishing|].
  destruct (openapi.AllOf schema) as [allOfRefs|] eqn:HallOf.
  { apply (compileAllOf_finishes gen (S (schemaSize schema))); [done|].
    cbn in *. lia. }
  destruct (_ !! _); [finishing|].
  destruct (_ || _); [by apply compileObject_finishes|].
  destruct (_ <? _)%nat; [by apply compileEnum_finishes|].
  pose proof (oapiSchemaToGoType_finishes gen (S (schemaSize schema)) schema
                path
                (mkSchema "" "" None ∅ [] false None [] [] skip
                   (openapi.Description schema) [] None false (Some schema))
                Hgen) as Hprim.
  destruct (oapiSchemaToGoType E gen schema path _) as [schema' r].
  cbn [snd] in Hprim.
  apply finishes_bind; [apply finishes_wrapErr, Hprim; lia|].
  intros; apply finishes_Returns.
Qed.

Lemma GenerateGoSchema_finishes_above depth : forall sref path,
  optSize sref < depth ->
  finishes (GenerateGoSchema E depth sref path).
Proof.
  induction depth as [|depth IH]; intros sref path Hsize; [lia|].
  cbn [GenerateGoSchema]. apply GenerateGoSchema_body_finishes.
  intros child childPath Hchild. apply IH. lia.
Qed.

End Finishing.

(** [m'] is the run [m] with a larger bound on the depth: once [m]
    finishes, [m'] is the same run. *)
Definition settles {A} (m m' : M A) : Prop := finishes m -> m' = m.

Section SettledCalls.

Lemma Exhausted_unfinished {A} : ~ finishes (@Exhausted A).
Proof. by intros [?|[? ?]]. Qed.

Lemma settles_refl {A} (m : M A) : settles m m.
Proof. by intros _. Qed.

Lemma settles_wrapErr {A} prefix (m m' : M A) :
  settles m m' -> settles (wrapErr prefix m) (wrapErr prefix m').
Proof.
  intros Hm Hfin. rewrite Hm; [done|].
  destruct m as [r| |]; [apply finishes_Returns | apply finishes_Panics|].
  by apply Exhausted_unfinished in Hfin.
Qed.

Lemma settles_bind {A B} (m m' : M A) (k k' : A -> M B) :
  settles m m' ->
  (forall a, m = Returns (Ok a) -> settles (k a) (k' a)) ->
  settles (bind m k) (bind m' k').
Proof.
  intros Hm Hk Hfin. destruct m as [[a|e]| |].
  - rewrite (Hm (finishes_Returns _)). cbn in *. by apply Hk.
  - by rewrite (Hm (finishes_Returns _)).
  - by rewrite (Hm finishes_Panics).
  - by apply Exhausted_unfinished in Hfin.
Qed.

End SettledCalls.

Ltac settling :=
  repeat first
    [ apply settles_refl
    | apply settles_wrapErr
    | apply settles_bind; [|intros ? ?]
    | match goal with
      | |- settles (if ?b then _ else _) _ => destruct b
      | |- settles (match ?x with _ => _ end) _ => destruct x eqn:?
      end ].

Section Settled.
Context (E : Env).

(** [gen'] is [gen] with a larger bound on the depth. *)
Definition deepens (gen gen' : Gen) : Prop :=
  forall child path, settles (gen child path) (gen' child path).

Lemma primitiveStep_settles gen gen' schema t path outSchema :
  deepens gen gen' ->
  settles (primitiveStep E gen schema t path outSchema)
          (primitiveStep E gen' schema t path outSchema).
Proof. intros Hgen. unfold primitiveStep. settling. apply Hgen. Qed.

Lemma generateUnion_loop_settles gen gen' discriminator path elements :
  deepens gen gen' ->
  forall i usedTypeNames outSchema,
    settles (generateUnion_loop E gen discriminator path i elements
                                usedTypeNames outSchema)
            (generateUnion_loop E gen' discriminator path i elements
                                usedTypeNames outSchema).
Proof.
  intros Hgen. induction elements as [|element rest IH]; intros i used out;
    cbn [generateUnion_loop]; [apply settles_refl|].
  apply settles_bind; [apply Hgen|]. intros elementSchema _.
  destruct (nameVariant _ _ _ _ _ _ _) as [[elementSchema' used'] out'].
  apply settles_bind; [apply settles_refl|]. intros; apply IH.
Qed.

Lemma generateUnion_settles gen gen' outSchema elements discriminator path :
  deepens gen gen' ->
  settles (generateUnion E gen outSchema elements discriminator path)
          (generateUnion E gen' outSchema elements discriminator path).
Proof.
  intros Hgen. unfold generateUnion.
  apply settles_bind; [by apply generateUnion_loop_settles|].
  intros; apply settles_refl.
Qed.

Lemma mergeSchemas_settles gen gen' allOf path :
  deepens gen gen' ->
  settles (mergeSchemas gen allOf path) (mergeSchemas gen' allOf path).
Proof.
  intros Hgen. unfold mergeSchemas.
  destruct allOf as [|first [|second rest]];
    [apply settles_refl | apply Hgen |].
  apply settles_bind; [apply settles_refl|]. intros.
  apply settles_bind; [apply settles_refl|]. intros. apply Hgen.
Qed.

Lemma embedAllOf_settles gen gen' path allOfRefs :
  deepens gen gen' ->
  forall resultSchema,
    settles (embedAllOf E gen path allOfRefs resultSchema)
            (embedAllOf E gen' path allOfRefs resultSchema).
Proof.
  intros Hgen. induction allOfRefs as [|schemaRef rest IH]; intros out;
    cbn [embedAllOf]; [apply settles_refl|].
  destruct (negb _).
  - apply settles_bind; [apply settles_refl|]. intros.
    apply settles_bind; [apply settles_wrapErr, Hgen|]. intros; apply IH.
  - apply settles_bind; [apply settles_wrapErr, Hgen|]. intros; apply IH.
Qed.

Lemma compileProperties_settles gen gen' schema path names :
  deepens gen gen' ->
  forall outSchema,
    settles (compileProperties E gen schema path names outSchema)
            (compileProperties E gen' schema path names outSchema).
Proof.
  intros Hgen. induction names as [|pName rest IH]; intros out;
    cbn [compileProperties]; [apply settles_refl|].
  apply settles_bind; [apply settles_wrapErr, Hgen|].
  intros pSchema _.
  destruct (openapi.props_get _ _) as [p|]; [|apply settles_refl].
  destruct (openapi.Value p); [apply IH | apply settles_refl].
Qed.

Lemma compileAllOf_settles gen gen' schema allOfRefs path :
  deepens gen gen' ->
  settles (compileAllOf E gen schema allOfRefs path)
          (compileAllOf E gen' schema allOfRefs path).
Proof.
  intros Hgen. unfold compileAllOf.
  destruct (scanAllOf allOfRefs 0) as [simple refCount].
  destruct (_ && _).
  - apply settles_bind; [by apply embedAllOf_settles|].
    intros; apply settles_refl.
  - apply settles_bind; [|intros; apply settles_refl].
    apply settles_wrapErr. unfold MergeSchemas.
    destruct (OldMergeSchemas _); [apply settles_refl|].
    by apply mergeSchemas_settles.
Qed.

Lemma compileObject_settles gen gen' schema path outSchema :
  deepens gen gen' ->
  settles (compileObject E gen schema path outSchema)
          (compileObject E gen' schema path outSchema).
Proof.
  intros Hgen. unfold compileObject.
  destruct (_ && _); [apply settles_refl|].
  apply settles_bind.
  { destruct (openapi.AdditionalProperties_Schema schema) as [apSchema|];
      [|apply settles_refl].
    apply settles_bind; [apply settles_wrapErr, Hgen|].
    intros; apply settles_refl. }
  intros out1 _. destruct (_ && _); [apply settles_refl|].
  apply settles_bind; [by apply compileProperties_settles|].
  intros out2 _. apply settles_bind.
  { destruct (openapi.AnyOf schema) as [anyOf|]; [|apply settles_refl].
    by apply settles_wrapErr, generateUnion_settles. }
  intros out3 _. apply settles_bind; [|intros; apply settles_refl].
  destruct (openapi.OneOf schema) as [oneOf|]; [|apply settles_refl].
  by apply settles_wrapErr, generateUnion_settles.
Qed.

Lemma compileEnum_settles gen gen' schema path outSchema :
  deepens gen gen' ->
  settles (compileEnum E gen schema path outSchema)
          (compileEnum E gen' schema path outSchema).
Proof.
  intros Hgen. unfold compileEnum, oapiSchemaToGoType.
  destruct (typeArrayStep schema outSchema) as [o|t schema'];
    [apply settles_refl|].
  apply settles_bind; [|intros; apply settles_refl].
  by apply settles_wrapErr, primitiveStep_settles.
Qed.

Lemma GenerateGoSchema_body_settles gen gen' sref path :
  deepens gen gen' ->
  settles (GenerateGoSchema_body E gen sref path)
          (GenerateGoSchema_body E gen' sref path).
Proof.
  intros Hgen. unfold GenerateGoSchema_body.
  destruct sref as [sref|]; [|apply settles_refl].
  destruct (openapi.Value sref) as [schema|]; [|apply settles_refl].
  apply settles_bind; [apply settles_refl|]. intros skip _.
  destruct (IsGoTypeReference E _); [apply settles_refl|].
  destruct (openapi.AllOf schema) as [allOfRefs|];
    [by apply compileAllOf_settles|].
  destruct (_ !! _); [apply settles_refl|].
  destruct (_ || _); [by apply compileObject_settles|].
  destruct (_ <? _)%nat; [by apply compileEnum_settles|].
  unfold oapiSchemaToGoType.
  destruct (typeArrayStep schema _) as [o|t schema']; [apply settles_refl|].
  apply settles_bind; [|intros; apply settles_refl].
  by apply settles_wrapErr, primitiveStep_settles.
Qed.

Lemma GenerateGoSchema_deepens depth :
  deepens (GenerateGoSchema E depth) (GenerateGoSchema E (S depth)).
Proof.
  induction depth as [|depth IH]; intros sref path.
  - intros Hfin. by apply Exhausted_unfinished in Hfin.
  - change (settles
              (GenerateGoSchema_body E (GenerateGoSchema E depth) sref path)
              (GenerateGoSchema_body E (GenerateGoSchema E (S depth)) sref path)).
    by apply GenerateGoSchema_body_settles.
Qed.

Lemma GenerateGoSchema_settles depth sref path :
  finishes (GenerateGoSchema E depth sref path) ->
  forall depth', depth <= depth' ->
    GenerateGoSchema E depth' sref path = GenerateGoSchema E depth sref path.
Proof.
  intros Hfin depth' Hle. induction Hle as [|depth' Hle IH]; [done|].
  rewrite <- IH. apply GenerateGoSchema_deepens. by rewrite IH.
Qed.

(** A depth above the number of cells of the schema is enough, and the
    result is then the same at every larger depth: the compiler calls
    itself on the parts of the schema it was given and on the merge of an
    allOf list, and each of them has fewer cells. *)
Theorem GenerateGoSchema_finishes_above_the_size depth sref path :
  optSize sref < depth ->
  finishes (GenerateGoSchema E depth sref path)
  /\ forall depth', depth <= depth' ->
       GenerateGoSchema E depth' sref path = GenerateGoSchema E depth sref path.
Proof.
  intros Hsize.
  pose proof (GenerateGoSchema_finishes_above E depth sref path Hsize) as Hfin.
  split; [done|]. by apply GenerateGoSchema_settles.
Qed.

End Settled.

(** The allOf of the two schemas that declare [id] has ten cells; its
    merge is compiled within depth eleven. *)
Lemma GenerateGoSchema_finishes_above_the_size_witness :
  optSize (Some (Sample.inline allOfTwoIds)) < 11
  /\ finishes (GenerateGoSchema Sample.env 11
                 (Some (Sample.inline allOfTwoIds)) ["T"])
  /\ forall depth', 11 <= depth' ->
       GenerateGoSchema Sample.env depth' (Some (Sample.inline allOfTwoIds)) ["T"]
       = GenerateGoSchema Sample.env 11 (Some (Sample.inline allOfTwoIds)) ["T"].
Proof.
  assert (Hsize : optSize (Some (Sample.inline allOfTwoIds)) < 11)
    by (cbn; lia).
  split; [exact Hsize|].
  exact (GenerateGoSchema_finishes_above_the_size Sample.env 11
           (Some (Sample.inline allOfTwoIds)) ["T"] Hsize).
Defined.

(* ===================================================================== *)
(** ** Type arrays of several types (schema.go, oapiSchemaToGoType) *)
(* ===================================================================== *)

Section TypeArrays.
Context (E : Env).

Definition notNull (t : string) : bool := negb (streq t "null").

Lemma existsb_streq t l : existsb (fun x => streq x t) l = true <-> t ∈ l.
Proof.
  rewrite existsb_exists. split.
  - intros (x & Hin & ->%streq_true). by apply list_elem_of_In.
  - intros Hin. exists t. split; [by apply list_elem_of_In | by apply streq_true].
Qed.

Lemma filter_notNull_elem t l :
  t ∈ List.filter notNull l <-> t ∈ l /\ t <> "null".
Proof.
  rewrite !list_elem_of_In, filter_In. unfold notNull.
  rewrite negb_true_iff, streq_false. tauto.
Qed.

(** A type array that does not come down to one type (it holds only
    ["null"], or two or more other types) never fails and compiles nothing
    below it: the type is [float32] for a string and a number or an
    integer, [interface{}] otherwise. *)
Theorem union_type_array_is_float32_or_any gen schema path outSchema :
  openapi.Type_ schema <> [] ->
  length (List.filter notNull (openapi.Type_ schema)) <> 1 ->
  exists goType,
    oapiSchemaToGoType E gen schema path outSchema
    = (schema, ret (set_DefineViaAlias true (set_GoType goType outSchema)))
    /\ (goType = "float32" \/ goType = "interface{}")
    /\ (goType = "float32" <->
        length (List.filter notNull (openapi.Type_ schema)) = 2
        /\ "string" ∈ openapi.Type_ schema
        /\ ("number" ∈ openapi.Type_ schema \/ "integer" ∈ openapi.Type_ schema)).
Proof.
  intros Hsome Hlen. unfold oapiSchemaToGoType, typeArrayStep, openapi.TypeSlice.
  fold notNull. set (nonNull := List.filter notNull (openapi.Type_ schema)) in *.
  assert (Htypes : (1 <=? length (openapi.Type_ schema))%nat = true).
  { apply Nat.leb_le. destruct (openapi.Type_ schema); [done | cbn; lia]. }
  rewrite Htypes.
  assert (H1 : Nat.eqb (length nonNull) 1 = false) by by apply Nat.eqb_neq.
  rewrite H1, !andb_false_r.
  assert (Hstring : hasString nonNull = true <-> "string" ∈ openapi.Type_ schema).
  { unfold hasString. rewrite existsb_streq. subst nonNull.
    rewrite filter_notNull_elem. intuition congruence. }
  assert (Hnumber : hasNumber nonNull = true <->
                    "number" ∈ openapi.Type_ schema
                    \/ "integer" ∈ openapi.Type_ schema).
  { unfold hasNumber. rewrite existsb_exists. split.
    - intros (x & Hin & Hx). apply list_elem_of_In in Hin.
      subst nonNull. apply filter_notNull_elem in Hin as [Hin _].
      apply orb_true_iff in Hx as [->%streq_true| ->%streq_true]; tauto.
    - intros [Hin|Hin].
      + exists "number". split; [|done]. apply list_elem_of_In.
        subst nonNull. apply filter_notNull_elem. by split.
      + exists "integer". split; [|done]. apply list_elem_of_In.
        subst nonNull. apply filter_notNull_elem. by split. }
  destruct (existsb (fun t => streq t "null") (openapi.Type_ schema)
            && Nat.eqb (length nonNull) 0) eqn:Honly.
  { exists "interface{}". split; [done|]. split; [by right|].
    split; [done|]. intros (Hlen2 & _).
    apply andb_true_iff in Honly as [_ H0%Nat.eqb_eq]. lia. }
  destruct (Nat.eqb (length nonNull) 2 && hasString nonNull && hasNumber nonNull)
    eqn:Hfloat.
  - exists "float32". split; [done|]. split; [by left|]. split; [|done].
    intros _. apply andb_true_iff in Hfloat as [Hfloat Hn].
    apply andb_true_iff in Hfloat as [Hlen2 Hs].
    apply Nat.eqb_eq in Hlen2. tauto.
  - exists "interface{}". split; [done|]. split; [by right|].
    split; [done|]. intros (Hlen2 & Hs & Hn).
    apply Hstring in Hs. apply Hnumber in Hn. apply Nat.eqb_eq in Hlen2.
    by rewrite Hlen2, Hs, Hn in Hfloat.
Qed.

End TypeArrays.

(** A string or an integer. *)
Definition stringOrInteger : openapi.Schema :=
  openapi.mkSchema ["string"; "integer"] "" "" [] None [] None None None None
                   false ∅ false None None None None None.

Lemma union_type_array_is_float32_or_any_witness :
  exists goType,
    oapiSchemaToGoType Sample.env (GenerateGoSchema Sample.env 1)
                       stringOrInteger ["T"] Schema_zero
    = (stringOrInteger,
       ret (set_DefineViaAlias true (set_GoType goType Schema_zero)))
    /\ (goType = "float32" \/ goType = "interface{}")
    /\ (goType = "float32" <->
        length (List.filter notNull (openapi.Type_ stringOrInteger)) = 2
        /\ "string" ∈ openapi.Type_ stringOrInteger
        /\ ("number" ∈ openapi.Type_ stringOrInteger
            \/ "integer" ∈ openapi.Type_ stringOrInteger)).
Proof.
  apply (union_type_array_is_float32_or_any Sample.env
           (GenerateGoSchema Sample.env 1) stringOrInteger ["T"] Schema_zero);
    [discriminate | simpl; lia].
Defined.

(** The string or integer is a [float32]. *)
Example stringOrInteger_is_float32 :
  oapiSchemaToGoType Sample.env (GenerateGoSchema Sample.env 1)
                     stringOrInteger ["T"] Schema_zero
  = (stringOrInteger,
     ret (set_DefineViaAlias true (set_GoType "float32" Schema_zero))).
Proof. vm_compute; reflexivity. Qed.

(* ===================================================================== *)
(** ** allOf of references: embedded structs (schema.go) *)
(* ===================================================================== *)

Section EmbeddedAllOf.
Context (E : Env).

(** [schemaRef.Ref != ""]. *)
Definition hasRef (m : openapi.SchemaRef) : bool :=
  negb (streq (openapi.Ref m) "").

(** The properties of the compiled inline members, in the order of the
    members. *)
Fixpoint inlineProperties (members : list openapi.SchemaRef)
    (compiled : list Schema) : list Property :=
  match members, compiled with
  | m :: members', c :: compiled' =>
      (if hasRef m then [] else Properties c)
      ++ inlineProperties members' compiled'
  | _, _ => []
  end.

(** An inline member with no allOf, oneOf or anyOf of its own. *)
Definition simpleInline (m : openapi.SchemaRef) : Prop :=
  openapi.Ref m = "" ->
  forall v, openapi.Value m = Some v ->
    default [] (openapi.AllOf v) = []
    /\ default [] (openapi.OneOf v) = []
    /\ default [] (openapi.AnyOf v) = [].

Lemma scanAllOf_simple allOfRefs : forall refCount,
  Forall simpleInline allOfRefs ->
  scanAllOf allOfRefs refCount
  = (true, refCount + length (List.filter hasRef allOfRefs)).
Proof.
  induction allOfRefs as [|m rest IH]; intros refCount Hsimple;
    cbn [scanAllOf List.filter length]; [by rewrite Nat.add_0_r|].
  apply Forall_cons in Hsimple as [Hm Hrest]. unfold hasRef at 1.
  destruct (negb (streq (openapi.Ref m) "")) eqn:Href.
  - rewrite IH by done. cbn [length]. f_equal. lia.
  - apply negb_false_iff, streq_true in Href.
    destruct (openapi.Value m) as [v|] eqn:Hv; [|by apply IH].
    destruct (Hm Href v Hv) as (-> & -> & ->). cbn. by apply IH.
Qed.

Lemma embedAllOf_embeds gen path allOfRefs : forall resultSchema d,
  embedAllOf E gen path allOfRefs resultSchema = Returns (Ok d) ->
  exists compiled names,
    Forall2 (fun m c => gen (Some m) path = Returns (Ok c)) allOfRefs compiled
    /\ map (fun m => RefPathToGoType E (openapi.Ref m))
           (List.filter hasRef allOfRefs) = map Ok names
    /\ d = set_AdditionalTypes
             (AdditionalTypes resultSchema ++ concat (map AdditionalTypes compiled))
             (set_Properties
                (Properties resultSchema ++ inlineProperties allOfRefs compiled)
                (set_EmbeddedTypes (EmbeddedTypes resultSchema ++ names)
                                   resultSchema)).
Proof.
  induction allOfRefs as [|m rest IH]; intros rs d;
    cbn [embedAllOf List.filter].
  - intros [= <-]. exists [], []. split; [constructor|]. split; [done|].
    destruct rs; cbn. by rewrite !app_nil_r.
  - unfold hasRef at 1. destruct (negb (streq (openapi.Ref m) "")) eqn:Href.
    + destruct (RefPathToGoType E (openapi.Ref m)) as [name|e] eqn:Hname;
        cbn [lift wrapErr bind]; [|discriminate].
      destruct (gen (Some m) path) as [[c|e]| |] eqn:Hc; cbn [wrapErr bind];
        try discriminate.
      intros (compiled & names & Hall & Hnames & ->)%IH.
      exists (c :: compiled), (name :: names).
      split; [by constructor|]. split; [cbn; by rewrite Hname, Hnames|].
      cbn [inlineProperties].
      change (hasRef m) with (negb (streq (openapi.Ref m) "")). rewrite Href.
      destruct rs; cbn. by rewrite <- !app_assoc.
    + destruct (gen (Some m) path) as [[c|e]| |] eqn:Hc; cbn [wrapErr bind];
        try discriminate.
      intros (compiled & names & Hall & Hnames & ->)%IH.
      exists (c :: compiled), names.
      split; [by constructor|]. split; [done|].
      cbn [inlineProperties].
      change (hasRef m) with (negb (streq (openapi.Ref m) "")). rewrite Href.
      destruct rs; cbn. by rewrite <- !app_assoc.
Qed.

(** A top-level allOf with a referenced member, and whose inline members
    have no allOf, oneOf or anyOf, compiles to a struct that embeds the Go
    types of the referenced members, in their order, and that has the
    fields of the inline members; the referenced members add no field.  The
    descriptor takes its description from the schema, is not an alias, and
    does not skip the optional pointer, whatever the schema's extension
    says. *)
Theorem allOf_of_references_embeds_them
    (depth : nat) (sref : openapi.SchemaRef) (schema : openapi.Schema)
    (allOfRefs : list openapi.SchemaRef) (path : list string) (d : Schema) :
  openapi.Value sref = Some schema ->
  IsGoTypeReference E (openapi.Ref sref) = false ->
  openapi.AllOf schema = Some allOfRefs ->
  length path <= 1 ->
  Exists (fun m => openapi.Ref m <> "") allOfRefs ->
  Forall simpleInline allOfRefs ->
  GenerateGoSchema E (S depth) (Some sref) path = Returns (Ok d) ->
  exists compiled,
    Forall2 (fun m c => GenerateGoSchema E depth (Some m) path = Returns (Ok c))
            allOfRefs compiled
    /\ map (fun m => RefPathToGoType E (openapi.Ref m))
           (List.filter hasRef allOfRefs) = map Ok (EmbeddedTypes d)
    /\ Properties d = inlineProperties allOfRefs compiled
    /\ AdditionalTypes d = concat (map AdditionalTypes compiled)
    /\ GenStructFromSchema E d = ret (GoType d)
    /\ Description d = openapi.Description schema
    /\ OAPISchema d = Some schema
    /\ DefineViaAlias d = false
    /\ SkipOptionalPointer d = false.
Proof.
  intros Hval Hgo HallOf Hpath Hsome Hsimple.
  rewrite GenerateGoSchema_S. unfold GenerateGoSchema_body. rewrite Hval.
  destruct (skipOptionalPointerOf E schema) as [skip|e]; cbn [lift bind];
    [|discriminate].
  rewrite Hgo, HallOf. unfold compileAllOf.
  rewrite (scanAllOf_simple allOfRefs 0 Hsimple).
  assert (Hcount : (0 <? 0 + length (List.filter hasRef allOfRefs))%nat = true).
  { apply Nat.ltb_lt. apply Exists_exists in Hsome as (m & Hin & Href).
    assert (m ∈ List.filter hasRef allOfRefs) as Hm.
    { apply list_elem_of_In, filter_In. split; [by apply list_elem_of_In|].
      unfold hasRef. by apply negb_true_iff, streq_false. }
    destruct (List.filter hasRef allOfRefs); [by apply elem_of_nil in Hm|].
    cbn. lia. }
  rewrite Hcount. apply Nat.leb_le in Hpath. rewrite Hpath. cbn [andb].
  match goal with
  | |- bind ?m _ = _ -> _ => destruct m as [[out|e]| |] eqn:Hembed
  end; cbn [bind]; try discriminate.
  apply embedAllOf_embeds in Hembed as (compiled & names & Hall & Hnames & ->).
  cbn [set_OAPISchema set_EmbeddedTypes set_Properties set_AdditionalTypes
       EmbeddedTypes Properties AdditionalTypes app].
  assert (Hnonempty : names <> []).
  { intros ->. apply Nat.ltb_lt in Hcount.
    apply (f_equal length) in Hnames. rewrite !length_map in Hnames.
    cbn in Hnames. lia. }
  assert (Hlen : (0 <? length names)%nat = true)
    by (apply Nat.ltb_lt; destruct names; [done | cbn; lia]).
  rewrite Hlen. cbn [orb].
  match goal with
  | |- bind ?m _ = _ -> _ => destruct m as [[goType|e]| |] eqn:Hstruct
  end; cbn [bind]; try discriminate.
  intros [= <-]. exists compiled. cbn. by repeat split.
Qed.

End EmbeddedAllOf.

(** A schema that extends the component [Base] with the property [id]. *)
Definition allOfBaseAndId : openapi.Schema :=
  openapi.mkSchema [] "" "" [] None []
    (Some [Sample.component "Base" (Sample.typed "string");
           Sample.inline (withId "string")])
    None None None false ∅ false None None None None None.

Lemma allOf_of_references_embeds_them_witness :
  exists d,
    GenerateGoSchema Sample.env 3 (Some (Sample.inline allOfBaseAndId))
                     ["Derived"] = Returns (Ok d)
    /\ exists compiled,
         Forall2 (fun m c => GenerateGoSchema Sample.env 2 (Some m) ["Derived"]
                             = Returns (Ok c))
                 [Sample.component "Base" (Sample.typed "string");
                  Sample.inline (withId "string")] compiled
         /\ map (fun m => RefPathToGoType Sample.env (openapi.Ref m))
                (List.filter hasRef
                   [Sample.component "Base" (Sample.typed "string");
                    Sample.inline (withId "string")])
            = map Ok (EmbeddedTypes d)
         /\ Properties d
            = inlineProperties
                [Sample.component "Base" (Sample.typed "string");
                 Sample.inline (withId "string")] compiled
         /\ AdditionalTypes d = concat (map AdditionalTypes compiled)
         /\ GenStructFromSchema Sample.env d = ret (GoType d)
         /\ Description d = openapi.Description allOfBaseAndId
         /\ OAPISchema d = Some allOfBaseAndId
         /\ DefineViaAlias d = false
         /\ SkipOptionalPointer d = false.
Proof.
  eexists. split; [vm_compute; reflexivity|].
  apply (allOf_of_references_embeds_them Sample.env 2
           (Sample.inline allOfBaseAndId) allOfBaseAndId
           [Sample.component "Base" (Sample.typed "string");
            Sample.inline (withId "string")] ["Derived"]);
    try reflexivity.
  - apply Exists_cons_hd. discriminate.
  - constructor; [|constructor; [|constructor]].
    + intros Href. discriminate Href.
    + intros _ v [= <-]. by cbn.
Defined.

(** The struct embeds [Base] and has the one field [id]. *)
Example allOfBaseAndId_embeds_Base :
  exists d,
    GenerateGoSchema Sample.env 3 (Some (Sample.inline allOfBaseAndId))
                     ["Derived"] = Returns (Ok d)
    /\ EmbeddedTypes d = ["Base"]
    /\ map JsonFieldName (Properties d) = ["id"].
Proof. eexists. split; [vm_compute; reflexivity | by split]. Qed.

(* ===================================================================== *)
(** ** The type of a parameter (schema.go, paramToGoType) *)
(* ===================================================================== *)

(** What [paramToGoType] reads of an [openapi.Parameter]: the name and the
    description of the embedded [v3.Parameter], the schema, and the
    content, [None] for the nil map. *)
Record Param : Type := mkParam {
  Param_Name : string;
  Param_Description : string;
  Param_Schema : option openapi.SchemaRef;
  Param_Content : option openapi.Content;
}.

Section Parameters.
Context (E : Env).
(** [StringToGoComment] is not among the sources. *)
Context (StringToGoComment : string -> string).

(** The loop of [handleParameterOneOf] over the elements, with
    [arraySchema] and [singleSchema] as they then are. *)
Fixpoint scanOneOf (elements : list openapi.SchemaRef)
    (arraySchema singleSchema : option openapi.SchemaRef)
  : option openapi.SchemaRef * option openapi.SchemaRef :=
  match elements with
  | [] => (arraySchema, singleSchema)
  | element :: rest =>
      match openapi.Value element with
      | Some v =>
          if firstTypeIs v "array" then scanOneOf rest (Some element) singleSchema
          else if firstTypeIs v "string"
               then scanOneOf rest arraySchema (Some element)
               else scanOneOf rest arraySchema singleSchema
      | None => scanOneOf rest arraySchema singleSchema
      end
  end.

(** [generateParameterOneOfStruct]. *)
Definition generateParameterOneOfStruct (gen : Gen)
    (arraySchema singleSchema : openapi.SchemaRef) (path : list string)
  : M Schema :=
  let* arrayGoSchema :=
    wrapErr "error generating array schema" (gen (Some arraySchema) path) in
  let* singleGoSchema :=
    wrapErr "error generating single schema" (gen (Some singleSchema) path) in
  let elementType :=
    match ArrayType arrayGoSchema with
    | Some a => GoType a
    | None => GoType singleGoSchema
    end in
  let properties :=
    [mkProperty "Single value variant" "single"
                (set_GoType elementType Schema_zero)
                false false false false false ∅ false;
     mkProperty "Array value variant" "array"
                (set_GoType ("[]" +:+ elementType) Schema_zero)
                false false false false false ∅ false] in
  let structFields :=
    (["struct {"] ++ GenFieldsFromProperties E properties) ++ ["}"] in
  ret (mkSchema (strings.Join structFields nl) "" None ∅ properties false None
                [] [] false
                "Union type for parameter that accepts either single value or array"
                [] None false None).

(** [handleParameterOneOf], on the schema of the parameter and the
    elements of its oneOf. *)
Definition handleParameterOneOf (gen : Gen) (schema : openapi.SchemaRef)
    (oneOfElements : list openapi.SchemaRef) (path : list string) : M Schema :=
  match scanOneOf oneOfElements None None with
  | (Some arraySchema, Some singleSchema) =>
      generateParameterOneOfStruct gen arraySchema singleSchema path
  | _ => gen (Some schema) path
  end.

(** The descriptor of a parameter that is not decoded. *)
Definition stringParameter (param : Param) : Schema :=
  mkSchema "string" "" None ∅ [] false None [] [] false
           (StringToGoComment (Param_Description param)) [] None false None.

(** [paramToGoType]. *)
Definition paramToGoType (gen : Gen) (param : Param) (path : list string)
  : M Schema :=
  match Param_Content param, Param_Schema param with
  | None, None =>
      fail ("parameter '" +:+ Param_Name param +:+ "' has no schema or content")
  | _, Some schema =>
      match openapi.Value schema with
      | Some v =>
          match openapi.OneOf v with
          | Some oneOfElements =>
              handleParameterOneOf gen schema oneOfElements path
          | None => gen (Some schema) path
          end
      | None => gen (Some schema) path
      end
  | Some content, None =>
      if (1 <? length content)%nat then ret (stringParameter param)
      else
        match openapi.assoc "application/json" content with
        | None => ret (stringParameter param)
        | Some None => panic
        | Some (Some mt) => gen (openapi.MediaType_Schema mt) path
        end
  end.

(** *** What the oneOf scan finds *)

Definition isArrayElement (element : openapi.SchemaRef) : bool :=
  match openapi.Value element with
  | Some v => firstTypeIs v "array"
  | None => false
  end.

Definition isStringElement (element : openapi.SchemaRef) : bool :=
  match openapi.Value element with
  | Some v => firstTypeIs v "string"
  | None => false
  end.

Lemma firstTypeIs_array_not_string v :
  firstTypeIs v "array" = true -> firstTypeIs v "string" = false.
Proof.
  unfold firstTypeIs. destruct (openapi.Type_ v) as [|t0 ?]; [done|].
  intros ->%streq_true. done.
Qed.

(** The scan keeps the last array element and the last string element. *)
Lemma scanOneOf_last elements : forall arraySchema singleSchema,
  scanOneOf elements arraySchema singleSchema
  = (match last (List.filter isArrayElement elements) with
     | Some a => Some a
     | None => arraySchema
     end,
     match last (List.filter isStringElement elements) with
     | Some s => Some s
     | None => singleSchema
     end).
Proof.
  induction elements as [|element rest IH]; intros a s;
    cbn [scanOneOf List.filter]; [done|].
  unfold isArrayElement at 1, isStringElement at 1.
  destruct (openapi.Value element) as [v|]; [|apply IH].
  destruct (firstTypeIs v "array") eqn:Harray.
  - rewrite (firstTypeIs_array_not_string v Harray), IH, last_cons.
    by destruct (last (List.filter isArrayElement rest)).
  - destruct (firstTypeIs v "string"); rewrite IH; [|done].
    rewrite last_cons. by destruct (last (List.filter isStringElement rest)).
Qed.

(** A parameter whose schema has a oneOf with an element of first type
    array and one of first type string becomes a struct of two fields:
    [single] of the element type and [array] of its slices.  The last
    such element of each kind counts and the other elements are not
    compiled; the additional types of the two compiled elements are not
    kept. *)
Theorem parameter_oneOf_of_array_and_string_is_a_two_field_struct
    (gen : Gen) (param : Param) (schema : openapi.SchemaRef)
    (v : openapi.Schema) (elements : list openapi.SchemaRef)
    (arraySchema singleSchema : openapi.SchemaRef)
    (arrayGoSchema singleGoSchema : Schema) (path : list string) :
  Param_Schema param = Some schema ->
  openapi.Value schema = Some v ->
  openapi.OneOf v = Some elements ->
  last (List.filter isArrayElement elements) = Some arraySchema ->
  last (List.filter isStringElement elements) = Some singleSchema ->
  gen (Some arraySchema) path = Returns (Ok arrayGoSchema) ->
  gen (Some singleSchema) path = Returns (Ok singleGoSchema) ->
  exists d,
    paramToGoType gen param path = Returns (Ok d)
    /\ map (fun p => (JsonFieldName p, GoType (P_Schema p), Required p))
           (Properties d)
       = (let elementType :=
            match ArrayType arrayGoSchema with
            | Some a => GoType a
            | None => GoType singleGoSchema
            end in
          [("single", elementType, false);
           ("array", "[]" +:+ elementType, false)])
    /\ GoType d
       = strings.Join
           ((["struct {"] ++ GenFieldsFromProperties E (Properties d)) ++ ["}"])
           nl
    /\ AdditionalTypes d = []
    /\ RefType d = ""
    /\ DefineViaAlias d = false.
Proof.
  intros Hschema Hv HoneOf Harray Hsingle Hga Hgs.
  unfold paramToGoType. rewrite Hschema, Hv, HoneOf.
  assert (handleParameterOneOf gen schema elements path
          = generateParameterOneOfStruct gen arraySchema singleSchema path) as Hh.
  { unfold handleParameterOneOf.
    by rewrite scanOneOf_last, Harray, Hsingle. }
  eexists. split.
  - destruct (Param_Content param); rewrite Hh;
      unfold generateParameterOneOfStruct; rewrite Hga, Hgs; reflexivity.
  - by cbn.
Qed.

(** Without one of the two kinds of element the oneOf of a parameter is
    compiled like any schema. *)
Lemma parameter_oneOf_otherwise gen param schema v elements path :
  Param_Schema param = Some schema ->
  openapi.Value schema = Some v ->
  openapi.OneOf v = Some elements ->
  List.filter isArrayElement elements = []
  \/ List.filter isStringElement elements = [] ->
  paramToGoType gen param path = gen (Some schema) path.
Proof.
  intros Hschema Hv HoneOf Hnone. unfold paramToGoType.
  rewrite Hschema, Hv, HoneOf. unfold handleParameterOneOf.
  rewrite scanOneOf_last.
  destruct Hnone as [-> | ->]; cbn [last];
    destruct (Param_Content param); try done;
    by destruct (last _).
Qed.

(** A parameter without a schema is compiled from its content only when
    the content is the one media type [application/json]; with no content
    map it is refused, and with any other content it is a string, also
    when [application/json] is one of several media types. *)
Theorem parameter_without_schema_is_json_or_string
    (gen : Gen) (param : Param) (path : list string) :
  Param_Schema param = None ->
  match Param_Content param with
  | None =>
      paramToGoType gen param path
      = fail ("parameter '" +:+ Param_Name param +:+ "' has no schema or content")
  | Some [(key, Some mt)] =>
      paramToGoType gen param path
      = if streq key "application/json"
        then gen (openapi.MediaType_Schema mt) path
        else ret (stringParameter param)
  | Some [(key, None)] =>
      paramToGoType gen param path
      = if streq key "application/json" then panic
        else ret (stringParameter param)
  | Some _ => paramToGoType gen param path = ret (stringParameter param)
  end.
Proof.
  intros Hschema. unfold paramToGoType. rewrite Hschema.
  destruct (Param_Content param) as [[|[key [mt|]] [|second rest]]|];
    cbn; try done; by destruct (streq key "application/json").
Qed.

End Parameters.

(** A parameter that takes one string or an array of strings, and a
    parameter with two media types. *)
Definition stringArray : openapi.Schema :=
  openapi.mkSchema ["array"] "" "" [] None [] None None None None false ∅ false
    None None (Some (Sample.inline (Sample.typed "string"))) None None.

Definition arrayOrString : openapi.Schema :=
  openapi.mkSchema [] "" "" [] None [] None None None None false ∅ false
    None None None None
    (Some [Sample.inline stringArray; Sample.inline (Sample.typed "string")]).

Definition idsParam : Param :=
  mkParam "ids" "" (Some (Sample.inline arrayOrString)) None.

Definition filterParam : Param :=
  mkParam "filter" "the filter" None
    (Some [("application/json",
            Some (openapi.mkMediaType
                    (Some (Sample.inline (Sample.typed "string"))) []));
           ("text/plain", Some (openapi.mkMediaType None []))]).

Lemma parameter_oneOf_of_array_and_string_is_a_two_field_struct_witness :
  exists arrayGoSchema singleGoSchema,
    GenerateGoSchema Sample.env 2 (Some (Sample.inline stringArray)) ["Ids"]
    = Returns (Ok arrayGoSchema)
    /\ GenerateGoSchema Sample.env 2
         (Some (Sample.inline (Sample.typed "string"))) ["Ids"]
       = Returns (Ok singleGoSchema)
    /\ exists d,
         paramToGoType Sample.env (fun s => s) (GenerateGoSchema Sample.env 2)
                       idsParam ["Ids"] = Returns (Ok d)
         /\ map (fun p => (JsonFieldName p, GoType (P_Schema p), Required p))
                (Properties d)
            = (let elementType :=
                 match ArrayType arrayGoSchema with
                 | Some a => GoType a
                 | None => GoType singleGoSchema
                 end in
               [("single", elementType, false);
                ("array", "[]" +:+ elementType, false)])
         /\ GoType d
            = strings.Join
                ((["struct {"]
                  ++ GenFieldsFromProperties Sample.env (Properties d))
                 ++ ["}"]) nl
         /\ AdditionalTypes d = []
         /\ RefType d = ""
         /\ DefineViaAlias d = false.
Proof.
  eexists. eexists.
  split; [vm_compute; reflexivity|]. split; [vm_compute; reflexivity|].
  apply (parameter_oneOf_of_array_and_string_is_a_two_field_struct
           Sample.env (fun s => s) (GenerateGoSchema Sample.env 2) idsParam
           (Sample.inline arrayOrString) arrayOrString
           [Sample.inline stringArray; Sample.inline (Sample.typed "string")]
           (Sample.inline stringArray) (Sample.inline (Sample.typed "string")));
    reflexivity.
Defined.

Lemma parameter_without_schema_is_json_or_string_witness :
  paramToGoType Sample.env (fun s => s) (GenerateGoSchema Sample.env 2)
                filterParam ["Filter"]
  = ret (stringParameter (fun s => s) filterParam).
Proof.
  apply (parameter_without_schema_is_json_or_string Sample.env (fun s => s)
           (GenerateGoSchema Sample.env 2) filterParam ["Filter"]).
  reflexivity.
Defined.

(** The parameter [ids] is a struct of a string and a slice of strings. *)
Example idsParam_is_string_or_strings :
  exists d,
    paramToGoType Sample.env (fun s => s) (GenerateGoSchema Sample.env 2)
                  idsParam ["Ids"] = Returns (Ok d)
    /\ map (fun p => (JsonFieldName p, GoType (P_Schema p))) (Properties d)
       = [("single", "string"); ("array", "[]string")].
Proof. eexists. split; [vm_compute; reflexivity | reflexivity]. Qed.

(* ===================================================================== *)
(** ** References to missing example files (adapter.go) *)
(* ===================================================================== *)

(** [delete(m, k)] and [m[k] = v] on a Go map held as the list of its
    entries. *)
Definition mapDelete {A} (k : string) (m : list (string * A))
  : list (string * A) :=
  List.filter (fun kv : string * A => negb (streq kv.1 k)) m.

Fixpoint mapAssign {A} (k : string) (v : A) (m : list (string * A))
  : list (string * A) :=
  match m with
  | [] => [(k, v)]
  | (k', v') :: m' =>
      if streq k' k then (k', v) :: m' else (k', v') :: mapAssign k v m'
  end.

(** The test on the string under [$ref]. *)
Definition isMissingFile (ref : string) : bool :=
  strings.HasPrefix ref "examples/" ||
  strings.HasPrefix ref "markdown/" ||
  strings.Contains ref ".json" ||
  strings.Contains ref ".md" ||
  strings.Contains ref ".py" ||
  strings.Contains ref ".ts" ||
  strings.Contains ref ".java" ||
  strings.Contains ref ".rb" ||
  strings.Contains ref ".php" ||
  strings.Contains ref ".cs" ||
  strings.Contains ref ".sh".

(** The object holds a [$ref] string to a missing file. *)
Definition refersToMissingFile (v : list (string * GoValue)) : bool :=
  match openapi.assoc "$ref" v with
  | Some (VString ref) => isMissingFile ref
  | _ => false
  end.

Definition placeholderText : string := "External reference not available".

(** [removeExampleReferences]: the value [data] has become. *)
Fixpoint removeExampleReferences (data : GoValue) : GoValue :=
  match data with
  | VMap v =>
      if refersToMissingFile v then
        VMap (mapAssign "placeholder" (VString placeholderText)
                        (mapDelete "$ref" v))
      else
        VMap ((fix values (l : list (string * GoValue)) :=
                 match l with
                 | [] => []
                 | (k, value) :: l' =>
                     (k, removeExampleReferences value) :: values l'
                 end) v)
  | VSlice v =>
      VSlice ((fix items (l : list GoValue) :=
                 match l with
                 | [] => []
                 | item :: l' => removeExampleReferences item :: items l'
                 end) v)
  | _ => data
  end.

(** Some object of [data], at any depth, holds a [$ref] to a missing
    file. *)
Fixpoint hasMissingReference (data : GoValue) : bool :=
  match data with
  | VMap v =>
      refersToMissingFile v ||
      (fix values (l : list (string * GoValue)) :=
         match l with
         | [] => false
         | (_, value) :: l' => hasMissingReference value || values l'
         end) v
  | VSlice v =>
      (fix items (l : list GoValue) :=
         match l with
         | [] => false
         | item :: l' => hasMissingReference item || items l'
         end) v
  | _ => false
  end.

Section ExampleReferences.

Lemma removeExampleReferences_VMap v :
  removeExampleReferences (VMap v)
  = if refersToMissingFile v then
      VMap (mapAssign "placeholder" (VString placeholderText)
                      (mapDelete "$ref" v))
    else VMap (map (fun kv : string * GoValue =>
                      (kv.1, removeExampleReferences kv.2)) v).
Proof.
  cbn [removeExampleReferences]. destruct (refersToMissingFile v); [done|].
  f_equal. induction v as [|[k value] v IH]; [done|]. cbn. by rewrite IH.
Qed.

Lemma removeExampleReferences_VSlice v :
  removeExampleReferences (VSlice v) = VSlice (map removeExampleReferences v).
Proof. reflexivity. Qed.

Lemma hasMissingReference_VMap v :
  hasMissingReference (VMap v)
  = refersToMissingFile v
    || existsb (fun kv : string * GoValue => hasMissingReference kv.2) v.
Proof.
  cbn [hasMissingReference]. f_equal.
  induction v as [|[k value] v IH]; [done|]. cbn. by rewrite IH.
Qed.

Lemma hasMissingReference_VSlice v :
  hasMissingReference (VSlice v) = existsb hasMissingReference v.
Proof. reflexivity. Qed.

(** Induction on a value, with the property on the elements of a slice
    and on the values of a map. *)
Lemma GoValue_nested_ind (P : GoValue -> Prop) :
  (forall s, P (VString s)) ->
  (forall b, P (VBool b)) ->
  (forall l, Forall P l -> P (VSlice l)) ->
  (forall m, Forall (fun kv : string * GoValue => P kv.2) m -> P (VMap m)) ->
  (forall n, P (VYaml n)) ->
  (forall T, P (VOther T)) ->
  forall v, P v.
Proof.
  intros Hs Hb Hl Hm Hy Ho.
  fix IH 1. intros [s|b|l|m|n|T]; [apply Hs | apply Hb | | | apply Hy | apply Ho].
  - apply Hl. induction l as [|x l IHl]; constructor; [apply IH | apply IHl].
  - apply Hm. induction m as [|[k x] m IHm]; constructor; [apply IH | apply IHm].
Qed.

Lemma assoc_mapDelete {A} k k' (m : list (string * A)) :
  openapi.assoc k' (mapDelete k m)
  = if streq k' k then None else openapi.assoc k' m.
Proof.
  unfold mapDelete, streq. induction m as [|[k0 v] m IH]; cbn.
  - by case_bool_decide.
  - unfold streq in *.
    repeat (case_bool_decide; cbn; unfold streq); subst; try congruence;
      rewrite ?IH; unfold streq; repeat case_bool_decide; congruence.
Qed.

Lemma assoc_mapAssign {A} k k' (v : A) (m : list (string * A)) :
  openapi.assoc k' (mapAssign k v m)
  = if streq k k' then Some v else openapi.assoc k' m.
Proof.
  unfold streq. induction m as [|[k0 v0] m IH]; cbn; unfold streq in *.
  - repeat case_bool_decide; congruence.
  - repeat (case_bool_decide; cbn; unfold streq); subst; try congruence;
      rewrite ?IH; unfold streq; repeat case_bool_decide; congruence.
Qed.

(** An object that refers to a missing file loses its [$ref] and gains
    the placeholder; its other entries, nested objects included, are left
    as they are. *)
Lemma removeExampleReferences_placeholder v :
  refersToMissingFile v = true ->
  exists v',
    removeExampleReferences (VMap v) = VMap v'
    /\ openapi.assoc "$ref" v' = None
    /\ openapi.assoc "placeholder" v' = Some (VString placeholderText)
    /\ forall k, k <> "$ref" -> k <> "placeholder" ->
         openapi.assoc k v' = openapi.assoc k v.
Proof.
  intros Hmissing. rewrite removeExampleReferences_VMap, Hmissing.
  eexists. split; [done|]. split; [|split].
  - by rewrite assoc_mapAssign, assoc_mapDelete.
  - by rewrite assoc_mapAssign.
  - intros k Href Hplaceholder. rewrite assoc_mapAssign, assoc_mapDelete.
    assert (streq "placeholder" k = false) as ->
      by (apply streq_false; congruence).
    by assert (streq k "$ref" = false) as -> by by apply streq_false.
Qed.

Lemma removeExampleReferences_fixed data :
  removeExampleReferences data = data <-> hasMissingReference data = false.
Proof.
  induction data as [s|b|l IH|m IH|n|T] using GoValue_nested_ind;
    try done.
  - rewrite removeExampleReferences_VSlice, hasMissingReference_VSlice.
    split.
    + intros [= Heq]. induction IH as [|x l Hx _ IHl]; [done|].
      cbn in *. injection Heq as Hhd Htl.
      apply Hx in Hhd. rewrite Hhd. by apply IHl.
    + intros Hclean. f_equal. induction IH as [|x l Hx _ IHl]; [done|].
      cbn in *. apply orb_false_iff in Hclean as [Hhd Htl].
      apply Hx in Hhd. rewrite Hhd. f_equal. by apply IHl.
  - rewrite removeExampleReferences_VMap, hasMissingReference_VMap.
    destruct (refersToMissingFile m) eqn:Hmissing; cbn [orb].
    + split; [|done]. intros [= Heq]. exfalso.
      assert (openapi.assoc "$ref" m = None) as Hnone.
      { rewrite <- Heq at 1. by rewrite assoc_mapAssign, assoc_mapDelete. }
      unfold refersToMissingFile in Hmissing. by rewrite Hnone in Hmissing.
    + clear Hmissing. split.
      * intros [= Heq]. induction IH as [|[k x] l Hx _ IHl]; [done|].
        cbn in *. injection Heq as Hhd Htl.
        apply Hx in Hhd. rewrite Hhd. by apply IHl.
      * intros Hclean. f_equal. induction IH as [|[k x] l Hx _ IHl]; [done|].
        cbn in *. apply orb_false_iff in Hclean as [Hhd Htl].
        apply Hx in Hhd. rewrite Hhd. f_equal. by apply IHl.
Qed.

(** The pass changes a value exactly when one of its objects holds a
    [$ref] to a missing file.  It rewrites such an object where it meets
    it and does not look inside it: the object loses its [$ref], gains
    the placeholder and keeps its other entries as they are. *)
Theorem removeExampleReferences_rewrites_what_it_meets :
  (forall data,
     removeExampleReferences data = data <-> hasMissingReference data = false)
  /\ (forall v,
        refersToMissingFile v = true ->
        exists v',
          removeExampleReferences (VMap v) = VMap v'
          /\ openapi.assoc "$ref" v' = None
          /\ openapi.assoc "placeholder" v' = Some (VString placeholderText)
          /\ forall k, k <> "$ref" -> k <> "placeholder" ->
               openapi.assoc k v' = openapi.assoc k v).
Proof.
  split; [apply removeExampleReferences_fixed
         | apply removeExampleReferences_placeholder].
Qed.

End ExampleReferences.

(** An example that refers to a missing file, with a second such
    reference inside it: the pass rewrites the outer object and leaves the
    inner reference. *)
Definition nestedExample : GoValue :=
  VMap [("$ref", VString "examples/pet.json");
        ("value", VMap [("$ref", VString "examples/owner.json")])].

Example removeExampleReferences_leaves_the_inner_reference :
  removeExampleReferences nestedExample
  = VMap [("value", VMap [("$ref", VString "examples/owner.json")]);
          ("placeholder", VString placeholderText)]
  /\ hasMissingReference (removeExampleReferences nestedExample) = true.
Proof. split; vm_compute; reflexivity. Qed.

(* ===================================================================== *)
(** ** Structural match of two schemas (adapter.go, schemasMatch) *)
(* ===================================================================== *)

(** What [schemasMatch] reads of a libopenapi [base.Schema]: the keys of
    the ordered map of properties in its order ([None] for nil), the
    [Value] and [Kind] of the enum nodes (a node may be nil), and the
    boolean [B] of the additional properties ([None] for nil). *)
Module base.
Record Node : Type := mkNode {
  Node_Value : string;
  Node_Kind : N;
}.
Record Schema : Type := mkSchema {
  Type_ : list string;
  Properties : option (list string);
  Required : list string;
  Enum : list (option Node);
  AdditionalProperties : option bool;
}.
End base.

(** The loop of [stringSlicesEqual], over two slices of one length. *)
Fixpoint stringSlicesEqual_loop (a b : list string) : bool :=
  match a, b with
  | v :: a', w :: b' =>
      if negb (streq v w) then false else stringSlicesEqual_loop a' b'
  | _, _ => true
  end.

(** [stringSlicesEqual]. *)
Definition stringSlicesEqual (a b : list string) : bool :=
  if negb (Nat.eqb (length a) (length b)) then false
  else stringSlicesEqual_loop a b.

(** The loop of [yamlNodeSlicesEqual], over two slices of one length. *)
Fixpoint yamlNodeSlicesEqual_loop (a b : list (option base.Node)) : bool :=
  match a, b with
  | v :: a', w :: b' =>
      match v, w with
      | None, None => yamlNodeSlicesEqual_loop a' b'
      | Some v, Some w =>
          if negb (streq (base.Node_Value v) (base.Node_Value w))
             || negb (N.eqb (base.Node_Kind v) (base.Node_Kind w))
          then false
          else yamlNodeSlicesEqual_loop a' b'
      | _, _ => false
      end
  | _, _ => true
  end.

(** [yamlNodeSlicesEqual]. *)
Definition yamlNodeSlicesEqual (a b : list (option base.Node)) : bool :=
  if negb (Nat.eqb (length a) (length b)) then false
  else yamlNodeSlicesEqual_loop a b.

(** [Properties.Len()], 0 for nil. *)
Definition propsCount (props : option (list string)) : nat :=
  match props with
  | Some keys => length keys
  | None => 0
  end.

(** [schemasMatch]. *)
Definition schemasMatch (schema1 schema2 : option base.Schema) : bool :=
  match schema1, schema2 with
  | None, None => true
  | None, Some _ | Some _, None => false
  | Some schema1, Some schema2 =>
      if negb (stringSlicesEqual (base.Type_ schema1) (base.Type_ schema2))
      then false
      else
        let props1Count := propsCount (base.Properties schema1) in
        let props2Count := propsCount (base.Properties schema2) in
        if negb (Nat.eqb props1Count props2Count) then false
        else if match base.Properties schema1, base.Properties schema2 with
                | Some props1, Some props2 =>
                    let props1Names := props1 in
                    existsb (fun key => negb (stringInSlice key props1Names))
                            props2
                | _, _ => false
                end
        then false
        else if negb (stringSlicesEqual (base.Required schema1)
                                        (base.Required schema2))
        then false
        else if negb (yamlNodeSlicesEqual (base.Enum schema1)
                                          (base.Enum schema2))
        then false
        else
          match base.AdditionalProperties schema1,
                base.AdditionalProperties schema2 with
          | Some b1, Some b2 => if negb (Bool.eqb b1 b2) then false else true
          | None, None => true
          | _, _ => false
          end
  end.

Section SchemasMatch.

Lemma stringSlicesEqual_eq a b : stringSlicesEqual a b = true <-> a = b.
Proof.
  unfold stringSlicesEqual. split.
  - destruct (Nat.eqb (length a) (length b)) eqn:Hlen; [|done].
    apply Nat.eqb_eq in Hlen. cbn [negb].
    revert b Hlen. induction a as [|v a IH]; intros [|w b] Hlen; try done.
    cbn. destruct (streq v w) eqn:Hvw; [|done].
    apply streq_true in Hvw as ->. cbn. intros Hrest. f_equal.
    apply IH; [by injection Hlen | done].
  - intros <-. rewrite Nat.eqb_refl. cbn [negb].
    induction a as [|v a IH]; [done|]. cbn. by rewrite streq_refl.
Qed.

(** Two enum literals that the comparison does not tell apart. *)
Definition sameNode (v w : option base.Node) : Prop :=
  match v, w with
  | None, None => True
  | Some v, Some w =>
      base.Node_Value v = base.Node_Value w
      /\ base.Node_Kind v = base.Node_Kind w
  | _, _ => False
  end.

Lemma yamlNodeSlicesEqual_Forall2 a b :
  yamlNodeSlicesEqual a b = true <-> Forall2 sameNode a b.
Proof.
  unfold yamlNodeSlicesEqual. split.
  - destruct (Nat.eqb (length a) (length b)) eqn:Hlen; [|done].
    apply Nat.eqb_eq in Hlen. cbn [negb].
    revert b Hlen. induction a as [|v a IH]; intros b Hlen.
    { destruct b; [intros _; constructor | done]. }
    destruct b as [|w b]; [done|].
    cbn. destruct v as [v|], w as [w|]; try done.
    + destruct (streq (base.Node_Value v) (base.Node_Value w)) eqn:Hvalue;
        [|done].
      destruct (N.eqb (base.Node_Kind v) (base.Node_Kind w)) eqn:Hkind;
        [|done].
      cbn. intros Hrest. constructor; [|apply IH; [by injection Hlen | done]].
      split; [by apply streq_true | by apply N.eqb_eq].
    + intros Hrest. constructor; [done|]. apply IH; [by injection Hlen|done].
  - intros Hall. rewrite (Forall2_length _ _ _ Hall), Nat.eqb_refl. cbn [negb].
    induction Hall as [|v w a b Hvw _ IH]; [done|]. cbn.
    destruct v as [v|], w as [w|]; try done.
    destruct Hvw as [-> ->]. by rewrite streq_refl, N.eqb_refl.
Qed.

(** The two property maps have the same number of keys and, when both are
    maps, every key of the second is a key of the first. *)
Definition keysMatch (props1 props2 : option (list string)) : Prop :=
  propsCount props1 = propsCount props2
  /\ match props1, props2 with
     | Some keys1, Some keys2 => forall key, key ∈ keys2 -> key ∈ keys1
     | _, _ => True
     end.

Definition additionalPropertiesMatch (ap1 ap2 : option bool) : Prop :=
  match ap1, ap2 with
  | Some b1, Some b2 => b1 = b2
  | None, None => True
  | _, _ => False
  end.

Lemma stringInSlice_elem key keys : stringInSlice key keys = true <-> key ∈ keys.
Proof.
  unfold stringInSlice. rewrite existsb_exists. split.
  - intros (x & Hin & ->%streq_true). by apply list_elem_of_In.
  - intros Hin. exists key. split; [by apply list_elem_of_In | apply streq_refl].
Qed.

Lemma missingKey_false keys1 keys2 :
  existsb (fun key => negb (stringInSlice key keys1)) keys2 = false
  <-> forall key, key ∈ keys2 -> key ∈ keys1.
Proof.
  split.
  - intros Hnone key Hin. apply stringInSlice_elem.
    destruct (stringInSlice key keys1) eqn:Hkey; [done|].
    assert (existsb (fun key => negb (stringInSlice key keys1)) keys2 = true)
      as Hsome; [|congruence].
    apply existsb_exists. exists key.
    split; [by apply list_elem_of_In | by rewrite Hkey].
  - intros Hall. apply not_true_is_false.
    intros (key & Hin & Hkey)%existsb_exists.
    apply list_elem_of_In, Hall, stringInSlice_elem in Hin.
    by rewrite Hin in Hkey.
Qed.

Lemma schemasMatch_spec schema1 schema2 :
  schemasMatch (Some schema1) (Some schema2) = true
  <-> base.Type_ schema1 = base.Type_ schema2
      /\ keysMatch (base.Properties schema1) (base.Properties schema2)
      /\ base.Required schema1 = base.Required schema2
      /\ Forall2 sameNode (base.Enum schema1) (base.Enum schema2)
      /\ additionalPropertiesMatch (base.AdditionalProperties schema1)
                                   (base.AdditionalProperties schema2).
Proof.
  unfold schemasMatch, keysMatch, additionalPropertiesMatch.
  rewrite <- !stringSlicesEqual_eq, <- yamlNodeSlicesEqual_Forall2.
  destruct (stringSlicesEqual (base.Type_ schema1) (base.Type_ schema2));
    cbn [negb]; [|intuition congruence].
  destruct (Nat.eqb_spec (propsCount (base.Properties schema1))
                         (propsCount (base.Properties schema2))) as [Hcount|Hcount];
    cbn [negb]; [|intuition congruence].
  assert (match base.Properties schema1, base.Properties schema2 with
          | Some props1, Some props2 =>
              existsb (fun key => negb (stringInSlice key props1)) props2
          | _, _ => false
          end = false
          <-> match base.Properties schema1, base.Properties schema2 with
              | Some keys1, Some keys2 => forall key, key ∈ keys2 -> key ∈ keys1
              | _, _ => True
              end) as Hkeys.
  { destruct (base.Properties schema1), (base.Properties schema2); try done.
    apply missingKey_false. }
  destruct (match base.Properties schema1, base.Properties schema2 with
            | Some props1, Some props2 =>
                existsb (fun key => negb (stringInSlice key props1)) props2
            | _, _ => false
            end) eqn:Hmissing.
  { split; [done|]. intros (_ & [_ Hsub] & _). apply Hkeys in Hsub. done. }
  destruct (stringSlicesEqual (base.Required schema1) (base.Required schema2));
    cbn [negb]; [|intuition congruence].
  destruct (yamlNodeSlicesEqual (base.Enum schema1) (base.Enum schema2));
    cbn [negb]; [|intuition congruence].
  destruct (base.AdditionalProperties schema1) as [[]|],
           (base.AdditionalProperties schema2) as [[]|]; cbn;
    intuition congruence.
Qed.

Lemma sameNode_sym v w : sameNode v w -> sameNode w v.
Proof. destruct v, w; cbn; intuition congruence. Qed.

Lemma keysMatch_sym props1 props2 :
  match props2 with Some keys2 => NoDup keys2 | None => True end ->
  keysMatch props1 props2 -> keysMatch props2 props1.
Proof.
  intros Hnodup [Hcount Hsub]. split; [done|].
  destruct props1 as [keys1|], props2 as [keys2|]; try done.
  cbn in Hcount. intros key Hin.
  assert (keys2 ≡ₚ keys1) as Hperm.
  { apply submseteq_length_Permutation; [|lia].
    by apply NoDup_submseteq. }
  by rewrite Hperm.
Qed.

(** [schemasMatch] compares the lists of types and of required names, the
    names of the properties, the enum literals and the boolean of the
    additional properties, and nothing else: not the schemas of the
    properties, the items or the format.  It holds exactly when these
    agree, and then in both directions, although only the keys of the
    second schema are looked up in the first. *)
Theorem schemasMatch_compares_names_only (schema1 schema2 : base.Schema) :
  match base.Properties schema2 with
  | Some keys2 => NoDup keys2
  | None => True
  end ->
  (schemasMatch (Some schema1) (Some schema2) = true
   <-> base.Type_ schema1 = base.Type_ schema2
       /\ keysMatch (base.Properties schema1) (base.Properties schema2)
       /\ base.Required schema1 = base.Required schema2
       /\ Forall2 sameNode (base.Enum schema1) (base.Enum schema2)
       /\ additionalPropertiesMatch (base.AdditionalProperties schema1)
                                    (base.AdditionalProperties schema2))
  /\ (schemasMatch (Some schema1) (Some schema2) = true ->
      schemasMatch (Some schema2) (Some schema1) = true).
Proof.
  intros Hnodup. split; [apply schemasMatch_spec|].
  rewrite !schemasMatch_spec.
  intros (Htype & Hkeys & Hrequired & Henum & Hap).
  split; [done|]. split; [by apply keysMatch_sym|]. split; [done|]. split.
  - clear -Henum. induction Henum; constructor; [by apply sameNode_sym | done].
  - unfold additionalPropertiesMatch in *.
    destruct (base.AdditionalProperties schema1),
             (base.AdditionalProperties schema2); intuition congruence.
Qed.

End SchemasMatch.

(** Two objects with the properties [id] and [name], of which only the
    first says that [id] is required: they do not match.  Without the
    required list they match, in either order of the names. *)
Definition idAndName (keys required : list string) : base.Schema :=
  base.mkSchema ["object"] (Some keys) required [] None.

Lemma schemasMatch_compares_names_only_witness :
  (schemasMatch (Some (idAndName ["id"; "name"] []))
                (Some (idAndName ["name"; "id"] [])) = true
   <-> base.Type_ (idAndName ["id"; "name"] [])
       = base.Type_ (idAndName ["name"; "id"] [])
       /\ keysMatch (base.Properties (idAndName ["id"; "name"] []))
                    (base.Properties (idAndName ["name"; "id"] []))
       /\ base.Required (idAndName ["id"; "name"] [])
          = base.Required (idAndName ["name"; "id"] [])
       /\ Forall2 sameNode (base.Enum (idAndName ["id"; "name"] []))
                           (base.Enum (idAndName ["name"; "id"] []))
       /\ additionalPropertiesMatch
            (base.AdditionalProperties (idAndName ["id"; "name"] []))
            (base.AdditionalProperties (idAndName ["name"; "id"] [])))
  /\ (schemasMatch (Some (idAndName ["id"; "name"] []))
                   (Some (idAndName ["name"; "id"] [])) = true ->
      schemasMatch (Some (idAndName ["name"; "id"] []))
                   (Some (idAndName ["id"; "name"] [])) = true).
Proof.
  apply (schemasMatch_compares_names_only (idAndName ["id"; "name"] [])
                                          (idAndName ["name"; "id"] [])).
  cbn. constructor; [|constructor; [|constructor]];
    rewrite ?elem_of_cons, ?elem_of_nil; intuition discriminate.
Defined.

Example schemasMatch_on_id_and_name :
  schemasMatch (Some (idAndName ["id"; "name"] []))
               (Some (idAndName ["name"; "id"] [])) = true
  /\ schemasMatch (Some (idAndName ["id"; "name"] ["id"]))
                  (Some (idAndName ["id"; "name"] [])) = false.
Proof. split; vm_compute; reflexivity. Qed.

(* ===================================================================== *)
(** ** The pet store of the example server (petstore.go) *)
(* ===================================================================== *)

Module api.

(** The generated types, with the fields the store reads and writes. *)
Record NewPet : Type := mkNewPet {
  NewPet_Name : string;
  NewPet_Tag : option string;
}.

Record Pet : Type := mkPet {
  Pet_ID : Z;
  Pet_Name : string;
  Pet_Tag : option string;
}.

(** [FindPetsParams]: both fields are pointers. *)
Record FindPetsParams : Type := mkFindPetsParams {
  Tags : option (list string);
  Limit : option Z;
}.

(** [PetStore]; every method holds [Lock] for the whole of its body, and
    is one step here. *)
Record PetStore : Type := mkPetStore {
  Pets : gmap Z Pet;
  NextId : Z;
}.

(** [int64] arithmetic wraps around. *)
Definition int64 (z : Z) : Z :=
  ((z + 2 ^ 63) mod 2 ^ 64 - 2 ^ 63)%Z.

Definition NewPetStore : PetStore := mkPetStore ∅ 1000.

(** The inner loop of [FindPets] over the requested tags. *)
Fixpoint appendPerTag (pet : Pet) (tags : list string) (result : list Pet)
  : list Pet :=
  match tags with
  | [] => result
  | t :: tags' =>
      let result :=
        match Pet_Tag pet with
        | Some tag => if streq tag t then result ++ [pet] else result
        | None => result
        end in
      appendPerTag pet tags' result
  end.

(** The loop of [FindPets] over the pets in the order [range] visits
    them. *)
Fixpoint FindPets_loop (pets : list Pet) (params : FindPetsParams)
    (result : list Pet) : list Pet :=
  match pets with
  | [] => result
  | pet :: pets' =>
      let result :=
        match Tags params with
        | Some tags => appendPerTag pet tags result
        | None => result ++ [pet]
        end in
      match Limit params with
      | Some l =>
          if (l <=? Z.of_nat (length result))%Z then result
          else FindPets_loop pets' params result
      | None => FindPets_loop pets' params result
      end
  end.

(** [FindPets], given the order in which the pets are visited. *)
Definition FindPets (visited : list Pet) (params : FindPetsParams) : list Pet :=
  FindPets_loop visited params [].

(** [AddPet]: the store after the call and the pet it returns. *)
Definition AddPet (p : PetStore) (body : NewPet) : PetStore * Pet :=
  let pet := mkPet (NextId p) (NewPet_Name body) (NewPet_Tag body) in
  (mkPetStore (<[Pet_ID pet := pet]> (Pets p)) (int64 (NextId p + 1)), pet).

Definition notFound (id : Z) : string :=
  "pet with ID " +:+ pretty id +:+ " not found".

(** [FindPetByID]. *)
Definition FindPetByID (p : PetStore) (id : Z) : res Pet :=
  match Pets p !! id with
  | Some pet => Ok pet
  | None => Err (notFound id)
  end.

(** [DeletePet]: the store after the call and the error, if any. *)
Definition DeletePet (p : PetStore) (id : Z) : PetStore * res unit :=
  match Pets p !! id with
  | Some _ => (mkPetStore (delete id (Pets p)) (NextId p), Ok tt)
  | None => (p, Err (notFound id))
  end.

End api.

Section PetStore.
Import api.
Local Open Scope Z_scope.

(** Every pet is stored under its own id, and the ids handed out so far
    are those from 1000 up to the next one. *)
Definition wellFormed (p : PetStore) : Prop :=
  1000 <= NextId p < 2 ^ 63
  /\ forall id pet, Pets p !! id = Some pet ->
       Pet_ID pet = id /\ 1000 <= id < NextId p.

Lemma int64_small z : - 2 ^ 63 <= z < 2 ^ 63 -> int64 z = z.
Proof.
  intros Hz. unfold int64.
  rewrite Z.mod_small by lia. lia.
Qed.

Lemma NewPetStore_wellFormed : wellFormed NewPetStore.
Proof.
  split; [cbn; lia|]. intros id pet Hpet. cbn in Hpet.
  by rewrite lookup_empty in Hpet.
Qed.

Lemma AddPet_wellFormed p body :
  wellFormed p -> NextId p < 2 ^ 63 - 1 -> wellFormed (AddPet p body).1.
Proof.
  intros [Hnext Hpets] Hroom. unfold AddPet. cbn.
  rewrite int64_small by lia. split; [cbn; lia|]. cbn.
  intros id pet. destruct (decide (id = NextId p)) as [->|Hne].
  - rewrite lookup_insert_eq. intros [= <-]. cbn. lia.
  - rewrite lookup_insert_ne by done. intros Hpet.
    destruct (Hpets id pet Hpet). lia.
Qed.

Lemma DeletePet_wellFormed p id :
  wellFormed p -> wellFormed (DeletePet p id).1.
Proof.
  intros [Hnext Hpets]. unfold DeletePet.
  destruct (Pets p !! id) eqn:Hid; [|done]. split; [done|]. cbn.
  intros id' pet. destruct (decide (id' = id)) as [->|Hne].
  - by rewrite lookup_delete_eq.
  - rewrite lookup_delete_ne by done. apply Hpets.
Qed.

(** In a store built from [NewPetStore] by fewer than 2^63 - 1000
    additions, [AddPet] hands out an id that no pet of the store has, and
    that is above the id of every pet, deleted ones included: the pet it
    returns is found under that id, and every other id finds what it
    found before. *)
Theorem AddPet_then_FindPetByID (p : PetStore) (body : NewPet) :
  wellFormed p ->
  NextId p < 2 ^ 63 - 1 ->
  let p' := (AddPet p body).1 in
  let pet := (AddPet p body).2 in
  wellFormed p'
  /\ pet = mkPet (NextId p) (NewPet_Name body) (NewPet_Tag body)
  /\ NextId p' = NextId p + 1
  /\ FindPetByID p (Pet_ID pet) = Err (notFound (Pet_ID pet))
  /\ FindPetByID p' (Pet_ID pet) = Ok pet
  /\ forall id, id <> Pet_ID pet -> FindPetByID p' id = FindPetByID p id.
Proof.
  intros Hwf Hroom. cbn zeta.
  split; [by apply AddPet_wellFormed|]. split; [done|].
  destruct Hwf as [Hnext Hpets]. unfold AddPet, FindPetByID. cbn.
  split; [apply int64_small; lia|]. split; [|split].
  - destruct (Pets p !! NextId p) as [old|] eqn:Hold; [|done].
    destruct (Hpets _ _ Hold). lia.
  - by rewrite lookup_insert_eq.
  - intros id Hne. by rewrite lookup_insert_ne.
Qed.

(** [DeletePet] succeeds on the ids that [FindPetByID] finds.  It then
    removes that pet only, and the id is not found any more; when it
    fails the store is as before.  The next id is never changed, so the
    id of a deleted pet is not handed out again. *)
Theorem DeletePet_removes_what_FindPetByID_finds (p : PetStore) (id : Z) :
  ((DeletePet p id).2 = Ok tt <-> exists pet, FindPetByID p id = Ok pet)
  /\ ((DeletePet p id).2 <> Ok tt ->
      (DeletePet p id).2 = Err (notFound id) /\ (DeletePet p id).1 = p)
  /\ FindPetByID (DeletePet p id).1 id = Err (notFound id)
  /\ (forall id', id' <> id ->
        FindPetByID (DeletePet p id).1 id' = FindPetByID p id')
  /\ NextId (DeletePet p id).1 = NextId p
  /\ (wellFormed p -> wellFormed (DeletePet p id).1).
Proof.
  split; [|split; [|split; [|split; [|split]]]].
  - unfold DeletePet, FindPetByID. destruct (Pets p !! id) as [pet|]; cbn.
    + split; [by exists pet | done].
    + split; [done | by intros [? ?]].
  - unfold DeletePet. by destruct (Pets p !! id).
  - unfold DeletePet, FindPetByID.
    destruct (Pets p !! id) as [pet|] eqn:Hid; cbn.
    + by rewrite lookup_delete_eq.
    + by rewrite Hid.
  - intros id' Hne. unfold DeletePet, FindPetByID.
    destruct (Pets p !! id) as [pet|]; cbn; [|done].
    by rewrite lookup_delete_ne.
  - unfold DeletePet. by destruct (Pets p !! id).
  - apply DeletePet_wellFormed.
Qed.

(** *** [FindPets] *)

Lemma appendPerTag_app pet tags : forall result,
  appendPerTag pet tags result = result ++ appendPerTag pet tags [].
Proof.
  induction tags as [|t tags IH]; intros result; cbn [appendPerTag].
  - by rewrite app_nil_r.
  - destruct (Pet_Tag pet) as [tag|]; [|apply IH].
    destruct (streq tag t); [|apply IH].
    rewrite IH, (IH ([] ++ [pet])). cbn. by rewrite <- app_assoc.
Qed.

Lemma appendPerTag_elem pet tags x :
  x ∈ appendPerTag pet tags [] ->
  x = pet /\ exists tag, Pet_Tag pet = Some tag /\ tag ∈ tags.
Proof.
  induction tags as [|t tags IH]; cbn [appendPerTag].
  - by intros ?%elem_of_nil.
  - destruct (Pet_Tag pet) as [tag|] eqn:Htag.
    + destruct (streq tag t) eqn:Ht.
      * rewrite appendPerTag_app. cbn.
        intros [->|Hin]%elem_of_cons.
        -- split; [done|]. exists tag. apply streq_true in Ht as ->.
           split; [done | list_in].
        -- destruct (IH Hin) as (-> & tag' & [= <-] & Hin'). split; [done|].
           exists tag. split; [done|]. by apply list_elem_of_further.
      * intros Hin. destruct (IH Hin) as (-> & tag' & [= <-] & Hin').
        split; [done|]. exists tag. split; [done|].
        by apply list_elem_of_further.
    + intros Hin. by destruct (IH Hin) as (_ & tag' & [=] & _).
Qed.

Lemma FindPets_loop_elem pets params : forall result x,
  x ∈ FindPets_loop pets params result ->
  x ∈ result
  \/ (x ∈ pets
      /\ forall tags, Tags params = Some tags ->
           exists tag, Pet_Tag x = Some tag /\ tag ∈ tags).
Proof.
  induction pets as [|pet pets IH]; intros result x; cbn [FindPets_loop];
    [by left|].
  set (result' := match Tags params with
                  | Some tags => appendPerTag pet tags result
                  | None => result ++ [pet]
                  end).
  assert (Hnew : x ∈ result' ->
                 x ∈ result
                 \/ (x = pet
                     /\ forall tags, Tags params = Some tags ->
                          exists tag, Pet_Tag x = Some tag /\ tag ∈ tags)).
  { subst result'. destruct (Tags params) as [tags|].
    - rewrite appendPerTag_app. intros [?|Hin]%elem_of_app; [by left|].
      right. destruct (appendPerTag_elem _ _ _ Hin) as (-> & tag & ? & ?).
      split; [done|]. intros ? [= <-]. by exists tag.
    - intros [?|Hin]%elem_of_app; [by left|].
      apply list_elem_of_singleton in Hin as ->. right. by split. }
  assert (Hrest : x ∈ FindPets_loop pets params result' ->
                  x ∈ result
                  \/ (x ∈ pet :: pets
                      /\ forall tags, Tags params = Some tags ->
                           exists tag, Pet_Tag x = Some tag /\ tag ∈ tags)).
  { intros [Hin|[Hin Htags]]%IH.
    - destruct (Hnew Hin) as [?|[-> ?]]; [by left|]. right.
      split; [list_in | done].
    - right. split; [by apply list_elem_of_further | done]. }
  destruct (Limit params) as [l|]; [|done].
  destruct (l <=? Z.of_nat (length result')); [|done].
  intros Hin. destruct (Hnew Hin) as [?|[-> ?]]; [by left|]. right.
  split; [list_in | done].
Qed.

Lemma FindPets_loop_all pets : forall limit result,
  FindPets_loop pets (mkFindPetsParams None limit) result
  = match limit with
    | Some l =>
        result ++ firstn (Z.to_nat (Z.max 1 (l - Z.of_nat (length result)))) pets
    | None => result ++ pets
    end.
Proof.
  induction pets as [|pet pets IH]; intros limit result; cbn [FindPets_loop Tags Limit].
  - destruct limit; by rewrite ?firstn_nil, app_nil_r.
  - destruct limit as [l|].
    + destruct (Z.leb_spec l (Z.of_nat (length (result ++ [pet])))) as [Hle|Hgt].
      * rewrite length_app in Hle. cbn in Hle.
        replace (Z.to_nat (Z.max 1 (l - Z.of_nat (length result)))) with 1%nat
          by lia.
        done.
      * rewrite IH. rewrite length_app in *. cbn in *.
        replace (Z.to_nat (Z.max 1 (l - Z.of_nat (length result))))
          with (S (Z.to_nat (Z.max 1 (l - Z.of_nat (length result + 1)))))
          by lia.
        cbn. by rewrite <- app_assoc.
    + rewrite IH. by rewrite <- app_assoc.
Qed.

(** Whatever the order in which the pets are visited, [FindPets] returns
    pets of the store only, and with requested tags only pets that have
    one of them.  Without tags it returns the first pets visited, as many
    as the limit says but at least one when there is a pet: the limit is
    tested after a pet was appended, so a limit of 0 still returns one
    pet. *)
Theorem FindPets_filters_and_limits (visited : list Pet) :
  (forall params x,
     x ∈ FindPets visited params ->
     x ∈ visited
     /\ forall tags, Tags params = Some tags ->
          exists tag, Pet_Tag x = Some tag /\ tag ∈ tags)
  /\ FindPets visited (mkFindPetsParams None None) = visited
  /\ (forall l,
        FindPets visited (mkFindPetsParams None (Some l))
        = firstn (Z.to_nat (Z.max 1 l)) visited).
Proof.
  unfold FindPets. split; [|split].
  - intros params x [Hin|Hin]%FindPets_loop_elem; [|done].
    by apply elem_of_nil in Hin.
  - by rewrite FindPets_loop_all.
  - intros l. rewrite FindPets_loop_all. cbn. by rewrite Z.sub_0_r.
Qed.

End PetStore.

(** The store after two additions and the deletion of the first pet. *)
Definition twoPets : api.PetStore :=
  (api.AddPet (api.AddPet api.NewPetStore (api.mkNewPet "Rex" None)).1
              (api.mkNewPet "Tom" (Some "cat"))).1.

Lemma AddPet_then_FindPetByID_witness :
  let p' := (api.AddPet twoPets (api.mkNewPet "Ada" None)).1 in
  let pet := (api.AddPet twoPets (api.mkNewPet "Ada" None)).2 in
  wellFormed p'
  /\ pet = api.mkPet (api.NextId twoPets) "Ada" None
  /\ api.NextId p' = (api.NextId twoPets + 1)%Z
  /\ api.FindPetByID twoPets (api.Pet_ID pet)
     = Err (api.notFound (api.Pet_ID pet))
  /\ api.FindPetByID p' (api.Pet_ID pet) = Ok pet
  /\ forall id, id <> api.Pet_ID pet ->
       api.FindPetByID p' id = api.FindPetByID twoPets id.
Proof.
  apply (AddPet_then_FindPetByID twoPets (api.mkNewPet "Ada" None)).
  - unfold twoPets. apply AddPet_wellFormed; [|vm_compute; reflexivity].
    apply AddPet_wellFormed;
      [apply NewPetStore_wellFormed | vm_compute; reflexivity].
  - vm_compute; reflexivity.
Defined.

Example petstore_ids :
  api.Pet_ID (api.AddPet twoPets (api.mkNewPet "Ada" None)).2 = 1002%Z
  /\ api.FindPetByID (api.DeletePet twoPets 1000).1 1000
     = Err "pet with ID 1000 not found"
  /\ api.FindPets [api.mkPet 1000 "Rex" None; api.mkPet 1001 "Tom" (Some "cat")]
                  (api.mkFindPetsParams None (Some 0%Z))
     = [api.mkPet 1000 "Rex" None].
Proof. repeat split; vm_compute; reflexivity. Qed.
